(** * SpringRank with groups: the rank engine and the planted-network sampler

    A shallow embedding of [api/SpringRank_tools.py].

    - NumPy / SciPy arrays are matrices with an explicit shape and an entry
      function; one-dimensional arrays are lists.
    - Python dictionaries are association lists in insertion order: the
      order in which [G] and [reg_coeff] are iterated decides where the
      blocks of the grouped operator land.
    - Exceptions are values of [exn] carried by [result].
    - The sparse solvers of [scipy.sparse.linalg] and the random sources of
      [numpy.random] are library code: the solvers are arguments of the
      functions that call them, the random sources are a class.
    - The linear algebra only adds, subtracts and multiplies, so the rank
      engine is written over an arbitrary commutative ring of scalars
      ([Scalars]); the sampler takes square roots and exponentials and is
      written over the real numbers, which idealise the floating-point
      numbers of NumPy (no rounding, no [inf], no [nan]).

    Part I is the program, with the vocabulary of the statements and the
    concrete inputs; part II is what is proved about it. *)

From Stdlib Require Import String List Bool Arith ZArith Lia Ring.
From Stdlib Require Import Reals Lra.
From Stdlib Require Import FunctionalExtensionality.
Import ListNotations.

(** * Part I: the program *)

(** ** Exceptions and results *)

Inductive exn : Type :=
| AssertionError
| KeyError (key : string)
| ValueError
| IndexError
| ZeroDivisionError.

Inductive result (A : Type) : Type :=
| Ok (a : A)
| Err (e : exn).

Arguments Ok {A} a.

Arguments Err {A} e.

Definition bind {A B : Type} (r : result A) (k : A -> result B) : result B :=
  match r with
  | Ok a => k a
  | Err e => Err e
  end.

Declare Scope result_scope.

Delimit Scope result_scope with result.

Notation "x <- r ;; k" := (bind r (fun x => k))
  (at level 100, r at next level, right associativity) : result_scope.

Notation "' p <- r ;; k" := (bind r (fun p => k))
  (at level 100, p pattern, r at next level, right associativity) : result_scope.

Open Scope result_scope.

(** [assert(c)] *)
Definition assert (c : bool) : result unit :=
  if c then Ok tt else Err AssertionError.

(** A [for] loop whose body may raise: the accumulator is threaded through
    the elements in order and the first exception ends the loop. *)
Fixpoint foldM {A B : Type} (f : A -> B -> result A) (l : list B) (a : A)
  : result A :=
  match l with
  | [] => Ok a
  | b :: l' => a' <- f a b ;; foldM f l' a'
  end.

(** ** Dictionaries

    Insertion-ordered, as Python's: [items] is the list itself, a lookup
    takes the first binding of the key, and storing under a key that is
    present keeps its position. *)
Definition dict (V : Type) : Type := list (string * V).

Definition keys {V : Type} (d : dict V) : list string := map fst d.

Fixpoint dict_find {V : Type} (d : dict V) (k : string) : option V :=
  match d with
  | [] => None
  | (k', v) :: d' => if String.eqb k' k then Some v else dict_find d' k
  end.

(** [d[k]] *)
Definition dict_get {V : Type} (d : dict V) (k : string) : result V :=
  match dict_find d k with
  | Some v => Ok v
  | None => Err (KeyError k)
  end.

(** [d[k] = v] *)
Fixpoint dict_set {V : Type} (d : dict V) (k : string) (v : V) : dict V :=
  match d with
  | [] => [(k, v)]
  | (k', v') :: d' =>
      if String.eqb k' k then (k', v) :: d' else (k', v') :: dict_set d' k v
  end.

Definition individual : string := "individual".

(** [d[k] = v] for each item of [items] in turn. *)
Definition dict_update {V : Type} (d : dict V) (items : list (string * V))
  : dict V :=
  fold_left (fun acc kv => dict_set acc (fst kv) (snd kv)) items d.

(** ** Arrays

    The element type of an array with the operations used on it.  The rank
    engine only needs a commutative ring and the test [alpha == 0]. *)

Class Scalars (R : Type) : Type := {
  rO : R;
  rI : R;
  radd : R -> R -> R;
  rmul : R -> R -> R;
  rsub : R -> R -> R;
  ropp : R -> R;
  reqb : R -> R -> bool
}.

Infix "[+]" := radd (at level 50, left associativity).
Infix "[-]" := rsub (at level 50, left associativity).
Infix "[*]" := rmul (at level 40, left associativity).

Section RankEngine.

Context {R : Type} {ops : Scalars R}.

(** A two-dimensional array: its [shape] and its entries.  Entries outside
    the shape are never read by the operations below. *)
Record matrix : Type := mkMatrix {
  nrows : nat;
  ncols : nat;
  entry : nat -> nat -> R
}.

(** A one-dimensional array. *)
Definition vec : Type := list R.

(** [sumn n f] is [f 0 + ... + f (n-1)]. *)
Fixpoint sumn (n : nat) (f : nat -> R) : R :=
  match n with
  | O => rO
  | S n' => sumn n' f [+] f n'
  end.

Definition vnth (v : vec) (i : nat) : R := nth i v rO.

(** [np.sum(A, 0)]: the column sums, [k_in]. *)
Definition col_sums (A : matrix) : vec :=
  map (fun j => sumn (nrows A) (fun i => entry A i j)) (seq 0 (ncols A)).

(** [np.sum(A, 1)]: the row sums, [k_out]. *)
Definition row_sums (A : matrix) : vec :=
  map (fun i => sumn (ncols A) (fun j => entry A i j)) (seq 0 (nrows A)).

Definition transpose (A : matrix) : matrix :=
  mkMatrix (ncols A) (nrows A) (fun i j => entry A j i).

Definition same_shape (A B : matrix) : bool :=
  (nrows A =? nrows B) && (ncols A =? ncols B).

(** Elementwise operations reject operands of different shapes
    (broadcasting between different shapes is outside the model). *)
Definition mplus (A B : matrix) : matrix :=
  mkMatrix (nrows A) (ncols A) (fun i j => entry A i j [+] entry B i j).

Definition mminus (A B : matrix) : matrix :=
  mkMatrix (nrows A) (ncols A) (fun i j => entry A i j [-] entry B i j).

Definition madd (A B : matrix) : result matrix :=
  if same_shape A B then Ok (mplus A B) else Err ValueError.

Definition msub (A B : matrix) : result matrix :=
  if same_shape A B then Ok (mminus A B) else Err ValueError.

Fixpoint vzip (f : R -> R -> R) (u v : vec) : vec :=
  match u, v with
  | x :: u', y :: v' => f x y :: vzip f u' v'
  | _, _ => []
  end.

Definition vadd (u v : vec) : result vec :=
  if length u =? length v then Ok (vzip radd u v) else Err ValueError.

Definition vsub (u v : vec) : result vec :=
  if length u =? length v then Ok (vzip rsub u v) else Err ValueError.

(** [np.diag(v)], [spdiags(v, 0, n, n)] for a [v] of length [n]. *)
Definition diag (v : vec) : matrix :=
  mkMatrix (length v) (length v)
           (fun i j => if i =? j then vnth v i else rO).

(** [np.eye(n)], [sp.eye(n)] *)
Definition eye (n : nat) : matrix :=
  mkMatrix n n (fun i j => if i =? j then rI else rO).

(** [a * A] for a scalar [a] *)
Definition scale (a : R) (A : matrix) : matrix :=
  mkMatrix (nrows A) (ncols A) (fun i j => a [*] entry A i j).

(** [A @ B] *)
Definition mmul (A B : matrix) : matrix :=
  mkMatrix (nrows A) (ncols B)
           (fun i j => sumn (ncols A) (fun k => entry A i k [*] entry B k j)).

Definition matmul (A B : matrix) : result matrix :=
  if ncols A =? nrows B then Ok (mmul A B) else Err ValueError.

(** [np.matmul(A, v)] for a one-dimensional [v] *)
Definition mvmul (A : matrix) (v : vec) : vec :=
  map (fun i => sumn (ncols A) (fun k => entry A i k [*] vnth v k))
      (seq 0 (nrows A)).

Definition matvec (A : matrix) (v : vec) : result vec :=
  if ncols A =? length v then Ok (mvmul A v) else Err ValueError.

(** [sp.hstack([A, B])] *)
Definition hcat (A B : matrix) : matrix :=
  mkMatrix (nrows A) (ncols A + ncols B)
           (fun i j => if j <? ncols A then entry A i j
                       else entry B i (j - ncols A)).

Definition hstack (A B : matrix) : result matrix :=
  if nrows A =? nrows B then Ok (hcat A B) else Err ValueError.

(** [sp.vstack([A, B])] *)
Definition vcat (A B : matrix) : matrix :=
  mkMatrix (nrows A + nrows B) (ncols A)
           (fun i j => if i <? nrows A then entry A i j
                       else entry B (i - nrows A) j).

Definition vstack (A B : matrix) : result matrix :=
  if ncols A =? ncols B then Ok (vcat A B) else Err ValueError.

(** [A.resize((r, c))]: entries outside the new shape are dropped, new
    entries are zero. *)
Definition resize (A : matrix) (r c : nat) : matrix :=
  mkMatrix r c
           (fun i j => if (i <? nrows A) && (j <? ncols A) then entry A i j
                       else rO).

(** [A[i, j] = x] *)
Definition setitem (A : matrix) (i j : nat) (x : R) : result matrix :=
  if (i <? nrows A) && (j <? ncols A)
  then Ok (mkMatrix (nrows A) (ncols A)
             (fun i' j' => if (i' =? i) && (j' =? j) then x else entry A i' j'))
  else Err IndexError.

(** The array written as a list of rows, with its shape. *)
Definition of_rows (r c : nat) (rows : list (list R)) : matrix :=
  mkMatrix r c (fun i j => nth j (nth i rows []) rO).

(** *** [csr_SpringRank] *)

(** The operator and right-hand side handed to the solver. *)
Definition csr_SpringRank_system (A : matrix) : result (matrix * vec) :=
  let N := nrows A in
  let k_in := col_sums A in
  let k_out := row_sums A in
  kk <- vadd k_out k_in ;;
  DA <- msub (diag kk) A ;;
  operator <- msub DA (transpose A) ;;
  let operator := resize operator (N + 1) (N + 1) in
  operator <- setitem operator N 0 rI ;;
  operator <- setitem operator 0 N rI ;;
  d <- vsub k_out k_in ;;
  let solution_vector := d ++ [rO] in
  Ok (operator, solution_vector).

(** *** [SpringRank] *)

(** The operator and right-hand side of the branch [alpha != 0]. *)
Definition SpringRank_regularized_system (A : matrix) (alpha : R)
  : result (matrix * vec) :=
  let N := nrows A in
  let k_in := col_sums A in
  let k_out := row_sums A in
  C <- madd A (transpose A) ;;
  kk <- vadd k_out k_in ;;
  let D1 := diag kk in
  d2 <- vsub k_out k_in ;;
  let B := map (fun x => alpha [+] x) d2 in
  aD <- madd (scale alpha (eye N)) D1 ;;
  A' <- msub aD C ;;
  Ok (A', B).

(** *** [SpringRank_groups] *)

(** A dictionary filled by one pass over the items of [d], storing [f v]
    under each key. *)
Definition dict_collect {V W : Type} (f : V -> W) (d : dict V) : dict W :=
  fold_left (fun acc kv => dict_set acc (fst kv) (f (snd kv))) d [].

(** The row block of one group type: [G_i.T @ L] followed, for every block
    of [blocks] in order, by [G_i.T @ block], plus [lambda_i * eye(n_i)]
    on the block of the same name. *)
Definition group_row (L : matrix) (blocks : dict matrix) (group_type : string)
           (G_i_sparse : matrix) (lambda_i : R) (n_i : nat) : result matrix :=
  current_row <- matmul (transpose G_i_sparse) L ;;
  foldM (fun current_row kb =>
           let block_type := fst kb in
           let block := snd kb in
           if String.eqb block_type group_type then
             GB <- matmul (transpose G_i_sparse) block ;;
             GBl <- madd GB (scale lambda_i (eye n_i)) ;;
             hstack current_row GBl
           else
             GB <- matmul (transpose G_i_sparse) block ;;
             hstack current_row GB)
        blocks current_row.

(** Everything up to the solve: the operator [K] and the right-hand side
    [d_hat]. *)
Definition SpringRank_groups_system (A : matrix) (G : dict matrix)
           (reg_coeff : dict R) : result (matrix * vec) :=
  let N := nrows A in
  let M := ncols A in
  _ <- assert (N =? M) ;;
  let k_in := col_sums A in
  let k_out := row_sums A in
  kk <- vadd k_out k_in ;;
  let D := diag kk in
  AAT <- madd A (transpose A) ;;
  L <- msub D AAT ;;
  let num_groups := dict_collect ncols G in
  let G_sparse := dict_collect (fun G_i => G_i) G in
  blocks <- foldM (fun blocks kv =>
                     LG <- matmul L (snd kv) ;;
                     Ok (dict_set blocks (fst kv) LG))
                  G [] ;;
  lambda_0 <- dict_get reg_coeff individual ;;
  K <- madd L (scale lambda_0 (eye N)) ;;
  K <- foldM (fun K group_type =>
                block <- dict_get blocks group_type ;;
                hstack K block)
             (keys G) K ;;
  k_diff <- vsub k_out k_in ;;
  let d_hat := k_diff in
  foldM (fun Kd kl =>
           let group_type := fst kl in
           let lambda_i := snd kl in
           if String.eqb group_type individual then Ok Kd
           else
             G_i_sparse <- dict_get G_sparse group_type ;;
             G_i <- dict_get G group_type ;;
             n_i <- dict_get num_groups group_type ;;
             current_row <- group_row L blocks group_type G_i_sparse
                                      lambda_i n_i ;;
             K <- vstack (fst Kd) current_row ;;
             d_i <- matvec (transpose G_i) k_diff ;;
             Ok (K, snd Kd ++ d_i))
        reg_coeff (K, d_hat).

(** [x[a:b]] *)
Definition slice (x : vec) (a b : nat) : vec := firstn (b - a) (skipn a x).

(** One pass of the last loop: the scores of [group_type] are cut out of
    [x], stored, and their contribution is added to the ranks. *)
Definition scores_step (G : dict matrix) (x : vec)
           (st : vec * dict vec * nat) (kn : string * nat)
  : result (vec * dict vec * nat) :=
  let '(ranks, scores, prev_idx) := st in
  let group_type := fst kn in
  let n_i := snd kn in
  let scores :=
    dict_set scores group_type (slice x prev_idx (prev_idx + n_i)) in
  G_t <- dict_get G group_type ;;
  s_t <- dict_get scores group_type ;;
  p <- matvec G_t s_t ;;
  ranks <- vadd ranks p ;;
  Ok (ranks, scores, prev_idx + n_i).

(** The last part: the scores are cut out of [x] and the ranks are summed. *)
Definition SpringRank_groups_scores (N : nat) (G : dict matrix)
           (num_groups : dict nat) (x : vec) : result (vec * dict vec) :=
  let scores := dict_set [] individual (slice x 0 N) in
  ranks <- dict_get scores individual ;;
  st <- foldM (scores_step G x) num_groups (ranks, scores, N) ;;
  let '(ranks, scores, _) := st in
  Ok (ranks, scores).

(** *** The solvers of [scipy.sparse.linalg] and the functions that call them

    [bicgstab] returns the pair [(x, info)]: the last iterate and the
    convergence flag ([0] on success, the iteration count when the budget
    ran out, negative on breakdown).  [lsqr] returns a tuple that starts
    with the solution and the stopping reason.  All of them may raise. *)
Section Solvers.

Variable bicgstab : matrix -> vec -> result (vec * Z).
Variable spsolve : matrix -> vec -> result vec.
Variable lsqr : matrix -> vec -> result (vec * Z).

(** [csr_SpringRank] *)
Definition csr_SpringRank (A : matrix) : result vec :=
  ' (operator, solution_vector) <- csr_SpringRank_system A ;;
  out <- bicgstab operator solution_vector ;;
  let ranks := fst out in
  Ok (removelast ranks).

(** [SpringRank]; [np.transpose] of a one-dimensional array is the array. *)
Definition SpringRank (A : matrix) (alpha : R) : result vec :=
  if reqb alpha rO then csr_SpringRank A
  else
    ' (A', B) <- SpringRank_regularized_system A alpha ;;
    out <- bicgstab A' B ;;
    Ok (fst out).

(** The choice of solver; an unrecognised name falls back to [bicgstab]. *)
Definition solve (solver : string) (K : matrix) (d_hat : vec) : result vec :=
  if String.eqb solver "spsolve" then spsolve K d_hat
  else if String.eqb solver "bicgstab" then
    output <- bicgstab K d_hat ;; Ok (fst output)
  else if String.eqb solver "lsqr" then
    output <- lsqr K d_hat ;; Ok (fst output)
  else
    output <- bicgstab K d_hat ;; Ok (fst output).

(** [SpringRank_groups] *)
Definition SpringRank_groups (A : matrix) (G : dict matrix)
           (reg_coeff : dict R) (solver : string)
  : result (vec * dict vec) :=
  Kd <- SpringRank_groups_system A G reg_coeff ;;
  x <- solve solver (fst Kd) (snd Kd) ;;
  SpringRank_groups_scores (nrows A) G (dict_collect ncols G) x.

End Solvers.

(** ** The vocabulary of the statements about the rank engine *)

(** Out- and in-degree of node [i], and the Laplacian
    [diag(k_in + k_out) - A - A^T] entry by entry. *)
Definition k_out_at (A : matrix) (i : nat) : R :=
  sumn (ncols A) (fun j => entry A i j).

Definition k_in_at (A : matrix) (j : nat) : R :=
  sumn (nrows A) (fun i => entry A i j).

Definition laplacian (A : matrix) : matrix :=
  mkMatrix (nrows A) (nrows A)
    (fun i j =>
       (if i =? j then k_in_at A i [+] k_out_at A i else rO)
       [-] entry A i j [-] entry A j i).

(** *** Stacked blocks *)

Fixpoint cat_cols (bs : list matrix) (i j : nat) : R :=
  match bs with
  | [] => rO
  | b :: bs' => if j <? ncols b then entry b i j
                else cat_cols bs' i (j - ncols b)
  end.

Fixpoint cat_rows (bs : list matrix) (i j : nat) : R :=
  match bs with
  | [] => rO
  | b :: bs' => if i <? nrows b then entry b i j
                else cat_rows bs' (i - nrows b) j
  end.

(** *** The grouped system in closed form *)

(** [L @ G_t] for every group type, in the order of [G]. *)
Definition blocks_of (L : matrix) (G : dict matrix) : dict matrix :=
  map (fun kv => (fst kv, mmul L (snd kv))) G.

(** The block of row [group_type] that stands over the block named
    [fst kb]. *)
Definition row_block (group_type : string) (G_t : matrix) (lambda_t : R)
           (kb : string * matrix) : matrix :=
  if String.eqb (fst kb) group_type
  then mplus (mmul (transpose G_t) (snd kb))
             (scale lambda_t (eye (ncols G_t)))
  else mmul (transpose G_t) (snd kb).

Definition row_of (L : matrix) (blocks : dict matrix) (group_type : string)
           (G_t : matrix) (lambda_t : R) : matrix :=
  fold_left hcat (map (row_block group_type G_t lambda_t) blocks)
            (mmul (transpose G_t) L).

(** The Laplacian as the code computes it, [D - (A + A.T)]. *)
Definition laplacian_of (A : matrix) : matrix :=
  mminus (diag (vzip radd (row_sums A) (col_sums A))) (mplus A (transpose A)).

Definition G_at (G : dict matrix) (t : string) : matrix :=
  match dict_find G t with
  | Some G_t => G_t
  | None => mkMatrix 0 0 (fun _ _ => rO)
  end.

(** The items of [reg_coeff] that the row loop does not skip. *)
Definition nonind (kl : string * R) : bool :=
  negb (String.eqb (fst kl) individual).

Definition groups_operator (A : matrix) (G : dict matrix) (reg_coeff : dict R)
           (lambda_0 : R) : matrix :=
  let L := laplacian_of A in
  let blocks := blocks_of L G in
  fold_left vcat
    (map (fun kl => row_of L blocks (fst kl) (G_at G (fst kl)) (snd kl))
         (filter nonind reg_coeff))
    (fold_left hcat (map snd blocks)
               (mplus L (scale lambda_0 (eye (nrows A))))).

Definition groups_rhs (A : matrix) (G : dict matrix) (reg_coeff : dict R)
  : vec :=
  let k_diff := vzip rsub (row_sums A) (col_sums A) in
  fold_left (fun d kl => d ++ mvmul (transpose (G_at G (fst kl))) k_diff)
            (filter nonind reg_coeff) k_diff.

(** *** The blocks of the grouped operator *)

Definition group_sizes (G : dict matrix) : list nat :=
  map (fun kv => ncols (snd kv)) G.

(** Where the block of the [a]-th group type starts. *)
Definition group_offset (N : nat) (G : dict matrix) (a : nat) : nat :=
  N + list_sum (firstn a (group_sizes G)).

Definition system_size (N : nat) (G : dict matrix) : nat :=
  N + list_sum (group_sizes G).

(** *** Ranks and scores *)

(** The decomposition of the ranks as the specification words it:
    the individual scores plus [G_t @ scores[t]] for every group type. *)
Definition recombine_step (scores : dict vec) (acc : vec)
           (kv : string * matrix) : result vec :=
  s_t <- dict_get scores (fst kv) ;;
  p <- matvec (snd kv) s_t ;;
  vadd acc p.

Definition recombine (G : dict matrix) (scores : dict vec) : result vec :=
  ind <- dict_get scores individual ;;
  foldM (recombine_step scores) G ind.

(** *** The convergence flag *)

(** Two behaviours of [bicgstab] that differ at most in the flag. *)
Definition same_iterate (b1 b2 : matrix -> vec -> result (vec * Z)) : Prop :=
  forall K d,
    (out <- b1 K d ;; Ok (fst out)) = (out <- b2 K d ;; Ok (fst out)).

(** *** Exact solutions of a system *)

(** [x] has one entry for every column of [K], and [K @ x] is [d]. *)
Definition solves (K : matrix) (d x : vec) : Prop :=
  length x = ncols K /\ mvmul K x = d.

(** The sum of the first [n] entries of [x]. *)
Definition vsum (n : nat) (x : vec) : R := sumn n (vnth x).

(** *** Self-loops *)

(** [A] with the diagonal inside its shape set to zero. *)
Definition without_self_loops (A : matrix) : matrix :=
  mkMatrix (nrows A) (ncols A)
           (fun i j => if (i =? j) && (i <? nrows A) then rO
                       else entry A i j).

End RankEngine.

Arguments matrix R : clear implicits.
Arguments vec R : clear implicits.

(** ** Integer arrays and runs of the solvers *)

#[export] Instance Z_scalars : Scalars Z := {|
  rO := 0%Z;
  rI := 1%Z;
  radd := Z.add;
  rmul := Z.mul;
  rsub := Z.sub;
  ropp := Z.opp;
  reqb := Z.eqb
|}.

Section IntegerInputs.

Open Scope string_scope.
Open Scope Z_scope.

Definition Zrows (r c : nat) (rows : list (list Z)) : matrix Z :=
  of_rows r c rows.

(** Two nodes and the single edge [0 -> 1]. *)
Definition A_edge : matrix Z := Zrows 2 2 [[0; 1]; [0; 0]].

(** Every node its own group; all nodes in one group. *)
Definition G_own : matrix Z := Zrows 2 2 [[1; 0]; [0; 1]].

Definition G_all : matrix Z := Zrows 2 1 [[1]; [1]].

Definition G_two : dict (matrix Z) := [("a", G_own); ("b", G_all)].

(** Coefficients in the order of [G_two], in the opposite order, and
    without the key ["b"]. *)
Definition reg_ordered : dict Z := [("individual", 1); ("a", 1); ("b", 1)].

Definition reg_swapped : dict Z := [("individual", 1); ("b", 1); ("a", 1)].

Definition reg_without_b : dict Z := [("individual", 1); ("a", 1)].

Definition reg_without_individual : dict Z := [("a", 1)].

(** Runs of the solvers: each returns a vector of the length of the
    unknown, here the right-hand side itself for a square system.  The two
    runs of [bicgstab] stop at the same iterate; the first reports success,
    the second reports that the iteration budget ran out. *)
Definition bicgstab_converged (K : matrix Z) (d : list Z)
  : result (list Z * Z) := Ok (d, 0).

Definition bicgstab_stalled (K : matrix Z) (d : list Z)
  : result (list Z * Z) := Ok (d, 1).

Definition spsolve_run (K : matrix Z) (d : list Z) : result (list Z) := Ok d.

Definition lsqr_run (K : matrix Z) (d : list Z) : result (list Z * Z) :=
  Ok (repeat 0 (ncols K), 1).

(** A matrix that is not square. *)
Definition A_row : matrix Z := Zrows 1 2 [[0; 1]].

(** The two edges [0 -> 1] and [1 -> 0]. *)
Definition A_mutual : matrix Z := Zrows 2 2 [[0; 1]; [1; 0]].

(** The edge [0 -> 1] and a self-loop of weight five at node [0]. *)
Definition A_loop : matrix Z := Zrows 2 2 [[5; 1]; [0; 0]].

(** A group matrix with one row for two nodes. *)
Definition G_short : dict (matrix Z) := [("a", Zrows 1 1 [[1]])].

(** Coefficients with a key that is no group type of [G_two]. *)
Definition reg_unknown : dict Z := [("individual", 1); ("a", 1); ("c", 1)].

(** A run of [bicgstab] that stops at the solution of the system of
    [A_edge]. *)
Definition bicgstab_exact (K : matrix Z) (d : list Z)
  : result (list Z * Z) := Ok ([0; -1; 0], 0).





End IntegerInputs.

(** ** The planted-network samplers *)

(** The real numbers as the element type of the sampler's arrays. *)
#[export] Instance R_scalars : Scalars R := {|
  rO := 0%R;
  rI := 1%R;
  radd := Rplus;
  rmul := Rmult;
  rsub := Rminus;
  ropp := Ropp;
  reqb := fun x y => if Req_dec_T x y then true else false
|}.

(** The state of a generator of [numpy.random]: the module-level generator
    behind [np.random.normal], [np.random.randint] and [np.random.poisson],
    or a generator object handed in as [prng].  The draws are library
    code: each takes the state and returns the values drawn with the state
    that follows, or raises on arguments outside its domain.
    [normal loc scale n] and [randint low high n] return [n] values. *)
Class RandomSource (RandomState : Type) : Type := {
  normal : R -> R -> nat -> RandomState -> result (list R * RandomState);
  randint :
    nat -> nat -> nat -> RandomState -> result (list nat * RandomState);
  poisson : R -> RandomState -> result (nat * RandomState)
}.

Section Sampler.

Open Scope R_scope.

Context {RandomState : Type} {source : RandomSource RandomState}.

(** The ordered pairs [(i, j)] in the order of the two nested loops. *)
Definition pairs (N : nat) : list (nat * nat) :=
  list_prod (seq 0 N) (seq 0 N).

Definition rank_at (ranks : list R) (i : nat) : R := nth i ranks 0.

(** [Z = 0; for i ...: for j ...: Z += w[i, j]] *)
Definition partition_sum (w : nat * nat -> R) (N : nat) : R :=
  fold_left (fun Z ij => Z + w ij) (pairs N) 0.

(** [K*N / Z], for [K] and [N] Python numbers: [Z] is still the integer
    [0] when the loops did not run, and the division raises; otherwise it
    is a sum of exponentials.  The real numbers do not underflow: a sum
    [Z] that rounds to [0.0] is outside the model. *)
Definition normalizer (K : R) (N : nat) (Z : R) : result R :=
  if (N =? 0)%nat then Err ZeroDivisionError else Ok (K * INR N / Z).

(** [np.zeros((r, c))] *)
Definition zeros (r c : nat) : matrix R := mkMatrix r c (fun _ _ => 0).

(** *** [SpringRank_planted_network] *)

Definition scaled_energy (beta : R) (ranks : list R) (ij : nat * nat) : R :=
  let displacement := rank_at ranks (fst ij) - rank_at ranks (snd ij) - 1 in
  let energy_ij := 0.5 * displacement * displacement in
  exp (- beta * energy_ij).

(** What the ungrouped sampler returns: [A, ranks] or [A] alone. *)
Inductive planted_output : Type :=
| NetworkAndRanks (A : matrix R) (ranks : list R)
| NetworkOnly (A : matrix R).

(** One pass of the edge loop. *)
Definition planted_edge_step (c : R) (w : nat * nat -> R)
           (st : matrix R * RandomState) (ij : nat * nat)
  : result (matrix R * RandomState) :=
  if (fst ij =? snd ij)%nat then Ok st
  else
    ag <- poisson (c * w ij) (snd st) ;;
    A <- setitem (fst st) (fst ij) (snd ij) (INR (fst ag)) ;;
    Ok (A, snd ag).

Definition SpringRank_planted_network (N : nat) (beta alpha K l0 : R)
           (return_ranks : bool) (g : RandomState)
  : result (planted_output * RandomState) :=
  let variance := 1 / sqrt (alpha * beta) in
  rg <- normal l0 variance N g ;;
  let ranks := fst rg in
  let Z := partition_sum (scaled_energy beta ranks) N in
  c <- normalizer K N Z ;;
  Ag <- foldM (planted_edge_step c (scaled_energy beta ranks)) (pairs N)
              (zeros N N, snd rg) ;;
  if return_ranks then Ok (NetworkAndRanks (fst Ag) ranks, snd Ag)
  else Ok (NetworkOnly (fst Ag), snd Ag).

(** *** [SpringRank_planted_network_groups] *)

(** [nx.DiGraph]: the nodes with their [score] and the weighted edges, in
    the order they were added. *)
Record DiGraph : Type := mkDiGraph {
  nodes : list (nat * R);
  edges : list (nat * nat * nat)
}.

Definition add_node (A : DiGraph) (i : nat) (score : R) : DiGraph :=
  mkDiGraph (nodes A ++ [(i, score)]) (edges A).

Definition add_edge (A : DiGraph) (i j weight : nat) : DiGraph :=
  mkDiGraph (nodes A) (edges A ++ [(i, j, weight)]).

Definition scaled_exp_energy (beta l1 : R) (ranks : list R)
           (ij : nat * nat) : R :=
  let energy_ij :=
    0.5 * (rank_at ranks (fst ij) - rank_at ranks (snd ij) - l1) ^ 2 in
  exp (- beta * energy_ij).

(** What the grouped sampler returns: [A, G, scores, ranks] or [A, G]. *)
Inductive planted_groups_output : Type :=
| GroupsWithRanks (A : DiGraph) (G : dict (matrix R))
                  (scores : dict (list R)) (ranks : list R)
| GroupsOnly (A : DiGraph) (G : dict (matrix R)).

(** [G_i = np.zeros((N, n_i)); for j, g_j in enumerate(groups_i):
    G_i[j, g_j] = 1] *)
Definition assignment_matrix (N n_i : nat) (groups_i : list nat)
  : result (matrix R) :=
  foldM (fun G_i jg => setitem G_i (fst jg) (snd jg) 1)
        (combine (seq 0 (length groups_i)) groups_i) (zeros N n_i).

(** The state carried through the loop over the group types: the
    dictionaries [scores] and [G], the ranks, the generator [prng] and the
    module-level generator. *)
Record groups_state : Type := mkGroupsState {
  st_scores : dict (list R);
  st_G : dict (matrix R);
  st_ranks : list R;
  st_prng : RandomState;
  st_global : RandomState
}.

Definition groups_step (N : nat) (num_groups : dict nat) (beta : R)
           (alpha l0 : dict R) (st : groups_state) (group_type : string)
  : result groups_state :=
  n_i <- dict_get num_groups group_type ;;
  gg <- randint 0 n_i N (st_global st) ;;
  let groups_i := fst gg in
  G_i <- assignment_matrix N n_i groups_i ;;
  let G := dict_set (st_G st) group_type G_i in
  alpha_i <- dict_get alpha group_type ;;
  l0_i <- dict_get l0 group_type ;;
  sp <- normal l0_i (1 / sqrt (alpha_i * beta)) n_i (st_prng st) ;;
  let scores := dict_set (st_scores st) group_type (fst sp) in
  s_t <- dict_get scores group_type ;;
  p <- matvec G_i s_t ;;
  ranks <- vadd (st_ranks st) p ;;
  Ok (mkGroupsState scores G ranks (snd sp) (snd gg)).

(** One pass of the edge loop. *)
Definition groups_edge_step (allow_self_loops : bool) (c : R)
           (w : nat * nat -> R) (st : DiGraph * RandomState)
           (ij : nat * nat) : result (DiGraph * RandomState) :=
  if (fst ij =? snd ij)%nat && negb allow_self_loops then Ok st
  else
    let lambda_ij := c * w ij in
    ag <- poisson lambda_ij (snd st) ;;
    let A_ij := fst ag in
    if (0 <? A_ij)%nat
    then Ok (add_edge (fst st) (fst ij) (snd ij) A_ij, snd ag)
    else Ok (fst st, snd ag).

(** The sampler takes the generator [prng] as an argument and reads the
    module-level generator [np_random]; it returns its output with the
    states both generators are left in.  [prng] is a generator object of
    its own: a caller that hands in the module-level generator itself is
    outside the model. *)
Definition SpringRank_planted_network_groups
           (N : nat) (num_groups : dict nat) (beta : R) (alpha : dict R)
           (K : R) (prng : RandomState) (l0 : dict R) (l1 : R)
           (allow_self_loops return_ranks : bool) (np_random : RandomState)
  : result (planted_groups_output * RandomState * RandomState) :=
  alpha_i <- dict_get alpha individual ;;
  l0_i <- dict_get l0 individual ;;
  sp <- normal l0_i (1 / sqrt (alpha_i * beta)) N prng ;;
  let scores := dict_set [] individual (fst sp) in
  ranks <- dict_get scores individual ;;
  st <- foldM (groups_step N num_groups beta alpha l0) (keys num_groups)
              (mkGroupsState scores [] ranks (snd sp) np_random) ;;
  let ranks := st_ranks st in
  let w := scaled_exp_energy beta l1 ranks in
  let Z := partition_sum w N in
  c <- normalizer K N Z ;;
  let A := fold_left (fun A i => add_node A i (rank_at ranks i)) (seq 0 N)
                     (mkDiGraph [] []) in
  Ag <- foldM (groups_edge_step allow_self_loops c w) (pairs N)
              (A, st_global st) ;;
  if return_ranks
  then Ok (GroupsWithRanks (fst Ag) (st_G st) (st_scores st) ranks,
           st_prng st, snd Ag)
  else Ok (GroupsOnly (fst Ag) (st_G st), st_prng st, snd Ag).

(** *** The expected number of edges *)

Definition Rsum (l : list R) : R := fold_right Rplus 0 l.

(** The pairs for which the edge loop draws. *)
Definition sampled_pairs (N : nat) (allow_self_loops : bool)
  : list (nat * nat) :=
  filter (fun ij => negb ((fst ij =? snd ij)%nat && negb allow_self_loops))
         (pairs N).

(** The means handed to [poisson], in the order of the draws. *)
Definition poisson_means (c : R) (w : nat * nat -> R) (N : nat)
           (allow_self_loops : bool) : list R :=
  map (fun ij => c * w ij) (sampled_pairs N allow_self_loops).

(** *** The draws of the generators *)

(** What NumPy promises of the draws: they succeed on arguments inside
    their domain, and the vector draws return as many values as asked
    for, within the bounds. *)
Definition normal_contract : Prop :=
  forall loc scale n s, 0 <= scale ->
    exists xs s', normal loc scale n s = Ok (xs, s') /\ length xs = n.

Definition randint_contract : Prop :=
  forall high n s, (0 < high)%nat ->
    exists vs s', randint 0 high n s = Ok (vs, s') /\ length vs = n /\
                  Forall (fun v => (v < high)%nat) vs.

(** *** What the samplers return *)

Definition network_of (out : planted_output) : matrix R :=
  match out with
  | NetworkAndRanks A _ => A
  | NetworkOnly A => A
  end.

Definition graph_of (out : planted_groups_output) : DiGraph :=
  match out with
  | GroupsWithRanks A _ _ _ => A
  | GroupsOnly A _ => A
  end.

Definition groups_of (out : planted_groups_output) : dict (matrix R) :=
  match out with
  | GroupsWithRanks _ G _ _ => G
  | GroupsOnly _ G => G
  end.

(** An edge [(i, j, weight)] as the edge loop may add it. *)
Definition edge_ok (N : nat) (allow_self_loops : bool)
           (e : nat * nat * nat) : Prop :=
  (fst (fst e) < N)%nat /\ (snd (fst e) < N)%nat /\ (0 < snd e)%nat /\
  (allow_self_loops = false -> fst (fst e) <> snd (fst e)).

(** Row [i] of [G_t] holds a single one, in column [g]. *)
Definition one_hot_row (G_t : matrix R) (i g : nat) : Prop :=
  (g < ncols G_t)%nat /\
  forall j, entry G_t i j = if (j =? g)%nat then 1 else 0.

(** What NumPy promises of the values [randint] returns: as many as asked
    for, all of them in [[low, high)]. *)
Definition randint_range_contract : Prop :=
  forall low high n s vs s',
    randint low high n s = Ok (vs, s') ->
    length vs = n /\ Forall (fun v => (low <= v < high)%nat) vs.

(** ... and of the values [normal] returns: as many as asked for. *)
Definition normal_length_contract : Prop :=
  forall loc scale n s xs s',
    normal loc scale n s = Ok (xs, s') -> length xs = n.

(** *** Where an exception comes from *)

(** [e] is raised by a draw of a generator. *)
Definition raised_by_draw (e : exn) : Prop :=
  (exists loc scale n s, normal loc scale n s = Err e) \/
  (exists low high n s, randint low high n s = Err e) \/
  (exists lam s, poisson lam s = Err e).

(** [e] is the [KeyError] of a key among [read] that [alpha] or [l0]
    lacks. *)
Definition missing_key (read : list string) (alpha l0 : dict R) (e : exn)
  : Prop :=
  exists t, In t read /\ e = KeyError t /\
            (dict_find alpha t = None \/ dict_find l0 t = None).

End Sampler.

(** ** Runs of the random sources *)

Section SamplerInputs.

Open Scope string_scope.
Open Scope R_scope.

(** A source that records the means it is asked for, and draws no edge. *)
Definition recording_poisson (lam : R) (log : list R)
  : result (nat * list R) :=
  Ok (0%nat, (log ++ [lam])%list).

(** One realisation of a generator, written as a deterministic stream: the
    state counts the values drawn so far, and the value drawn depends on
    the state alone. *)
Definition stream_normal (loc scale : R) (n : nat) (s : nat)
  : result (list R * nat) :=
  Ok (map (fun k => loc + INR (s + k)) (seq 0 n), (s + n)%nat).

Definition stream_randint (low high n : nat) (s : nat)
  : result (list nat * nat) :=
  if (high <=? low)%nat then Err ValueError
  else Ok (map (fun k => (low + (s + k) mod (high - low))%nat) (seq 0 n),
           (s + n)%nat).

Definition stream_poisson (lam : R) (s : nat) : result (nat * nat) :=
  Ok ((s mod 2)%nat, S s).

Definition one_group_type : dict nat := [("g", 2%nat)].

Definition alpha_ones : dict R := [("individual", 1); ("g", 1)].

Definition alpha_negative : dict R := [("individual", -1); ("g", -1)].

Definition l0_zeros : dict R := [("individual", 0); ("g", 0)].

#[export] Instance stream_source : RandomSource nat := {|
  normal := stream_normal;
  randint := stream_randint;
  poisson := stream_poisson
|}.

(** The recording source draws scores at their mean and groups at their
    lower bound; only its Poisson draws are looked at. *)
#[export] Instance recording_source : RandomSource (list R) := {|
  normal := fun loc _ n log => Ok (repeat loc n, log);
  randint := fun low _ n log => Ok (repeat low n, log);
  poisson := recording_poisson
|}.

(** A source that counts its Poisson draws: the state of the underlying
    source, with the number of draws made so far. *)
Definition counting_source {RandomState : Type}
           (source : RandomSource RandomState)
  : RandomSource (RandomState * nat) := {|
  normal := fun loc scale n st =>
    r <- normal loc scale n (fst st) ;; Ok (fst r, (snd r, snd st));
  randint := fun low high n st =>
    r <- randint low high n (fst st) ;; Ok (fst r, (snd r, snd st));
  poisson := fun lam st =>
    r <- poisson lam (fst st) ;; Ok (fst r, (snd r, S (snd st)))
|}.

(** Mappings that lack the key ["individual"], or the group type ["g"]. *)
Definition alpha_without_individual : dict R := [("g", 1)].

Definition alpha_without_g : dict R := [("individual", 1)].

Definition alpha_negative_without_g : dict R := [("individual", -1)].

End SamplerInputs.

(** * Part II: what the program computes *)

(** ** Dictionaries and loops *)

Lemma dict_find_In {V : Type} (d : dict V) (k : string) (v : V) :
  NoDup (keys d) -> In (k, v) d -> dict_find d k = Some v.
Proof.
  induction d as [|[k' v'] d IH]; simpl; intros Hnd Hin; [tauto|].
  inversion Hnd as [|? ? Hfresh Hnd']; subst.
  destruct Hin as [Heq | Hin].
  - inversion Heq; subst. now rewrite String.eqb_refl.
  - destruct (String.eqb k' k) eqn:E.
    + apply String.eqb_eq in E. subst k'. exfalso. apply Hfresh.
      unfold keys. apply in_map_iff. now exists (k, v).
    + now apply IH.
Qed.

Lemma dict_find_Some_In {V : Type} (d : dict V) (k : string) (v : V) :
  dict_find d k = Some v -> In (k, v) d.
Proof.
  induction d as [|[k' v'] d IH]; simpl; intro H; [discriminate|].
  destruct (String.eqb k' k) eqn:E.
  - apply String.eqb_eq in E. inversion H; subst. now left.
  - right. now apply IH.
Qed.

Lemma dict_find_set_same {V : Type} (d : dict V) (k : string) (v : V) :
  dict_find (dict_set d k v) k = Some v.
Proof.
  induction d as [|[k' v'] d IH]; simpl.
  - now rewrite String.eqb_refl.
  - destruct (String.eqb k' k) eqn:E; simpl; rewrite E; auto.
Qed.

Lemma dict_find_set_other {V : Type} (d : dict V) (k k' : string) (v : V) :
  k <> k' -> dict_find (dict_set d k v) k' = dict_find d k'.
Proof.
  intro Hne. induction d as [|[k0 v0] d IH]; simpl.
  - destruct (String.eqb k k') eqn:E; [|reflexivity].
    apply String.eqb_eq in E. contradiction.
  - destruct (String.eqb k0 k) eqn:E; simpl.
    + apply String.eqb_eq in E. subst k0.
      destruct (String.eqb k k') eqn:E'; [|reflexivity].
      apply String.eqb_eq in E'. contradiction.
    + now rewrite IH.
Qed.

Lemma dict_set_fresh {V : Type} (d : dict V) (k : string) (v : V) :
  ~ In k (keys d) -> dict_set d k v = d ++ [(k, v)].
Proof.
  induction d as [|[k' v'] d IH]; simpl; intro H; [reflexivity|].
  destruct (String.eqb k' k) eqn:E.
  - apply String.eqb_eq in E. tauto.
  - rewrite IH by tauto. reflexivity.
Qed.

Lemma keys_app {V : Type} (d d' : dict V) : keys (d ++ d') = keys d ++ keys d'.
Proof. apply map_app. Qed.

Lemma dict_update_fresh {V : Type} (items d : dict V) :
  NoDup (keys d ++ keys items) -> dict_update d items = d ++ items.
Proof.
  unfold dict_update. revert d.
  induction items as [|[k v] items IH]; intros d Hnd; simpl.
  - now rewrite app_nil_r.
  - rewrite dict_set_fresh.
    + rewrite IH.
      * now rewrite <- app_assoc.
      * rewrite keys_app. simpl. rewrite <- app_assoc. exact Hnd.
    + simpl in Hnd. apply NoDup_remove_2 in Hnd.
      intro Hin. apply Hnd. apply in_or_app. now left.
Qed.

(** Loops whose body never raises, under an invariant of the accumulator. *)
Lemma foldM_inv {A B : Type} (f : A -> B -> result A) (g : A -> B -> A)
      (P : A -> Prop) (l : list B) (a : A) :
  P a ->
  (forall a b, In b l -> P a -> f a b = Ok (g a b) /\ P (g a b)) ->
  foldM f l a = Ok (fold_left g l a) /\ P (fold_left g l a).
Proof.
  revert a. induction l as [|b l IH]; intros a Ha Hstep; simpl.
  - now split.
  - destruct (Hstep a b (or_introl eq_refl) Ha) as [-> Hb]. simpl.
    apply IH; [exact Hb|].
    intros a' b' Hin. apply Hstep. now right.
Qed.

Lemma fold_left_map {A B C : Type} (f : A -> B -> A) (g : C -> B)
      (l : list C) (a : A) :
  fold_left f (map g l) a = fold_left (fun a x => f a (g x)) l a.
Proof.
  revert a. induction l as [|x l IH]; intro a; simpl; [reflexivity|].
  apply IH.
Qed.

(** Loops whose body succeeds under an invariant of the accumulator. *)
Lemma foldM_total {A B : Type} (f : A -> B -> result A) (P : A -> Prop)
      (l : list B) (a : A) :
  P a ->
  (forall a b, In b l -> P a -> exists a', f a b = Ok a' /\ P a') ->
  exists a', foldM f l a = Ok a' /\ P a'.
Proof.
  revert a. induction l as [|b l IH]; intros a Ha Hstep; simpl.
  - now exists a.
  - destruct (Hstep a b (or_introl eq_refl) Ha) as (a1 & -> & Ha1). simpl.
    apply IH; [exact Ha1|].
    intros a' b' Hin. apply Hstep. now right.
Qed.

(** Iterations that [continue] at once can be left out. *)
Lemma foldM_skip {A B : Type} (f : A -> B -> result A) (keep : B -> bool)
      (l : list B) (a : A) :
  (forall a b, keep b = false -> f a b = Ok a) ->
  foldM f l a = foldM f (filter keep l) a.
Proof.
  intro Hskip. revert a. induction l as [|b l IH]; intro a; simpl.
  - reflexivity.
  - destruct (keep b) eqn:E; simpl.
    + destruct (f a b); simpl; auto.
    + rewrite (Hskip a b E). simpl. apply IH.
Qed.

(** A position below the total of the block sizes [ms] lies in exactly one
    block. *)
Lemma block_decompose (ms : list nat) (j : nat) :
  j < list_sum ms ->
  exists b m j', nth_error ms b = Some m /\ j' < m /\
                 j = list_sum (firstn b ms) + j'.
Proof.
  revert j. induction ms as [|m ms IH]; simpl; intros j Hj; [lia|].
  destruct (Nat.lt_ge_cases j m) as [Hlt | Hge].
  - exists 0, m, j. simpl. repeat split; auto.
  - destruct (IH (j - m)) as (b & m' & j' & Hb & Hj' & Heq); [lia|].
    exists (S b), m', j'. simpl. repeat split; auto. lia.
Qed.

(** ** The rank engine *)

Section RankEngineProperties.

Context {R : Type} {ops : Scalars R}.

Hypothesis Rth : ring_theory rO rI radd rmul rsub ropp (@eq R).

Hypothesis reqb_spec : forall x y : R, reqb x y = true <-> x = y.

Add Ring scalar_ring : Rth.

Lemma row_sums_length (A : matrix R) : length (row_sums A) = nrows A.
Proof. unfold row_sums. now rewrite length_map, length_seq. Qed.

Lemma col_sums_length (A : matrix R) : length (col_sums A) = ncols A.
Proof. unfold col_sums. now rewrite length_map, length_seq. Qed.

Lemma vzip_map_seq (f : R -> R -> R) (g h : nat -> R) (s n : nat) :
  vzip f (map g (seq s n)) (map h (seq s n))
  = map (fun i => f (g i) (h i)) (seq s n).
Proof.
  revert s. induction n as [|n IH]; intro s; simpl; [reflexivity|].
  now rewrite IH.
Qed.

Lemma vzip_length (f : R -> R -> R) (u v : vec R) :
  length u = length v -> length (vzip f u v) = length u.
Proof.
  revert v. induction u as [|x u IH]; intros [|y v] H; simpl in *;
    try discriminate; auto.
Qed.

Lemma vnth_map_seq (g : nat -> R) (n i : nat) :
  i < n -> vnth (map g (seq 0 n)) i = g i.
Proof.
  intro Hi. unfold vnth.
  rewrite (nth_indep _ rO (g 0)) by now rewrite length_map, length_seq.
  rewrite (map_nth g (seq 0 n) 0 i). now rewrite seq_nth.
Qed.

(** The degree vectors of a square matrix, combined entry by entry. *)
Lemma degrees_zip (f : R -> R -> R) (A : matrix R) :
  ncols A = nrows A ->
  vzip f (row_sums A) (col_sums A)
  = map (fun i => f (k_out_at A i) (k_in_at A i)) (seq 0 (nrows A)).
Proof.
  intro Hsq. unfold row_sums, col_sums.
  replace (seq 0 (ncols A)) with (seq 0 (nrows A)) by now rewrite Hsq.
  now rewrite vzip_map_seq.
Qed.

Lemma reqb_refl (x : R) : reqb x x = true.
Proof. now apply reqb_spec. Qed.

(** The checked operations succeed on operands of matching shapes. *)
Lemma vadd_ok (u v : vec R) :
  length u = length v -> vadd u v = Ok (vzip radd u v).
Proof. intro H. unfold vadd. now rewrite H, Nat.eqb_refl. Qed.

Lemma vsub_ok (u v : vec R) :
  length u = length v -> vsub u v = Ok (vzip rsub u v).
Proof. intro H. unfold vsub. now rewrite H, Nat.eqb_refl. Qed.

Lemma same_shape_true (A B : matrix R) :
  nrows A = nrows B -> ncols A = ncols B -> same_shape A B = true.
Proof. intros H1 H2. unfold same_shape. now rewrite H1, H2, !Nat.eqb_refl. Qed.

Lemma madd_ok (A B : matrix R) :
  nrows A = nrows B -> ncols A = ncols B ->
  madd A B = Ok (mplus A B).
Proof. intros. unfold madd. now rewrite same_shape_true. Qed.

Lemma msub_ok (A B : matrix R) :
  nrows A = nrows B -> ncols A = ncols B ->
  msub A B = Ok (mminus A B).
Proof. intros. unfold msub. now rewrite same_shape_true. Qed.

Lemma degrees_sum_length (f : R -> R -> R) (A : matrix R) :
  ncols A = nrows A -> length (vzip f (row_sums A) (col_sums A)) = nrows A.
Proof.
  intro Hsq. rewrite vzip_length; rewrite row_sums_length; auto.
  now rewrite col_sums_length.
Qed.

(** C6: for a square N-by-N matrix [A], [csr_SpringRank] (the branch
    [alpha = 0] of [SpringRank]) builds an (N+1)-by-(N+1) operator whose
    top-left block is the Laplacian [diag(k_in + k_out) - A - A^T] and whose
    last row and column are zero except for a one at [(N,0)] and at [(0,N)];
    the right-hand side is [k_out - k_in] followed by a zero; the ranks are
    the solver's iterate without its last entry, which are its first [N]
    entries when the iterate has [N+1]. *)
Theorem csr_SpringRank_lagrange_system
        (bicgstab : matrix R -> vec R -> result (vec R * Z)) (A : matrix R) :
  ncols A = nrows A ->
  let N := nrows A in
  let b := map (fun i => k_out_at A i [-] k_in_at A i) (seq 0 N) ++ [rO] in
  exists operator : matrix R,
    csr_SpringRank_system A = Ok (operator, b) /\
    nrows operator = N + 1 /\ ncols operator = N + 1 /\
    (forall i j, i < N -> j < N ->
       entry operator i j = entry (laplacian A) i j) /\
    (forall i j, i <= N -> j <= N -> i = N \/ j = N ->
       entry operator i j =
         if ((i =? N) && (j =? 0)) || ((i =? 0) && (j =? N))
         then rI else rO) /\
    SpringRank bicgstab A rO
    = (out <- bicgstab operator b ;; Ok (removelast (fst out))) /\
    (forall x info, bicgstab operator b = Ok (x, info) ->
       length x = N + 1 -> SpringRank bicgstab A rO = Ok (firstn N x)).
Proof.
  intros Hsq N b.
  assert (Hsys : exists operator,
             csr_SpringRank_system A = Ok (operator, b) /\
             nrows operator = N + 1 /\ ncols operator = N + 1 /\
             forall i j,
               entry operator i j =
                 if (i =? 0) && (j =? N) then rI
                 else if (i =? N) && (j =? 0) then rI
                 else if (i <? N) && (j <? N) then entry (laplacian A) i j
                 else rO).
  { unfold csr_SpringRank_system.
    rewrite vadd_ok by now rewrite row_sums_length, col_sums_length.
    cbn [bind].
    rewrite msub_ok; cbn [nrows ncols diag mminus mplus];
      try (rewrite (degrees_sum_length radd A Hsq); lia).
    cbn [bind].
    rewrite msub_ok; cbn [nrows ncols transpose diag mminus mplus];
      try (rewrite (degrees_sum_length radd A Hsq); lia).
    cbn [bind]. unfold setitem, resize. cbn [nrows ncols mminus mplus diag].
    fold N.
    replace ((N <? N + 1) && (0 <? N + 1)) with true
      by (symmetry; apply andb_true_intro; split; apply Nat.ltb_lt; lia).
    cbn [bind nrows ncols].
    replace ((0 <? N + 1) && (N <? N + 1)) with true
      by (symmetry; apply andb_true_intro; split; apply Nat.ltb_lt; lia).
    cbn [bind].
    rewrite vsub_ok by now rewrite row_sums_length, col_sums_length.
    cbn [bind]. rewrite (degrees_zip rsub A Hsq). fold N. fold b.
    eexists. split; [reflexivity|]. cbn [nrows ncols entry mminus mplus diag].
    split; [reflexivity|]. split; [reflexivity|].
    intros i j.
    rewrite (degrees_sum_length radd A Hsq). fold N.
    destruct ((i =? 0) && (j =? N)); [reflexivity|].
    destruct ((i =? N) && (j =? 0)); [reflexivity|].
    destruct ((i <? N) && (j <? N)) eqn:Hij; [|reflexivity].
    apply andb_prop in Hij. destruct Hij as [Hi Hj].
    apply Nat.ltb_lt in Hi.
    unfold laplacian. cbn [entry diag transpose mminus mplus].
    rewrite (degrees_zip radd A Hsq). fold N.
    destruct (i =? j) eqn:E; [|reflexivity].
    rewrite vnth_map_seq by exact Hi. ring. }
  destruct Hsys as (operator & Hsys & Hr & Hc & He).
  exists operator. split; [exact Hsys|]. split; [exact Hr|]. split; [exact Hc|].
  assert (Hrun : SpringRank bicgstab A rO
                 = (out <- bicgstab operator b ;; Ok (removelast (fst out)))).
  { unfold SpringRank. rewrite reqb_refl. unfold csr_SpringRank.
    rewrite Hsys. reflexivity. }
  split; [|split; [|split; [exact Hrun|]]].
  - intros i j Hi Hj. rewrite He.
    replace (j =? N) with false by (symmetry; apply Nat.eqb_neq; lia).
    replace (i =? N) with false by (symmetry; apply Nat.eqb_neq; lia).
    rewrite andb_false_r. cbn [andb].
    replace (i <? N) with true by (symmetry; apply Nat.ltb_lt; lia).
    replace (j <? N) with true by (symmetry; apply Nat.ltb_lt; lia).
    reflexivity.
  - intros i j Hi Hj HN. rewrite He.
    destruct ((i =? 0) && (j =? N)) eqn:E1.
    { now rewrite orb_true_r. }
    destruct ((i =? N) && (j =? 0)) eqn:E2.
    { reflexivity. }
    cbn [orb].
    replace ((i <? N) && (j <? N)) with false; [reflexivity|].
    symmetry. apply andb_false_iff.
    destruct HN as [-> | ->]; [left | right]; apply Nat.ltb_irrefl.
  - intros x info Hx Hlen. rewrite Hrun, Hx. cbn [bind fst].
    rewrite removelast_firstn_len, Hlen.
    now replace (Init.Nat.pred (N + 1)) with N by lia.
Qed.

(** *** Stacked blocks *)

Lemma hcat_all_shape (bs : list (matrix R)) (K0 : matrix R) :
  nrows (fold_left hcat bs K0) = nrows K0 /\
  ncols (fold_left hcat bs K0) = ncols K0 + list_sum (map ncols bs).
Proof.
  revert K0. induction bs as [|b bs IH]; intro K0; simpl.
  - split; lia.
  - destruct (IH (hcat K0 b)) as [-> ->]. cbn [nrows ncols hcat]. split; lia.
Qed.

Lemma hcat_all_entry (bs : list (matrix R)) (K0 : matrix R) (i j : nat) :
  j < ncols K0 + list_sum (map ncols bs) ->
  entry (fold_left hcat bs K0) i j
  = if j <? ncols K0 then entry K0 i j else cat_cols bs i (j - ncols K0).
Proof.
  revert K0. induction bs as [|b bs IH]; intros K0 Hj; simpl in *.
  - replace (j <? ncols K0) with true by (symmetry; apply Nat.ltb_lt; lia).
    reflexivity.
  - rewrite IH by (cbn [ncols hcat]; lia). cbn [nrows ncols entry hcat].
    destruct (j <? ncols K0) eqn:E1.
    + apply Nat.ltb_lt in E1.
      replace (j <? ncols K0 + ncols b) with true
        by (symmetry; apply Nat.ltb_lt; lia).
      reflexivity.
    + apply Nat.ltb_ge in E1.
      destruct (j - ncols K0 <? ncols b) eqn:E2.
      * apply Nat.ltb_lt in E2.
        replace (j <? ncols K0 + ncols b) with true
          by (symmetry; apply Nat.ltb_lt; lia).
        reflexivity.
      * apply Nat.ltb_ge in E2.
        replace (j <? ncols K0 + ncols b) with false
          by (symmetry; apply Nat.ltb_ge; lia).
        f_equal. lia.
Qed.

Lemma vcat_all_shape (bs : list (matrix R)) (K0 : matrix R) :
  nrows (fold_left vcat bs K0) = nrows K0 + list_sum (map nrows bs) /\
  ncols (fold_left vcat bs K0) = ncols K0.
Proof.
  revert K0. induction bs as [|b bs IH]; intro K0; simpl.
  - split; lia.
  - destruct (IH (vcat K0 b)) as [-> ->]. cbn [nrows ncols vcat]. split; lia.
Qed.

Lemma vcat_all_entry (bs : list (matrix R)) (K0 : matrix R) (i j : nat) :
  i < nrows K0 + list_sum (map nrows bs) ->
  entry (fold_left vcat bs K0) i j
  = if i <? nrows K0 then entry K0 i j else cat_rows bs (i - nrows K0) j.
Proof.
  revert K0. induction bs as [|b bs IH]; intros K0 Hi; simpl in *.
  - replace (i <? nrows K0) with true by (symmetry; apply Nat.ltb_lt; lia).
    reflexivity.
  - rewrite IH by (cbn [nrows vcat]; lia). cbn [nrows ncols entry vcat].
    destruct (i <? nrows K0) eqn:E1.
    + apply Nat.ltb_lt in E1.
      replace (i <? nrows K0 + nrows b) with true
        by (symmetry; apply Nat.ltb_lt; lia).
      reflexivity.
    + apply Nat.ltb_ge in E1.
      destruct (i - nrows K0 <? nrows b) eqn:E2.
      * apply Nat.ltb_lt in E2.
        replace (i <? nrows K0 + nrows b) with true
          by (symmetry; apply Nat.ltb_lt; lia).
        reflexivity.
      * apply Nat.ltb_ge in E2.
        replace (i <? nrows K0 + nrows b) with false
          by (symmetry; apply Nat.ltb_ge; lia).
        f_equal. lia.
Qed.

(** The entry at offset [j] inside the [b]-th block. *)
Lemma cat_cols_at (bs : list (matrix R)) (b : nat) (B : matrix R) (i j : nat) :
  nth_error bs b = Some B -> j < ncols B ->
  cat_cols bs i (list_sum (map ncols (firstn b bs)) + j) = entry B i j.
Proof.
  revert b. induction bs as [|B0 bs IH]; intros [|b] Hb Hj; simpl in *;
    try discriminate.
  - inversion Hb; subst.
    replace (j <? ncols B) with true by (symmetry; apply Nat.ltb_lt; lia).
    reflexivity.
  - replace (ncols B0 + list_sum (map ncols (firstn b bs)) + j <? ncols B0)
      with false by (symmetry; apply Nat.ltb_ge; lia).
    replace (ncols B0 + list_sum (map ncols (firstn b bs)) + j - ncols B0)
      with (list_sum (map ncols (firstn b bs)) + j) by lia.
    now apply IH.
Qed.

Lemma cat_rows_at (bs : list (matrix R)) (b : nat) (B : matrix R) (i j : nat) :
  nth_error bs b = Some B -> i < nrows B ->
  cat_rows bs (list_sum (map nrows (firstn b bs)) + i) j = entry B i j.
Proof.
  revert b. induction bs as [|B0 bs IH]; intros [|b] Hb Hi; simpl in *;
    try discriminate.
  - inversion Hb; subst.
    replace (i <? nrows B) with true by (symmetry; apply Nat.ltb_lt; lia).
    reflexivity.
  - replace (nrows B0 + list_sum (map nrows (firstn b bs)) + i <? nrows B0)
      with false by (symmetry; apply Nat.ltb_ge; lia).
    replace (nrows B0 + list_sum (map nrows (firstn b bs)) + i - nrows B0)
      with (list_sum (map nrows (firstn b bs)) + i) by lia.
    now apply IH.
Qed.

(** *** The grouped system in closed form *)

Lemma matmul_ok (A B : matrix R) :
  ncols A = nrows B -> matmul A B = Ok (mmul A B).
Proof. intro H. unfold matmul. now rewrite H, Nat.eqb_refl. Qed.

Lemma matvec_ok (A : matrix R) (v : vec R) :
  ncols A = length v -> matvec A v = Ok (mvmul A v).
Proof. intro H. unfold matvec. now rewrite H, Nat.eqb_refl. Qed.

Lemma hstack_ok (A B : matrix R) :
  nrows A = nrows B -> hstack A B = Ok (hcat A B).
Proof. intro H. unfold hstack. now rewrite H, Nat.eqb_refl. Qed.

Lemma vstack_ok (A B : matrix R) :
  ncols A = ncols B -> vstack A B = Ok (vcat A B).
Proof. intro H. unfold vstack. now rewrite H, Nat.eqb_refl. Qed.

Lemma row_block_shape (t : string) (G_t : matrix R) (l : R)
      (kb : string * matrix R) :
  nrows (row_block t G_t l kb) = ncols G_t /\
  ncols (row_block t G_t l kb) = ncols (snd kb).
Proof.
  unfold row_block. destruct (String.eqb (fst kb) t); split; reflexivity.
Qed.

Lemma group_row_ok (L : matrix R) (blocks : dict (matrix R)) (t : string)
      (G_t : matrix R) (l : R) :
  nrows G_t = nrows L ->
  (forall kb, In kb blocks -> nrows (snd kb) = nrows G_t) ->
  (forall kb, In kb blocks -> fst kb = t -> ncols (snd kb) = ncols G_t) ->
  group_row L blocks t G_t l (ncols G_t) = Ok (row_of L blocks t G_t l).
Proof.
  intros HL Hrows Hsame. unfold group_row, row_of.
  rewrite matmul_ok by exact HL. cbn [bind].
  rewrite fold_left_map.
  refine (proj1 (foldM_inv _ (fun row kb => hcat row (row_block t G_t l kb))
                           (fun row => nrows row = ncols G_t) _ _ _ _)).
  - reflexivity.
  - intros row kb Hin Hrow. unfold row_block.
    rewrite matmul_ok by (cbn [ncols transpose]; symmetry; now apply Hrows).
    destruct (String.eqb (fst kb) t) eqn:E; cbn [bind].
    + apply String.eqb_eq in E.
      rewrite madd_ok;
        [|reflexivity
         |cbn [ncols mmul scale eye]; now apply Hsame].
      cbn [bind]. rewrite hstack_ok by (rewrite Hrow; reflexivity).
      split; [reflexivity | exact Hrow].
    + rewrite hstack_ok by (rewrite Hrow; reflexivity).
      split; [reflexivity | exact Hrow].
Qed.

Lemma dict_collect_map {V W : Type} (f : V -> W) (d : dict V) :
  NoDup (keys d) ->
  dict_collect f d = map (fun kv => (fst kv, f (snd kv))) d.
Proof.
  intro Hnd. unfold dict_collect.
  transitivity (dict_update [] (map (fun kv => (fst kv, f (snd kv))) d)).
  - unfold dict_update. now rewrite fold_left_map.
  - apply dict_update_fresh. simpl. unfold keys. rewrite map_map. exact Hnd.
Qed.

Lemma dict_find_map {V W : Type} (f : V -> W) (d : dict V) (k : string) :
  dict_find (map (fun kv => (fst kv, f (snd kv))) d) k
  = option_map f (dict_find d k).
Proof.
  induction d as [|[k' v'] d IH]; simpl; [reflexivity|].
  destruct (String.eqb k' k); [reflexivity | exact IH].
Qed.

Lemma dict_get_collect {V W : Type} (f : V -> W) (d : dict V) (k : string)
      (v : V) :
  NoDup (keys d) -> dict_find d k = Some v ->
  dict_get (dict_collect f d) k = Ok (f v).
Proof.
  intros Hnd Hk. unfold dict_get.
  now rewrite dict_collect_map, dict_find_map, Hk.
Qed.

Lemma dict_find_keys {V : Type} (d : dict V) (k : string) :
  In k (keys d) -> exists v, dict_find d k = Some v.
Proof.
  induction d as [|[k' v'] d IH]; simpl; intro H; [tauto|].
  destruct (String.eqb k' k) eqn:E.
  - now exists v'.
  - apply IH. destruct H as [H|H]; [|exact H].
    apply String.eqb_neq in E. contradiction.
Qed.

Lemma fold_left_pair {A B C : Type} (f : A -> C -> A) (g : B -> C -> B)
      (l : list C) (a : A) (b : B) :
  fold_left (fun ab c => (f (fst ab) c, g (snd ab) c)) l (a, b)
  = (fold_left f l a, fold_left g l b).
Proof.
  revert a b. induction l as [|c l IH]; intros a b; simpl; [reflexivity|].
  apply IH.
Qed.

Lemma G_at_In (G : dict (matrix R)) (t : string) (G_t : matrix R) :
  NoDup (keys G) -> In (t, G_t) G -> G_at G t = G_t.
Proof. intros Hnd Hin. unfold G_at. now rewrite (dict_find_In G t G_t Hnd Hin). Qed.

Lemma blocks_of_keys (L : matrix R) (G : dict (matrix R)) :
  keys (blocks_of L G) = keys G.
Proof. unfold blocks_of, keys. rewrite map_map. reflexivity. Qed.

Lemma blocks_of_width (L : matrix R) (G : dict (matrix R)) :
  map ncols (map snd (blocks_of L G)) = map (fun kv => ncols (snd kv)) G.
Proof. unfold blocks_of. rewrite !map_map. reflexivity. Qed.

Lemma laplacian_of_shape (A : matrix R) :
  ncols A = nrows A ->
  nrows (laplacian_of A) = nrows A /\ ncols (laplacian_of A) = nrows A.
Proof.
  intro Hsq. unfold laplacian_of. cbn [nrows ncols mminus diag].
  now rewrite (degrees_sum_length radd A Hsq).
Qed.

(** The first row of blocks: every block is looked up and appended. *)
Lemma hstack_lookup_all (blocks : dict (matrix R)) (K0 : matrix R) :
  NoDup (keys blocks) ->
  (forall kb, In kb blocks -> nrows (snd kb) = nrows K0) ->
  foldM (fun K t => block <- dict_get blocks t ;; hstack K block)
        (keys blocks) K0
  = Ok (fold_left hcat (map snd blocks) K0).
Proof.
  intros Hnd Hrows.
  assert (Hgen : forall l K,
             (forall kb, In kb l -> In kb blocks) -> nrows K = nrows K0 ->
             foldM (fun K t => block <- dict_get blocks t ;; hstack K block)
                   (keys l) K
             = Ok (fold_left hcat (map snd l) K)).
  { induction l as [|[k b] l IH]; intros K Hsub HK; simpl; [reflexivity|].
    unfold dict_get at 1.
    rewrite (dict_find_In blocks k b Hnd (Hsub _ (or_introl eq_refl))).
    cbn [bind]. rewrite hstack_ok.
    - cbn [bind]. apply IH.
      + intros kb Hin. apply Hsub. now right.
      + exact HK.
    - rewrite HK. symmetry.
      apply (Hrows (k, b)). apply Hsub. now left. }
  apply Hgen; auto.
Qed.

Lemma SpringRank_groups_system_closed (A : matrix R) (G : dict (matrix R))
      (reg_coeff : dict R) (lambda_0 : R) :
  ncols A = nrows A ->
  NoDup (keys G) ->
  (forall kv, In kv G -> nrows (snd kv) = nrows A) ->
  dict_find reg_coeff individual = Some lambda_0 ->
  (forall kl, In kl reg_coeff -> fst kl <> individual ->
              In (fst kl) (keys G)) ->
  SpringRank_groups_system A G reg_coeff
  = Ok (groups_operator A G reg_coeff lambda_0, groups_rhs A G reg_coeff).
Proof.
  intros Hsq HndG Hrows Hind Hkeys.
  destruct (laplacian_of_shape A Hsq) as [HLr HLc].
  cbv beta zeta delta [SpringRank_groups_system].
  replace (nrows A =? ncols A) with true by (symmetry; apply Nat.eqb_eq; lia).
  cbn [assert bind].
  rewrite vadd_ok by (now rewrite row_sums_length, col_sums_length).
  cbn [bind].
  rewrite madd_ok by (cbn [nrows ncols transpose]; lia).
  cbn [bind].
  rewrite msub_ok
    by (cbn [nrows ncols diag mplus];
        rewrite ?(degrees_sum_length radd A Hsq); lia).
  cbn [bind]. fold (laplacian_of A).
  set (L := laplacian_of A) in *.
  (* the blocks L @ G_i *)
  assert (Hblocks :
            foldM (fun blocks kv =>
                     LG <- matmul L (snd kv) ;;
                     Ok (dict_set blocks (fst kv) LG)) G []
            = Ok (blocks_of L G)).
  { destruct (foldM_inv
                (fun blocks kv =>
                   LG <- matmul L (snd kv) ;;
                   Ok (dict_set blocks (fst kv) LG))
                (fun blocks kv => dict_set blocks (fst kv) (mmul L (snd kv)))
                (fun _ => True) G [] I) as [H _].
    - intros blocks kv Hin _.
      rewrite matmul_ok by (rewrite HLc; symmetry; now apply Hrows).
      now split.
    - rewrite H. f_equal. exact (dict_collect_map (mmul L) G HndG). }
  rewrite Hblocks. cbn [bind].
  unfold dict_get at 1. rewrite Hind. cbn [bind].
  rewrite madd_ok by (cbn [nrows ncols scale eye]; lia).
  cbn [bind].
  (* the first row of blocks *)
  rewrite <- (blocks_of_keys L G) at 1.
  rewrite hstack_lookup_all;
    [|now rewrite blocks_of_keys
     |intros kb Hin; unfold blocks_of in Hin; apply in_map_iff in Hin;
      destruct Hin as (kv & <- & _); reflexivity].
  cbn [bind].
  rewrite vsub_ok by (now rewrite row_sums_length, col_sums_length).
  cbn [bind].
  set (K0 := fold_left hcat (map snd (blocks_of L G))
                       (mplus L (scale lambda_0 (eye (nrows A))))).
  set (k_diff := vzip rsub (row_sums A) (col_sums A)).
  assert (Hkd : length k_diff = nrows A).
  { unfold k_diff. apply (degrees_sum_length rsub A Hsq). }
  (* the rows of the group types *)
  rewrite (foldM_skip _ nonind).
  2:{ intros Kd kl Hk. unfold nonind in Hk.
      apply negb_false_iff in Hk. now rewrite Hk. }
  set (width := nrows A + list_sum (map (fun kv => ncols (snd kv)) G)).
  destruct (foldM_inv
              (fun Kd kl =>
                 if String.eqb (fst kl) individual then Ok Kd
                 else
                   G_i_sparse <- dict_get (dict_collect (fun G_i => G_i) G)
                                          (fst kl) ;;
                   G_i <- dict_get G (fst kl) ;;
                   n_i <- dict_get (dict_collect ncols G) (fst kl) ;;
                   current_row <- group_row L (blocks_of L G) (fst kl)
                                            G_i_sparse (snd kl) n_i ;;
                   K <- vstack (fst Kd) current_row ;;
                   d_i <- matvec (transpose G_i) k_diff ;;
                   Ok (K, snd Kd ++ d_i))
              (fun Kd kl =>
                 (vcat (fst Kd)
                       (row_of L (blocks_of L G) (fst kl)
                               (G_at G (fst kl)) (snd kl)),
                  snd Kd ++ mvmul (transpose (G_at G (fst kl))) k_diff))
              (fun Kd => ncols (fst Kd) = width)
              (filter nonind reg_coeff) (K0, k_diff)) as [H _].
  - cbn [fst]. unfold K0.
    destruct (hcat_all_shape (map snd (blocks_of L G))
                (mplus L (scale lambda_0 (eye (nrows A))))) as [_ ->].
    cbn [ncols mplus]. now rewrite HLc, blocks_of_width.
  - intros Kd kl Hin HKd. apply filter_In in Hin. destruct Hin as [Hin Hni].
    unfold nonind in Hni. apply negb_true_iff in Hni. rewrite Hni.
    assert (Hne : fst kl <> individual) by now apply String.eqb_neq.
    destruct (dict_find_keys G (fst kl) (Hkeys kl Hin Hne)) as [G_t HGt].
    pose proof (dict_find_Some_In G (fst kl) G_t HGt) as HInG.
    assert (HGat : G_at G (fst kl) = G_t) by (unfold G_at; now rewrite HGt).
    rewrite HGat.
    rewrite (dict_get_collect (fun G_i => G_i) G (fst kl) G_t HndG HGt).
    cbn [bind]. unfold dict_get at 1. rewrite HGt. cbn [bind].
    rewrite (dict_get_collect ncols G (fst kl) G_t HndG HGt). cbn [bind].
    pose proof (Hrows _ HInG) as HGr. cbn [snd] in HGr.
    rewrite group_row_ok.
    + cbn [bind]. rewrite vstack_ok.
      * cbn [bind]. rewrite matvec_ok by (cbn [ncols transpose]; lia).
        cbn [bind fst snd]. split; [reflexivity|].
        cbn [ncols vcat]. exact HKd.
      * rewrite HKd. unfold row_of.
        destruct (hcat_all_shape
                    (map (row_block (fst kl) G_t (snd kl)) (blocks_of L G))
                    (mmul (transpose G_t) L)) as [_ ->].
        cbn [ncols mmul]. rewrite HLc. unfold width. f_equal. f_equal.
        unfold blocks_of. rewrite !map_map. apply map_ext. intro kv.
        symmetry.
        exact (proj2 (row_block_shape (fst kl) G_t (snd kl)
                                      (fst kv, mmul L (snd kv)))).
    + now rewrite HLr.
    + intros kb Hinb. unfold blocks_of in Hinb. apply in_map_iff in Hinb.
      destruct Hinb as (kv & <- & _). cbn [snd nrows mmul]. now rewrite HLr.
    + intros kb Hinb Hfst. unfold blocks_of in Hinb.
      apply in_map_iff in Hinb. destruct Hinb as ([s G_s] & <- & HinG).
      cbn [fst snd] in *. subst s. cbn [ncols mmul].
      pose proof (dict_find_In G (fst kl) G_s HndG HinG) as HGs.
      rewrite HGt in HGs. now inversion HGs.
  - rewrite H. f_equal.
    rewrite (fold_left_pair
               (fun K kl => vcat K (row_of L (blocks_of L G) (fst kl)
                                           (G_at G (fst kl)) (snd kl)))
               (fun d kl => d ++ mvmul (transpose (G_at G (fst kl))) k_diff)).
    unfold groups_operator, groups_rhs.
    cbv zeta. fold L. fold K0. fold k_diff.
    now rewrite fold_left_map.
Qed.

(** *** Finite sums *)

Lemma sumn_ext (n : nat) (f g : nat -> R) :
  (forall k, k < n -> f k = g k) -> sumn n f = sumn n g.
Proof.
  induction n as [|n IH]; intro H; simpl; [reflexivity|].
  rewrite IH by (intros k Hk; apply H; lia).
  now rewrite (H n) by lia.
Qed.

Lemma sumn_zero (n : nat) : sumn n (fun _ => rO) = rO.
Proof. induction n as [|n IH]; simpl; [reflexivity|]. rewrite IH. ring. Qed.

Lemma sumn_add (n : nat) (f g : nat -> R) :
  sumn n (fun k => f k [+] g k) = sumn n f [+] sumn n g.
Proof. induction n as [|n IH]; simpl; [ring|]. rewrite IH. ring. Qed.

Lemma sumn_mul_l (n : nat) (c : R) (f : nat -> R) :
  sumn n (fun k => c [*] f k) = c [*] sumn n f.
Proof. induction n as [|n IH]; simpl; [ring|]. rewrite IH. ring. Qed.

Lemma sumn_swap (n m : nat) (f : nat -> nat -> R) :
  sumn n (fun k => sumn m (fun l => f k l))
  = sumn m (fun l => sumn n (fun k => f k l)).
Proof.
  induction n as [|n IH]; simpl.
  - now rewrite sumn_zero.
  - now rewrite IH, sumn_add.
Qed.

(** The Laplacian is symmetric, whatever [A] is. *)
Lemma laplacian_of_sym (A : matrix R) (i j : nat) :
  entry (laplacian_of A) i j = entry (laplacian_of A) j i.
Proof.
  unfold laplacian_of. cbn [entry mminus mplus diag transpose].
  destruct (Nat.eq_dec i j) as [-> | Hne]; [reflexivity|].
  replace (i =? j) with false by (symmetry; now apply Nat.eqb_neq).
  replace (j =? i) with false by (symmetry; apply Nat.eqb_neq; auto).
  ring.
Qed.

Lemma laplacian_of_entry (A : matrix R) (i j : nat) :
  ncols A = nrows A -> i < nrows A ->
  entry (laplacian_of A) i j = entry (laplacian A) i j.
Proof.
  intros Hsq Hi. unfold laplacian_of, laplacian.
  cbn [entry mminus mplus diag transpose].
  rewrite (degrees_zip radd A Hsq).
  destruct (i =? j); [rewrite vnth_map_seq by exact Hi|]; ring.
Qed.

(** [(L @ G)^T = G^T @ L] and [(G_a^T @ L @ G_b)^T = G_b^T @ L @ G_a] for a
    symmetric [L], entry by entry. *)
Lemma mmul_sym_left (L G : matrix R) (i j : nat) :
  (forall p q, entry L p q = entry L q p) ->
  ncols L = nrows G ->
  entry (mmul L G) i j = entry (mmul (transpose G) L) j i.
Proof.
  intros Hsym Hshape. cbn [entry mmul transpose ncols]. rewrite Hshape.
  apply sumn_ext. intros k _. rewrite (Hsym i k). ring.
Qed.

Lemma mmul_sym_sandwich (L Ga Gb : matrix R) (i j : nat) :
  (forall p q, entry L p q = entry L q p) ->
  nrows Ga = nrows L -> nrows Gb = nrows L -> ncols L = nrows L ->
  entry (mmul (transpose Ga) (mmul L Gb)) i j
  = entry (mmul (transpose Gb) (mmul L Ga)) j i.
Proof.
  intros Hsym Ha Hb Hsq. cbn [entry mmul transpose ncols nrows].
  rewrite Ha, Hb, Hsq.
  transitivity
    (sumn (nrows L)
          (fun k => sumn (nrows L)
                      (fun l => entry Ga k i [*] (entry L k l [*] entry Gb l j)))).
  { apply sumn_ext. intros k _. now rewrite sumn_mul_l. }
  rewrite sumn_swap. apply sumn_ext. intros l _.
  rewrite <- sumn_mul_l. apply sumn_ext. intros k _.
  rewrite (Hsym l k). ring.
Qed.

(** *** The blocks of the grouped operator *)

Section GroupedOperator.

Variables (A : matrix R) (G : dict (matrix R)) (reg_coeff : dict R) (lambda_0 : R).

Hypothesis Hsq : ncols A = nrows A.

Hypothesis HndG : NoDup (keys G).

Hypothesis HndR : NoDup (keys reg_coeff).

Hypothesis Hrows : forall kv, In kv G -> nrows (snd kv) = nrows A.

Hypothesis Horder : keys (filter nonind reg_coeff) = keys G.

Let N := nrows A.

Let L := laplacian_of A.

Let blocks := blocks_of L G.

Let K0 := fold_left hcat (map snd blocks) (mplus L (scale lambda_0 (eye N))).

Let rows :=
  map (fun kl => row_of L blocks (fst kl) (G_at G (fst kl)) (snd kl))
      (filter nonind reg_coeff).

Let K := groups_operator A G reg_coeff lambda_0.

Lemma grouped_K_unfold : K = fold_left vcat rows K0.
Proof. reflexivity. Qed.

Lemma row_of_shape (t : string) (G_t : matrix R) (l : R) :
  nrows (row_of L blocks t G_t l) = ncols G_t /\
  ncols (row_of L blocks t G_t l) = system_size N G.
Proof.
  unfold row_of.
  destruct (hcat_all_shape (map (row_block t G_t l) blocks)
                           (mmul (transpose G_t) L)) as [-> ->].
  cbn [nrows ncols mmul transpose]. split; [reflexivity|].
  unfold system_size, group_sizes, L.
  rewrite (proj2 (laplacian_of_shape A Hsq)). fold N. f_equal. f_equal.
  unfold blocks, blocks_of. rewrite !map_map. apply map_ext. intro kv.
  exact (proj2 (row_block_shape t G_t l (fst kv, mmul (laplacian_of A) (snd kv)))).
Qed.

Lemma G_at_key (kv : string * matrix R) : In kv G -> G_at G (fst kv) = snd kv.
Proof. destruct kv as [t G_t]. intro H. now apply G_at_In. Qed.

Lemma rows_heights : map nrows rows = group_sizes G.
Proof.
  unfold rows. rewrite map_map.
  transitivity (map (fun t => ncols (G_at G t))
                    (keys (filter nonind reg_coeff))).
  - unfold keys. rewrite map_map. apply map_ext. intro kl.
    apply row_of_shape.
  - rewrite Horder. unfold keys, group_sizes. rewrite map_map.
    apply map_ext_in. intros kv Hin. now rewrite G_at_key.
Qed.

Lemma K0_shape : nrows K0 = N /\ ncols K0 = system_size N G.
Proof.
  unfold K0.
  destruct (hcat_all_shape (map snd blocks)
                           (mplus L (scale lambda_0 (eye N)))) as [-> ->].
  cbn [nrows ncols mplus]. unfold L.
  destruct (laplacian_of_shape A Hsq) as [-> ->]. split; [reflexivity|].
  unfold system_size. f_equal. f_equal. apply blocks_of_width.
Qed.

Lemma grouped_K_shape :
  nrows K = system_size N G /\ ncols K = system_size N G.
Proof.
  rewrite grouped_K_unfold.
  destruct (vcat_all_shape rows K0) as [-> ->].
  destruct K0_shape as [-> ->]. now rewrite rows_heights.
Qed.

(** The row of the [a]-th group type. *)
Lemma rows_nth (a : nat) (t : string) (G_t : matrix R) (lambda_t : R) :
  nth_error G a = Some (t, G_t) ->
  dict_find reg_coeff t = Some lambda_t ->
  nth_error rows a = Some (row_of L blocks t G_t lambda_t).
Proof.
  intros Ha Hl.
  assert (Hk : nth_error (keys (filter nonind reg_coeff)) a = Some t).
  { rewrite Horder. unfold keys. now rewrite nth_error_map, Ha. }
  unfold keys in Hk. rewrite nth_error_map in Hk.
  destruct (nth_error (filter nonind reg_coeff) a) as [[t' l']|] eqn:Hkl;
    [|discriminate].
  cbn in Hk. inversion Hk; subst t'.
  assert (Hin : In (t, l') reg_coeff).
  { apply nth_error_In in Hkl. apply filter_In in Hkl. tauto. }
  rewrite (dict_find_In reg_coeff t l' HndR Hin) in Hl.
  inversion Hl; subst l'.
  unfold rows. rewrite nth_error_map, Hkl. cbn [option_map fst snd].
  rewrite (G_at_In G t G_t HndG (nth_error_In _ _ Ha)). reflexivity.
Qed.

Lemma offset_in_range (ms : list nat) (b m j : nat) :
  nth_error ms b = Some m -> j < m ->
  list_sum (firstn b ms) + j < list_sum ms.
Proof.
  revert b. induction ms as [|m0 ms IH]; intros [|b] Hb Hj; simpl in *;
    try discriminate.
  - inversion Hb; subst. lia.
  - specialize (IH b Hb Hj). lia.
Qed.

Lemma group_sizes_nth (b : nat) (t : string) (G_b : matrix R) :
  nth_error G b = Some (t, G_b) ->
  nth_error (group_sizes G) b = Some (ncols G_b).
Proof. intro H. unfold group_sizes. now rewrite nth_error_map, H. Qed.

Lemma blocks_widths_firstn (b : nat) :
  list_sum (map ncols (firstn b (map snd blocks)))
  = list_sum (firstn b (group_sizes G)).
Proof.
  rewrite <- firstn_map. unfold blocks. now rewrite blocks_of_width.
Qed.

(** Row block 0, column block 0. *)
Lemma grouped_K_entry_00 (i j : nat) :
  i < N -> j < N ->
  entry K i j
  = entry L i j [+] lambda_0 [*] (if i =? j then rI else rO).
Proof.
  intros Hi Hj. rewrite grouped_K_unfold.
  destruct K0_shape as [HK0r HK0c].
  rewrite vcat_all_entry by (rewrite HK0r; lia).
  rewrite HK0r.
  replace (i <? N) with true by (symmetry; apply Nat.ltb_lt; lia).
  unfold K0. rewrite hcat_all_entry;
    cbn [ncols mplus]; unfold L;
    rewrite (proj2 (laplacian_of_shape A Hsq)); fold N; [|lia].
  replace (j <? N) with true by (symmetry; apply Nat.ltb_lt; lia).
  reflexivity.
Qed.

(** Row block 0, the column block of the [b]-th group type. *)
Lemma grouped_K_entry_0b (b : nat) (t : string) (G_b : matrix R) (i j : nat) :
  nth_error G b = Some (t, G_b) ->
  i < N -> j < ncols G_b ->
  entry K i (group_offset N G b + j) = entry (mmul L G_b) i j.
Proof.
  intros Hb Hi Hj. rewrite grouped_K_unfold.
  destruct K0_shape as [HK0r HK0c].
  rewrite vcat_all_entry by (rewrite HK0r; lia).
  rewrite HK0r.
  replace (i <? N) with true by (symmetry; apply Nat.ltb_lt; lia).
  pose proof (offset_in_range (group_sizes G) b (ncols G_b) j
                               (group_sizes_nth b _ G_b Hb) Hj)
    as Hrange.
  unfold K0, group_offset. rewrite hcat_all_entry;
    cbn [ncols mplus]; unfold L;
    rewrite (proj2 (laplacian_of_shape A Hsq)); fold N; fold L;
    [|unfold blocks; rewrite blocks_of_width; fold (group_sizes G); lia].
  replace (N + list_sum (firstn b (group_sizes G)) + j <? N) with false
    by (symmetry; apply Nat.ltb_ge; lia).
  replace (N + list_sum (firstn b (group_sizes G)) + j - N)
    with (list_sum (firstn b (group_sizes G)) + j) by lia.
  rewrite <- blocks_widths_firstn.
  apply cat_cols_at; [|exact Hj].
  unfold blocks, blocks_of. rewrite !nth_error_map, Hb. reflexivity.
Qed.

(** The rows of the [a]-th group type are the rows of its row block. *)
Lemma grouped_K_row (a : nat) (t : string) (G_a : matrix R) (lambda_a : R)
      (i j : nat) :
  nth_error G a = Some (t, G_a) ->
  dict_find reg_coeff t = Some lambda_a ->
  i < ncols G_a ->
  entry K (group_offset N G a + i) j
  = entry (row_of L blocks t G_a lambda_a) i j.
Proof.
  intros Ha Hl Hi. rewrite grouped_K_unfold.
  destruct K0_shape as [HK0r HK0c].
  pose proof (offset_in_range (group_sizes G) a (ncols G_a) i
                               (group_sizes_nth a t G_a Ha) Hi)
    as Hrange.
  unfold group_offset.
  rewrite vcat_all_entry by (rewrite HK0r, rows_heights; lia).
  rewrite HK0r.
  replace (N + list_sum (firstn a (group_sizes G)) + i <? N) with false
    by (symmetry; apply Nat.ltb_ge; lia).
  replace (N + list_sum (firstn a (group_sizes G)) + i - N)
    with (list_sum (firstn a (group_sizes G)) + i) by lia.
  rewrite <- rows_heights, firstn_map.
  apply cat_rows_at.
  - now apply rows_nth.
  - now rewrite (proj1 (row_of_shape t G_a lambda_a)).
Qed.

Lemma row_of_entry_0 (t : string) (G_a : matrix R) (l : R) (i j : nat) :
  j < N ->
  entry (row_of L blocks t G_a l) i j = entry (mmul (transpose G_a) L) i j.
Proof.
  intro Hj. unfold row_of.
  rewrite hcat_all_entry;
    cbn [ncols mmul]; unfold L;
    rewrite (proj2 (laplacian_of_shape A Hsq)); fold N; fold L; [|lia].
  replace (j <? N) with true by (symmetry; apply Nat.ltb_lt; lia).
  reflexivity.
Qed.

Lemma row_of_entry_b (t : string) (G_a : matrix R) (l : R) (b : nat)
      (s : string) (G_b : matrix R) (i j : nat) :
  nth_error G b = Some (s, G_b) -> j < ncols G_b ->
  entry (row_of L blocks t G_a l) i (group_offset N G b + j)
  = entry (row_block t G_a l (s, mmul L G_b)) i j.
Proof.
  intros Hb Hj.
  pose proof (offset_in_range (group_sizes G) b (ncols G_b) j
                               (group_sizes_nth b _ G_b Hb) Hj)
    as Hrange.
  assert (Hw : map ncols (map (row_block t G_a l) blocks) = group_sizes G).
  { unfold blocks, blocks_of, group_sizes. rewrite !map_map.
    apply map_ext. intro kv.
    exact (proj2 (row_block_shape t G_a l (fst kv, mmul L (snd kv)))). }
  unfold row_of, group_offset.
  rewrite hcat_all_entry;
    cbn [ncols mmul]; unfold L;
    rewrite (proj2 (laplacian_of_shape A Hsq)); fold N; fold L;
    [|rewrite Hw; lia].
  replace (N + list_sum (firstn b (group_sizes G)) + j <? N) with false
    by (symmetry; apply Nat.ltb_ge; lia).
  replace (N + list_sum (firstn b (group_sizes G)) + j - N)
    with (list_sum (firstn b (group_sizes G)) + j) by lia.
  rewrite <- Hw, firstn_map.
  apply cat_cols_at.
  - unfold blocks, blocks_of. rewrite !nth_error_map, Hb. reflexivity.
  - now rewrite (proj2 (row_block_shape t G_a l (s, mmul L G_b))).
Qed.

End GroupedOperator.

(** Every index of the grouped system lies in the individual block or in
    the block of one group type. *)
Lemma grouped_index_cases (A : matrix R) (G : dict (matrix R)) (reg_coeff : dict R)
      (i : nat) :
  keys (filter nonind reg_coeff) = keys G ->
  i < system_size (nrows A) G ->
  i < nrows A \/
  exists a t G_a lambda_a i',
    nth_error G a = Some (t, G_a) /\
    dict_find reg_coeff t = Some lambda_a /\
    i' < ncols G_a /\ i = group_offset (nrows A) G a + i'.
Proof.
  intros Horder Hi. unfold system_size in Hi.
  destruct (Nat.lt_ge_cases i (nrows A)) as [Hlt | Hge]; [now left | right].
  destruct (block_decompose (group_sizes G) (i - nrows A))
    as (a & m & i' & Ha & Hi' & Heq); [lia|].
  unfold group_sizes in Ha. rewrite nth_error_map in Ha.
  destruct (nth_error G a) as [[t G_a]|] eqn:HGa; [|discriminate].
  cbn in Ha. inversion Ha; subst m.
  assert (Hin : In t (keys (filter nonind reg_coeff))).
  { rewrite Horder. unfold keys. apply in_map_iff.
    exists (t, G_a). split; [reflexivity|]. eapply nth_error_In; eauto. }
  destruct (dict_find_keys _ _ Hin) as [l Hl].
  apply dict_find_Some_In in Hl. apply filter_In in Hl.
  destruct Hl as [Hl _].
  destruct (dict_find_keys reg_coeff t) as [l' Hl'].
  { unfold keys. apply in_map_iff. now exists (t, l). }
  exists a, t, G_a, l', i'. repeat split; auto.
  unfold group_offset. lia.
Qed.

Lemma row_block_sym (L : matrix R) (ta tb : string) (Ga Gb : matrix R)
      (la lb : R) (i j : nat) :
  (forall p q, entry L p q = entry L q p) ->
  nrows Ga = nrows L -> nrows Gb = nrows L -> ncols L = nrows L ->
  (ta = tb -> Ga = Gb /\ la = lb) ->
  entry (row_block ta Ga la (tb, mmul L Gb)) i j
  = entry (row_block tb Gb lb (ta, mmul L Ga)) j i.
Proof.
  intros Hsym Ha Hb Hsq Hsame. unfold row_block. cbn [fst snd].
  rewrite (String.eqb_sym tb ta).
  destruct (String.eqb ta tb) eqn:E.
  - apply String.eqb_eq in E. destruct (Hsame E) as [-> ->].
    cbn [entry mplus scale eye].
    rewrite (mmul_sym_sandwich L Gb Gb i j Hsym Hb Hb Hsq).
    now rewrite (Nat.eqb_sym i j).
  - apply mmul_sym_sandwich; assumption.
Qed.

Lemma groups_operator_sym (A : matrix R) (G : dict (matrix R)) (reg_coeff : dict R)
      (lambda_0 : R) (i j : nat) :
  ncols A = nrows A ->
  NoDup (keys G) -> NoDup (keys reg_coeff) ->
  (forall kv, In kv G -> nrows (snd kv) = nrows A) ->
  keys (filter nonind reg_coeff) = keys G ->
  i < system_size (nrows A) G -> j < system_size (nrows A) G ->
  entry (groups_operator A G reg_coeff lambda_0) i j
  = entry (groups_operator A G reg_coeff lambda_0) j i.
Proof.
  intros Hsq HndG HndR Hrows Horder Hi Hj.
  destruct (laplacian_of_shape A Hsq) as [HLr HLc].
  pose proof (laplacian_of_sym A) as Hsym.
  assert (Hshape : forall a t G_a, nth_error G a = Some (t, G_a) ->
                                   nrows G_a = nrows (laplacian_of A)).
  { intros a t G_a Ha. rewrite HLr.
    exact (Hrows (t, G_a) (nth_error_In _ _ Ha)). }
  destruct (grouped_index_cases A G reg_coeff i Horder Hi)
    as [Hi0 | (a & ta & Ga & la & i' & Ha & Hla & Hi' & ->)];
    destruct (grouped_index_cases A G reg_coeff j Horder Hj)
    as [Hj0 | (b & tb & Gb & lb & j' & Hb & Hlb & Hj' & ->)].
  - rewrite !grouped_K_entry_00 by assumption.
    now rewrite (Hsym i j), (Nat.eqb_sym i j).
  - rewrite (grouped_K_entry_0b A G reg_coeff lambda_0 Hsq b tb Gb i j'
                                Hb Hi0 Hj').
    rewrite (grouped_K_row A G reg_coeff lambda_0 Hsq HndG HndR Horder
                           b tb Gb lb j' i Hb Hlb Hj').
    rewrite (row_of_entry_0 A G Hsq) by exact Hi0.
    apply mmul_sym_left; [exact Hsym|].
    rewrite HLc, <- HLr. symmetry. eapply Hshape; eauto.
  - rewrite (grouped_K_entry_0b A G reg_coeff lambda_0 Hsq a ta Ga j i'
                                Ha Hj0 Hi').
    rewrite (grouped_K_row A G reg_coeff lambda_0 Hsq HndG HndR Horder
                           a ta Ga la i' j Ha Hla Hi').
    rewrite (row_of_entry_0 A G Hsq) by exact Hj0.
    symmetry. apply mmul_sym_left; [exact Hsym|].
    rewrite HLc, <- HLr. symmetry. eapply Hshape; eauto.
  - rewrite (grouped_K_row A G reg_coeff lambda_0 Hsq HndG HndR Horder
                           a ta Ga la i' _ Ha Hla Hi').
    rewrite (grouped_K_row A G reg_coeff lambda_0 Hsq HndG HndR Horder
                           b tb Gb lb j' _ Hb Hlb Hj').
    rewrite (row_of_entry_b A G Hsq ta Ga la b tb Gb i' j' Hb Hj').
    rewrite (row_of_entry_b A G Hsq tb Gb lb a ta Ga j' i' Ha Hi').
    apply row_block_sym.
    + exact Hsym.
    + eapply Hshape; eauto.
    + eapply Hshape; eauto.
    + now rewrite HLc, HLr.
    + intro Heq. subst tb.
      pose proof (dict_find_In G ta Ga HndG (nth_error_In _ _ Ha)) as H1.
      pose proof (dict_find_In G ta Gb HndG (nth_error_In _ _ Hb)) as H2.
      rewrite H1 in H2. rewrite Hla in Hlb.
      inversion H2; inversion Hlb; now split.
Qed.

Lemma nonind_keys_in_G (G : dict (matrix R)) (reg_coeff : dict R) :
  keys (filter nonind reg_coeff) = keys G ->
  forall kl, In kl reg_coeff -> fst kl <> individual -> In (fst kl) (keys G).
Proof.
  intros Horder kl Hin Hne. rewrite <- Horder. unfold keys.
  apply in_map. apply filter_In. split; [exact Hin|].
  unfold nonind. apply negb_true_iff. now apply String.eqb_neq.
Qed.

(** C5 (as the code has it): for a square [A], group matrices [G_t] with as
    many rows as [A], and a [reg_coeff] that holds ["individual"] and
    whose other keys are the keys of [G] in the same iteration order, the
    assembled operator [K] is a symmetric matrix of size [N + sum of M_t],
    with diagonal blocks [lambda_individual*I + L] and
    [G_t^T*L*G_t + lambda_t*I] and off-diagonal blocks [L*G_t] and
    [G_t^T*L]. *)
Theorem SpringRank_groups_operator_blocks (A : matrix R) (G : dict (matrix R))
        (reg_coeff : dict R) (lambda_0 : R) :
  ncols A = nrows A ->
  NoDup (keys G) ->
  NoDup (keys reg_coeff) ->
  (forall kv, In kv G -> nrows (snd kv) = nrows A) ->
  dict_find reg_coeff individual = Some lambda_0 ->
  keys (filter nonind reg_coeff) = keys G ->
  let N := nrows A in
  let L := laplacian A in
  exists (K : matrix R) (d_hat : vec R),
    SpringRank_groups_system A G reg_coeff = Ok (K, d_hat) /\
    nrows K = system_size N G /\ ncols K = system_size N G /\
    (forall i j, i < system_size N G -> j < system_size N G ->
       entry K i j = entry K j i) /\
    (forall i j, i < N -> j < N ->
       entry K i j = (if i =? j then lambda_0 else rO) [+] entry L i j) /\
    (forall a t G_t lambda_t,
       nth_error G a = Some (t, G_t) ->
       dict_find reg_coeff t = Some lambda_t ->
       let off := group_offset N G a in
       (forall i j, i < N -> j < ncols G_t ->
          entry K i (off + j)
          = sumn N (fun k => entry L i k [*] entry G_t k j)) /\
       (forall i j, i < ncols G_t -> j < N ->
          entry K (off + i) j
          = sumn N (fun k => entry G_t k i [*] entry L k j)) /\
       (forall i j, i < ncols G_t -> j < ncols G_t ->
          entry K (off + i) (off + j)
          = sumn N (fun k =>
                      entry G_t k i
                      [*] sumn N (fun l => entry L k l [*] entry G_t l j))
            [+] (if i =? j then lambda_t else rO))).
Proof.
  intros Hsq HndG HndR Hrows Hind Horder N L.
  destruct (laplacian_of_shape A Hsq) as [HLr HLc].
  exists (groups_operator A G reg_coeff lambda_0), (groups_rhs A G reg_coeff).
  split.
  { apply SpringRank_groups_system_closed; auto.
    now apply nonind_keys_in_G. }
  destruct (grouped_K_shape A G reg_coeff lambda_0 Hsq HndG Horder)
    as [HKr HKc].
  split; [exact HKr|]. split; [exact HKc|]. split.
  { intros i j Hi Hj. now apply groups_operator_sym. }
  split.
  { intros i j Hi Hj. rewrite grouped_K_entry_00 by assumption.
    rewrite (laplacian_of_entry A i j Hsq Hi). fold L.
    destruct (i =? j); ring. }
  intros a t G_t lambda_t Ha Hl off.
  pose proof (Hrows (t, G_t) (nth_error_In _ _ Ha)) as HGr. cbn [snd] in HGr.
  split; [|split].
  - intros i j Hi Hj. unfold off, N.
    rewrite (grouped_K_entry_0b A G reg_coeff lambda_0 Hsq a t G_t i j
                                Ha Hi Hj).
    cbn [entry mmul]. rewrite HLc. apply sumn_ext. intros k Hk.
    now rewrite (laplacian_of_entry A i k Hsq Hi).
  - intros i j Hi Hj. unfold off, N.
    rewrite (grouped_K_row A G reg_coeff lambda_0 Hsq HndG HndR Horder
                           a t G_t lambda_t i j Ha Hl Hi).
    rewrite (row_of_entry_0 A G Hsq) by exact Hj.
    cbn [entry mmul transpose ncols]. rewrite HGr. apply sumn_ext.
    intros k Hk. now rewrite (laplacian_of_entry A k j Hsq Hk).
  - intros i j Hi Hj. unfold off, N.
    rewrite (grouped_K_row A G reg_coeff lambda_0 Hsq HndG HndR Horder
                           a t G_t lambda_t i _ Ha Hl Hi).
    rewrite (row_of_entry_b A G Hsq t G_t lambda_t a t G_t i j Ha Hj).
    unfold row_block. cbn [fst snd]. rewrite String.eqb_refl.
    cbn [entry mplus mmul transpose scale eye ncols nrows].
    rewrite HGr, HLc.
    replace (sumn (nrows A)
               (fun k => entry G_t k i
                         [*] sumn (nrows A)
                               (fun k0 => entry (laplacian_of A) k k0
                                          [*] entry G_t k0 j)))
      with (sumn (nrows A)
               (fun k => entry G_t k i
                         [*] sumn (nrows A)
                               (fun l => entry L k l [*] entry G_t l j))).
    + destruct (i =? j); ring.
    + apply sumn_ext. intros k Hk. f_equal. apply sumn_ext. intros l _.
      now rewrite (laplacian_of_entry A k l Hsq Hk).
Qed.

Lemma groups_operator_shape (A : matrix R) (G : dict (matrix R))
      (reg_coeff : dict R) (lambda_0 : R) :
  ncols A = nrows A ->
  nrows (groups_operator A G reg_coeff lambda_0)
  = nrows A + list_sum (map (fun kl => ncols (G_at G (fst kl)))
                            (filter nonind reg_coeff)) /\
  ncols (groups_operator A G reg_coeff lambda_0) = system_size (nrows A) G.
Proof.
  intro Hsq. unfold groups_operator. cbv zeta.
  match goal with
  | |- nrows (fold_left vcat ?rows ?K0) = _ /\ _ =>
      destruct (vcat_all_shape rows K0) as [-> ->]
  end.
  destruct (K0_shape A G lambda_0 Hsq) as [-> ->].
  split; [|reflexivity]. f_equal. f_equal. rewrite map_map.
  apply map_ext. intro kl.
  exact (proj1 (row_of_shape A G Hsq (fst kl) (G_at G (fst kl)) (snd kl))).
Qed.

(** C4 (as the code has it): a [reg_coeff] without the key ["individual"]
    makes the call fail before any solver is reached, with the key error
    when the shapes agree.  A key of [G] that [reg_coeff] lacks is not
    checked for: when [reg_coeff] holds ["individual"] and its other keys
    are among those of [G], the system is assembled, with a row block for
    each key of [reg_coeff] only, and handed to the solver. *)
Theorem SpringRank_groups_reg_coeff_keys
        (bicgstab : matrix R -> vec R -> result (vec R * Z))
        (spsolve : matrix R -> vec R -> result (vec R))
        (lsqr : matrix R -> vec R -> result (vec R * Z))
        (A : matrix R) (G : dict (matrix R)) (reg_coeff : dict R)
        (solver : string) :
  (dict_find reg_coeff individual = None ->
   exists e,
     SpringRank_groups_system A G reg_coeff = Err e /\
     SpringRank_groups bicgstab spsolve lsqr A G reg_coeff solver = Err e /\
     (ncols A = nrows A ->
      (forall kv, In kv G -> nrows (snd kv) = nrows A) ->
      e = KeyError individual)) /\
  (forall lambda_0,
     dict_find reg_coeff individual = Some lambda_0 ->
     ncols A = nrows A ->
     NoDup (keys G) ->
     (forall kv, In kv G -> nrows (snd kv) = nrows A) ->
     (forall kl, In kl reg_coeff -> fst kl <> individual ->
                 In (fst kl) (keys G)) ->
     exists (K : matrix R) (d_hat : vec R),
       SpringRank_groups_system A G reg_coeff = Ok (K, d_hat) /\
       nrows K = nrows A
                 + list_sum (map (fun kl => ncols (G_at G (fst kl)))
                                 (filter nonind reg_coeff)) /\
       ncols K = system_size (nrows A) G /\
       SpringRank_groups bicgstab spsolve lsqr A G reg_coeff solver
       = (x <- solve bicgstab spsolve lsqr solver K d_hat ;;
          SpringRank_groups_scores (nrows A) G (dict_collect ncols G) x)).
Proof.
  split.
  - intro Hnone.
    assert (Hsys : exists e,
               SpringRank_groups_system A G reg_coeff = Err e /\
               (ncols A = nrows A ->
                (forall kv, In kv G -> nrows (snd kv) = nrows A) ->
                e = KeyError individual)).
    { cbv beta zeta delta [SpringRank_groups_system].
      destruct (nrows A =? ncols A) eqn:Esq; cbn [assert bind].
      2:{ eexists. split; [reflexivity|]. intros Hsq _.
          apply Nat.eqb_neq in Esq. lia. }
      destruct (vadd (row_sums A) (col_sums A)) as [kk|e] eqn:Ekk;
        cbn [bind].
      2:{ eexists. split; [reflexivity|]. intros Hsq _.
          rewrite vadd_ok in Ekk
            by now rewrite row_sums_length, col_sums_length.
          discriminate. }
      destruct (madd A (transpose A)) as [AAT|e] eqn:EA; cbn [bind].
      2:{ eexists. split; [reflexivity|]. intros Hsq _.
          rewrite madd_ok in EA by (cbn [nrows ncols transpose]; lia).
          discriminate. }
      destruct (msub (diag kk) AAT) as [L|e] eqn:EL; cbn [bind].
      2:{ eexists. split; [reflexivity|]. intros Hsq _.
          rewrite vadd_ok in Ekk
            by now rewrite row_sums_length, col_sums_length.
          rewrite madd_ok in EA by (cbn [nrows ncols transpose]; lia).
          inversion Ekk; inversion EA; subst.
          rewrite msub_ok in EL
            by (cbn [nrows ncols diag mplus];
                rewrite ?(degrees_sum_length radd A Hsq); lia).
          discriminate. }
      match goal with
      | |- exists e, bind ?blocks _ = Err e /\ _ =>
          destruct blocks as [bl|e] eqn:Ebl
      end; cbn [bind].
      2:{ eexists. split; [reflexivity|]. intros Hsq Hrows.
          rewrite vadd_ok in Ekk
            by now rewrite row_sums_length, col_sums_length.
          rewrite madd_ok in EA by (cbn [nrows ncols transpose]; lia).
          inversion Ekk; inversion EA; subst.
          rewrite msub_ok in EL
            by (cbn [nrows ncols diag mplus];
                rewrite ?(degrees_sum_length radd A Hsq); lia).
          inversion EL; subst.
          destruct (foldM_inv
                      (fun blocks kv =>
                         LG <- matmul (laplacian_of A) (snd kv) ;;
                         Ok (dict_set blocks (fst kv) LG))
                      (fun blocks kv =>
                         dict_set blocks (fst kv)
                                  (mmul (laplacian_of A) (snd kv)))
                      (fun _ => True) G [] I) as [H _].
          - intros blocks kv Hin _.
            rewrite matmul_ok;
              [now split
              |rewrite (proj2 (laplacian_of_shape A Hsq)); symmetry;
               now apply Hrows].
          - unfold laplacian_of in H. rewrite H in Ebl. discriminate. }
      unfold dict_get. rewrite Hnone. cbn [bind].
      eexists. split; [reflexivity|]. reflexivity. }
    destruct Hsys as (e & Hsys & He). exists e.
    split; [exact Hsys|]. split; [|exact He].
    unfold SpringRank_groups. now rewrite Hsys.
  - intros lambda_0 Hind Hsq HndG Hrows Hkeys.
    exists (groups_operator A G reg_coeff lambda_0), (groups_rhs A G reg_coeff).
    pose proof (SpringRank_groups_system_closed A G reg_coeff lambda_0
                  Hsq HndG Hrows Hind Hkeys) as Hsys.
    split; [exact Hsys|].
    destruct (groups_operator_shape A G reg_coeff lambda_0 Hsq) as [Hr Hc].
    split; [exact Hr|]. split; [exact Hc|].
    unfold SpringRank_groups. now rewrite Hsys.
Qed.

(** *** Ranks and scores *)

Lemma foldM_app {X Y : Type} (f : X -> Y -> result X) (l1 l2 : list Y)
      (a : X) :
  foldM f (l1 ++ l2) a = (a' <- foldM f l1 a ;; foldM f l2 a').
Proof.
  revert a. induction l1 as [|y l1 IH]; intro a; simpl; [reflexivity|].
  destruct (f a y); simpl; auto.
Qed.

Lemma foldM_ext_in {X Y : Type} (f g : X -> Y -> result X) (l : list Y)
      (a : X) :
  (forall a y, In y l -> f a y = g a y) -> foldM f l a = foldM g l a.
Proof.
  revert a. induction l as [|y l IH]; intros a H; simpl; [reflexivity|].
  rewrite (H a y (or_introl eq_refl)).
  destruct (g a y); simpl; [|reflexivity].
  apply IH. intros a' y' Hin. apply H. now right.
Qed.



(** *** The regularized system *)

Lemma reqb_false (x y : R) : x <> y -> reqb x y = false.
Proof.
  intro H. destruct (reqb x y) eqn:E; [|reflexivity].
  now apply reqb_spec in E.
Qed.

(** C1 (as the code has it): for a square [A] and [alpha <> 0], the
    regularized branch of [SpringRank] hands the solver the operator
    [alpha*I + L], with [L = diag(k_in + k_out) - A - A^T], and the
    right-hand side [alpha + (k_out - k_in)]: every entry of [k_out - k_in]
    is shifted by [alpha]. *)
Theorem SpringRank_regularized_rhs_shifted
        (bicgstab : matrix R -> vec R -> result (vec R * Z)) (A : matrix R) (alpha : R) :
  ncols A = nrows A ->
  alpha <> rO ->
  let N := nrows A in
  let B := map (fun i => alpha [+] (k_out_at A i [-] k_in_at A i))
               (seq 0 N) in
  exists operator : matrix R,
    SpringRank_regularized_system A alpha = Ok (operator, B) /\
    nrows operator = N /\ ncols operator = N /\
    (forall i j, i < N -> j < N ->
       entry operator i j
       = (if i =? j then alpha else rO) [+] entry (laplacian A) i j) /\
    SpringRank bicgstab A alpha
    = (out <- bicgstab operator B ;; Ok (fst out)).
Proof.
  intros Hsq Halpha N B.
  unfold SpringRank. rewrite (@reqb_false alpha rO Halpha).
  unfold SpringRank_regularized_system.
  rewrite madd_ok by (cbn [nrows ncols transpose]; lia).
  cbn [bind].
  rewrite vadd_ok by now rewrite row_sums_length, col_sums_length.
  cbn [bind].
  rewrite vsub_ok by now rewrite row_sums_length, col_sums_length.
  cbn [bind].
  rewrite madd_ok;
    cbn [nrows ncols diag scale eye mminus mplus];
    try (rewrite (degrees_sum_length radd A Hsq); lia).
  cbn [bind].
  rewrite msub_ok by (cbn [nrows ncols mplus scale eye transpose]; lia).
  cbn [bind].
  rewrite (degrees_zip rsub A Hsq), map_map. fold N. fold B.
  eexists. split; [reflexivity|]. cbn [nrows ncols entry fst snd mminus mplus scale eye].
  split; [reflexivity|]. split; [reflexivity|]. split; [|reflexivity].
  intros i j Hi Hj. unfold laplacian. cbn [entry diag eye scale transpose mminus mplus].
  rewrite (degrees_zip radd A Hsq). fold N.
  destruct (i =? j) eqn:E.
  - rewrite vnth_map_seq by exact Hi. ring.
  - ring.
Qed.

(** *** The convergence flag *)

Lemma same_iterate_bind {Y : Type}
      (b1 b2 : matrix R -> vec R -> result (vec R * Z)) (K : matrix R) (d : vec R)
      (k : vec R -> result Y) :
  same_iterate b1 b2 ->
  (out <- b1 K d ;; k (fst out)) = (out <- b2 K d ;; k (fst out)).
Proof.
  intro H. specialize (H K d).
  destruct (b1 K d) as [[x1 i1]|e1], (b2 K d) as [[x2 i2]|e2];
    cbn [bind fst] in *; try discriminate;
    inversion H; subst; reflexivity.
Qed.

(** C2 (as the code has it): every rank computation that calls [bicgstab]
    (the unconstrained mode, the regularized mode, the grouped mode with
    the iterative method) keeps the iterate and drops the convergence
    flag: two solver behaviours that differ only in the flag give the same
    result, so a solve that ran out of iterations returns what a converged
    solve with the same iterate returns. *)
Theorem bicgstab_info_discarded
        (b1 b2 : matrix R -> vec R -> result (vec R * Z))
        (spsolve : matrix R -> vec R -> result (vec R))
        (lsqr : matrix R -> vec R -> result (vec R * Z))
        (A : matrix R) (alpha : R) (G : dict (matrix R)) (reg_coeff : dict R)
        (solver : string) :
  same_iterate b1 b2 ->
  csr_SpringRank b1 A = csr_SpringRank b2 A /\
  SpringRank b1 A alpha = SpringRank b2 A alpha /\
  SpringRank_groups b1 spsolve lsqr A G reg_coeff solver
  = SpringRank_groups b2 spsolve lsqr A G reg_coeff solver.
Proof.
  intro Hsame.
  assert (Hcsr : csr_SpringRank b1 A = csr_SpringRank b2 A).
  { unfold csr_SpringRank.
    destruct (csr_SpringRank_system A) as [[operator b]|e]; cbn [bind];
      [|reflexivity].
    exact (same_iterate_bind b1 b2 operator b
                             (fun x => Ok (removelast x)) Hsame). }
  split; [exact Hcsr|]. split.
  - unfold SpringRank. destruct (reqb alpha rO); [exact Hcsr|].
    destruct (SpringRank_regularized_system A alpha) as [[A' B]|e];
      cbn [bind]; [|reflexivity].
    exact (Hsame A' B).
  - unfold SpringRank_groups.
    destruct (SpringRank_groups_system A G reg_coeff) as [Kd|e]; cbn [bind];
      [|reflexivity].
    assert (Hsolve : solve b1 spsolve lsqr solver (fst Kd) (snd Kd)
                     = solve b2 spsolve lsqr solver (fst Kd) (snd Kd)).
    { unfold solve.
      destruct (String.eqb solver "spsolve"); [reflexivity|].
      destruct (String.eqb solver "bicgstab"); [apply Hsame|].
      destruct (String.eqb solver "lsqr"); [reflexivity|].
      apply Hsame. }
    now rewrite Hsolve.
Qed.

(** *** Errors of the grouped mode *)

(** A loop raises [e] as soon as one element raises it whatever the
    accumulator, and no element raises anything else. *)
Lemma foldM_error {X Y : Type} (f : X -> Y -> result X) (e : exn)
      (l : list Y) (a : X) (b : Y) :
  In b l ->
  (forall a, f a b = Err e) ->
  (forall a b', In b' l -> f a b' = Err e \/ exists a', f a b' = Ok a') ->
  foldM f l a = Err e.
Proof.
  intros Hin Hb. revert a. induction l as [|b0 l IH]; intros a Hall.
  - contradiction.
  - cbn [foldM]. destruct (Hall a b0 (or_introl eq_refl)) as [He | [a' Ha']].
    + now rewrite He.
    + rewrite Ha'. cbn [bind]. destruct Hin as [-> | Hin].
      * rewrite Hb in Ha'. discriminate.
      * apply IH; [exact Hin|]. intros a0 b' Hb'. apply Hall. now right.
Qed.

Lemma dict_find_None {V : Type} (d : dict V) (k : string) :
  ~ In k (keys d) -> dict_find d k = None.
Proof.
  induction d as [|[k' v] d IH]; intro Hk; [reflexivity|].
  cbn [dict_find]. destruct (String.eqb k' k) eqn:E.
  - apply String.eqb_eq in E. exfalso. apply Hk. now left.
  - apply IH. intro H. apply Hk. now right.
Qed.

(** X1: [SpringRank_groups] on a matrix [A] that is not square raises
    [AssertionError], whatever the groups, the coefficients and the
    solver. *)
Theorem SpringRank_groups_rejects_nonsquare
        (bicgstab : matrix R -> vec R -> result (vec R * Z))
        (spsolve : matrix R -> vec R -> result (vec R))
        (lsqr : matrix R -> vec R -> result (vec R * Z))
        (A : matrix R) (G : dict (matrix R)) (reg_coeff : dict R)
        (solver : string) :
  ncols A <> nrows A ->
  SpringRank_groups bicgstab spsolve lsqr A G reg_coeff solver
  = Err AssertionError.
Proof.
  intro Hns. unfold SpringRank_groups, SpringRank_groups_system.
  replace (nrows A =? ncols A) with false
    by (symmetry; apply Nat.eqb_neq; lia).
  reflexivity.
Qed.

(** X2: on a square [A], a group matrix whose number of rows is not the
    number of nodes makes [SpringRank_groups] raise [ValueError] in the
    product [L @ G_i], before [reg_coeff] is read and before any solve. *)
Theorem SpringRank_groups_rejects_group_rows
        (bicgstab : matrix R -> vec R -> result (vec R * Z))
        (spsolve : matrix R -> vec R -> result (vec R))
        (lsqr : matrix R -> vec R -> result (vec R * Z))
        (A : matrix R) (G : dict (matrix R)) (reg_coeff : dict R)
        (solver : string) (kv : string * matrix R) :
  ncols A = nrows A ->
  In kv G ->
  nrows (snd kv) <> nrows A ->
  SpringRank_groups_system A G reg_coeff = Err ValueError /\
  SpringRank_groups bicgstab spsolve lsqr A G reg_coeff solver
  = Err ValueError.
Proof.
  intros Hsq Hin Hrows.
  assert (Hsys : SpringRank_groups_system A G reg_coeff = Err ValueError).
  { destruct (laplacian_of_shape A Hsq) as [HLr HLc].
    cbv beta zeta delta [SpringRank_groups_system].
    replace (nrows A =? ncols A) with true
      by (symmetry; apply Nat.eqb_eq; lia).
    cbn [assert bind].
    rewrite vadd_ok by (now rewrite row_sums_length, col_sums_length).
    cbn [bind].
    rewrite madd_ok by (cbn [nrows ncols transpose]; lia).
    cbn [bind].
    rewrite msub_ok
      by (cbn [nrows ncols diag mplus];
          rewrite ?(degrees_sum_length radd A Hsq); lia).
    cbn [bind]. fold (laplacian_of A).
    match goal with
    | |- context [foldM ?f G ?a] =>
        rewrite (foldM_error f ValueError G a kv Hin); [reflexivity| |]
    end.
    - intros blocks. unfold matmul.
      replace (ncols (laplacian_of A) =? nrows (snd kv)) with false
        by (symmetry; apply Nat.eqb_neq; lia).
      reflexivity.
    - intros blocks kv' _. unfold matmul.
      destruct (ncols (laplacian_of A) =? nrows (snd kv'));
        [right; eexists; reflexivity | now left]. }
  split; [exact Hsys|].
  unfold SpringRank_groups. now rewrite Hsys.
Qed.

(** On well-shaped input the grouped system is the loop over the items of
    [reg_coeff], started from the first row of blocks. *)
Lemma SpringRank_groups_system_rows (A : matrix R) (G : dict (matrix R))
      (reg_coeff : dict R) (lambda_0 : R) :
  ncols A = nrows A ->
  NoDup (keys G) ->
  (forall kv, In kv G -> nrows (snd kv) = nrows A) ->
  dict_find reg_coeff individual = Some lambda_0 ->
  let L := laplacian_of A in
  let blocks := blocks_of L G in
  let k_diff := vzip rsub (row_sums A) (col_sums A) in
  SpringRank_groups_system A G reg_coeff
  = foldM (fun Kd kl =>
             if String.eqb (fst kl) individual then Ok Kd
             else
               G_i_sparse <- dict_get (dict_collect (fun G_i => G_i) G)
                                      (fst kl) ;;
               G_i <- dict_get G (fst kl) ;;
               n_i <- dict_get (dict_collect ncols G) (fst kl) ;;
               current_row <- group_row L blocks (fst kl) G_i_sparse
                                        (snd kl) n_i ;;
               K <- vstack (fst Kd) current_row ;;
               d_i <- matvec (transpose G_i) k_diff ;;
               Ok (K, snd Kd ++ d_i))
          reg_coeff
          (fold_left hcat (map snd blocks)
                     (mplus L (scale lambda_0 (eye (nrows A)))),
           k_diff).
Proof.
  intros Hsq HndG Hrows Hind L blocks k_diff.
  destruct (laplacian_of_shape A Hsq) as [HLr HLc].
  cbv beta zeta delta [SpringRank_groups_system].
  replace (nrows A =? ncols A) with true by (symmetry; apply Nat.eqb_eq; lia).
  cbn [assert bind].
  rewrite vadd_ok by (now rewrite row_sums_length, col_sums_length).
  cbn [bind].
  rewrite madd_ok by (cbn [nrows ncols transpose]; lia).
  cbn [bind].
  rewrite msub_ok
    by (cbn [nrows ncols diag mplus];
        rewrite ?(degrees_sum_length radd A Hsq); lia).
  cbn [bind]. fold (laplacian_of A). fold L.
  assert (Hblocks :
            foldM (fun blocks kv =>
                     LG <- matmul L (snd kv) ;;
                     Ok (dict_set blocks (fst kv) LG)) G []
            = Ok blocks).
  { destruct (foldM_inv
                (fun blocks kv =>
                   LG <- matmul L (snd kv) ;;
                   Ok (dict_set blocks (fst kv) LG))
                (fun blocks kv => dict_set blocks (fst kv) (mmul L (snd kv)))
                (fun _ => True) G [] I) as [H _].
    - intros bl kv Hin _.
      rewrite matmul_ok by (unfold L; rewrite HLc; symmetry; now apply Hrows).
      now split.
    - rewrite H. f_equal. exact (dict_collect_map (mmul L) G HndG). }
  rewrite Hblocks. cbn [bind].
  unfold dict_get at 1. rewrite Hind. cbn [bind].
  rewrite madd_ok by (cbn [nrows ncols scale eye]; unfold L; lia).
  cbn [bind].
  rewrite <- (blocks_of_keys L G) at 1. fold blocks.
  rewrite hstack_lookup_all;
    [|unfold blocks; now rewrite blocks_of_keys
     |intros kb Hin; unfold blocks, blocks_of in Hin;
      apply in_map_iff in Hin;
      destruct Hin as (kv & <- & _); reflexivity].
  cbn [bind].
  rewrite vsub_ok by (now rewrite row_sums_length, col_sums_length).
  cbn [bind]. reflexivity.
Qed.

(** One pass of the loop over [reg_coeff] for a group type of [G]. *)
Lemma rows_step_ok (A : matrix R) (G : dict (matrix R))
      (Kd : matrix R * vec R) (kl : string * R) :
  ncols A = nrows A ->
  NoDup (keys G) ->
  (forall kv, In kv G -> nrows (snd kv) = nrows A) ->
  In (fst kl) (keys G) ->
  ncols (fst Kd) = system_size (nrows A) G ->
  let L := laplacian_of A in
  let k_diff := vzip rsub (row_sums A) (col_sums A) in
  (G_i_sparse <- dict_get (dict_collect (fun G_i => G_i) G) (fst kl) ;;
   G_i <- dict_get G (fst kl) ;;
   n_i <- dict_get (dict_collect ncols G) (fst kl) ;;
   current_row <- group_row L (blocks_of L G) (fst kl) G_i_sparse
                            (snd kl) n_i ;;
   K <- vstack (fst Kd) current_row ;;
   d_i <- matvec (transpose G_i) k_diff ;;
   Ok (K, snd Kd ++ d_i))
  = Ok (vcat (fst Kd)
             (row_of L (blocks_of L G) (fst kl) (G_at G (fst kl)) (snd kl)),
        snd Kd ++ mvmul (transpose (G_at G (fst kl))) k_diff).
Proof.
  intros Hsq HndG Hrows Hkey HKd L k_diff.
  destruct (laplacian_of_shape A Hsq) as [HLr HLc].
  assert (Hkd : length k_diff = nrows A).
  { unfold k_diff. apply (degrees_sum_length rsub A Hsq). }
  destruct (dict_find_keys G (fst kl) Hkey) as [G_t HGt].
  pose proof (dict_find_Some_In G (fst kl) G_t HGt) as HInG.
  assert (HGat : G_at G (fst kl) = G_t) by (unfold G_at; now rewrite HGt).
  rewrite HGat.
  rewrite (dict_get_collect (fun G_i => G_i) G (fst kl) G_t HndG HGt).
  cbn [bind]. unfold dict_get at 1. rewrite HGt. cbn [bind].
  rewrite (dict_get_collect ncols G (fst kl) G_t HndG HGt). cbn [bind].
  pose proof (Hrows _ HInG) as HGr. cbn [snd] in HGr.
  rewrite group_row_ok.
  - cbn [bind]. rewrite vstack_ok.
    + cbn [bind]. rewrite matvec_ok by (cbn [ncols transpose]; lia).
      reflexivity.
    + rewrite HKd. unfold row_of.
      destruct (hcat_all_shape
                  (map (row_block (fst kl) G_t (snd kl)) (blocks_of L G))
                  (mmul (transpose G_t) L)) as [_ ->].
      cbn [ncols mmul]. unfold L at 1. rewrite HLc.
      unfold system_size, group_sizes. f_equal. f_equal.
      unfold blocks_of. rewrite !map_map. apply map_ext. intro kv.
      symmetry.
      exact (proj2 (row_block_shape (fst kl) G_t (snd kl)
                                    (fst kv, mmul L (snd kv)))).
  - unfold L. now rewrite HLr.
  - intros kb Hinb. unfold blocks_of in Hinb. apply in_map_iff in Hinb.
    destruct Hinb as (kv & <- & _). cbn [snd nrows mmul]. unfold L.
    now rewrite HLr.
  - intros kb Hinb Hfst. unfold blocks_of in Hinb.
    apply in_map_iff in Hinb. destruct Hinb as ([s G_s] & <- & HinG).
    cbn [fst snd] in *. subst s. cbn [ncols mmul].
    pose proof (dict_find_In G (fst kl) G_s HndG HinG) as HGs.
    rewrite HGt in HGs. now inversion HGs.
Qed.

(** X3: a key of [reg_coeff] other than ["individual"] that is not a group
    type of [G] makes [SpringRank_groups] raise [KeyError] for that key
    (the first such key in the order of [reg_coeff]) before any solve. *)
Theorem SpringRank_groups_unknown_group_type
        (bicgstab : matrix R -> vec R -> result (vec R * Z))
        (spsolve : matrix R -> vec R -> result (vec R))
        (lsqr : matrix R -> vec R -> result (vec R * Z))
        (A : matrix R) (G : dict (matrix R)) (solver : string)
        (pre post : dict R) (t : string) (lambda_t lambda_0 : R) :
  ncols A = nrows A ->
  NoDup (keys G) ->
  (forall kv, In kv G -> nrows (snd kv) = nrows A) ->
  dict_find (pre ++ (t, lambda_t) :: post) individual = Some lambda_0 ->
  (forall kl, In kl pre -> fst kl <> individual -> In (fst kl) (keys G)) ->
  t <> individual ->
  ~ In t (keys G) ->
  SpringRank_groups bicgstab spsolve lsqr A G
                    (pre ++ (t, lambda_t) :: post) solver
  = Err (KeyError t).
Proof.
  intros Hsq HndG Hrows Hind Hpre Ht HtG.
  unfold SpringRank_groups.
  rewrite (SpringRank_groups_system_rows A G _ lambda_0 Hsq HndG Hrows Hind).
  cbv zeta. rewrite foldM_app.
  match goal with
  | |- context [foldM ?f pre ?a] =>
      destruct (foldM_total f
                  (fun Kd => ncols (fst Kd) = system_size (nrows A) G)
                  pre a) as (Kd & HKd & _)
  end.
  - cbn [fst].
    destruct (hcat_all_shape
                (map snd (blocks_of (laplacian_of A) G))
                (mplus (laplacian_of A)
                       (scale lambda_0 (eye (nrows A))))) as [_ ->].
    cbn [ncols mplus].
    rewrite (proj2 (laplacian_of_shape A Hsq)), blocks_of_width.
    reflexivity.
  - intros Kd kl Hin HKd. cbv beta.
    destruct (String.eqb (fst kl) individual) eqn:E.
    + exists Kd. now split.
    + apply String.eqb_neq in E.
      pose proof (rows_step_ok A G Kd kl Hsq HndG Hrows (Hpre kl Hin E) HKd)
        as Hstep.
      eexists. split; [exact Hstep|]. cbn [fst ncols vcat]. exact HKd.
  - rewrite HKd. cbn [bind foldM fst snd].
    replace (String.eqb t individual) with false
      by (symmetry; now apply String.eqb_neq).
    unfold dict_get at 1.
    rewrite (dict_collect_map (fun G_i => G_i) G HndG).
    rewrite (dict_find_map (fun G_i : matrix R => G_i) G t).
    rewrite (dict_find_None G t HtG). reflexivity.
Qed.

(** X4: a solver name other than ['spsolve'] and ['lsqr'] selects
    [bicgstab]: an unrecognised name is not an error, and the call is the
    call with ['bicgstab']. *)
Theorem SpringRank_groups_solver_fallback
        (bicgstab : matrix R -> vec R -> result (vec R * Z))
        (spsolve : matrix R -> vec R -> result (vec R))
        (lsqr : matrix R -> vec R -> result (vec R * Z))
        (A : matrix R) (G : dict (matrix R)) (reg_coeff : dict R)
        (solver : string) :
  solver <> "spsolve"%string ->
  solver <> "lsqr"%string ->
  SpringRank_groups bicgstab spsolve lsqr A G reg_coeff solver
  = SpringRank_groups bicgstab spsolve lsqr A G reg_coeff "bicgstab".
Proof.
  intros Hs Hl. unfold SpringRank_groups, solve.
  apply String.eqb_neq in Hs. apply String.eqb_neq in Hl.
  rewrite Hs, Hl. cbn [String.eqb Ascii.eqb Bool.eqb].
  destruct (String.eqb solver "bicgstab"); reflexivity.
Qed.

(** *** Sums of rows and columns *)

Lemma sumn_sub (n : nat) (f g : nat -> R) :
  sumn n (fun k => f k [-] g k) = sumn n f [-] sumn n g.
Proof. induction n; cbn [sumn]; [ring | rewrite IHn; ring]. Qed.

Lemma sumn_mul_r (n : nat) (c : R) (f : nat -> R) :
  sumn n (fun k => f k [*] c) = sumn n f [*] c.
Proof. induction n; cbn [sumn]; [ring | rewrite IHn; ring]. Qed.

Lemma sumn_delta (n j : nat) (f : nat -> R) :
  j < n -> sumn n (fun i => if i =? j then f i else rO) = f j.
Proof.
  induction n as [|n IH]; intro Hj; [lia|]. cbn [sumn].
  destruct (Nat.eq_dec j n) as [-> | Hne].
  - rewrite Nat.eqb_refl.
    rewrite (sumn_ext n _ (fun _ => rO)).
    + rewrite sumn_zero. ring.
    + intros k Hk.
      now replace (k =? n) with false by (symmetry; apply Nat.eqb_neq; lia).
  - replace (n =? j) with false by (symmetry; apply Nat.eqb_neq; lia).
    rewrite IH by lia. ring.
Qed.


(** The degrees add up to the same total: the entries of [k_out - k_in]
    sum to zero. *)
Lemma degrees_sum_zero (A : matrix R) :
  ncols A = nrows A ->
  sumn (nrows A) (fun i => k_out_at A i [-] k_in_at A i) = rO.
Proof.
  intro Hsq. rewrite sumn_sub. unfold k_out_at, k_in_at. rewrite Hsq.
  rewrite (sumn_swap (nrows A) (nrows A) (fun i j => entry A i j)). ring.
Qed.

Lemma laplacian_sym (A : matrix R) (i j : nat) :
  entry (laplacian A) i j = entry (laplacian A) j i.
Proof.
  unfold laplacian. cbn [entry]. rewrite (Nat.eqb_sym j i).
  destruct (i =? j) eqn:E.
  - apply Nat.eqb_eq in E. subst j. ring.
  - ring.
Qed.

(** Every column of the Laplacian sums to zero. *)
Lemma laplacian_col_sum (A : matrix R) (j : nat) :
  ncols A = nrows A -> j < nrows A ->
  sumn (nrows A) (fun i => entry (laplacian A) i j) = rO.
Proof.
  intros Hsq Hj. unfold laplacian. cbn [entry].
  rewrite (sumn_sub (nrows A)
             (fun i => (if i =? j then k_in_at A i [+] k_out_at A i else rO)
                       [-] entry A i j)
             (fun i => entry A j i)).
  rewrite (sumn_sub (nrows A)
             (fun i => if i =? j then k_in_at A i [+] k_out_at A i else rO)
             (fun i => entry A i j)).
  rewrite (sumn_delta (nrows A) j
             (fun i => k_in_at A i [+] k_out_at A i) Hj).
  unfold k_in_at, k_out_at. rewrite Hsq. ring.
Qed.


(** *** Exact solutions *)

Lemma mvmul_nth (K : matrix R) (x : vec R) (i : nat) :
  i < nrows K ->
  vnth (mvmul K x) i = sumn (ncols K) (fun k => entry K i k [*] vnth x k).
Proof.
  intro Hi. unfold mvmul.
  exact (vnth_map_seq
           (fun i => sumn (ncols K) (fun k => entry K i k [*] vnth x k))
           (nrows K) i Hi).
Qed.

(** Equation [i] of a solved system. *)
Lemma solves_row (K : matrix R) (d x : vec R) (i : nat) :
  solves K d x -> i < nrows K ->
  sumn (ncols K) (fun k => entry K i k [*] vnth x k) = vnth d i.
Proof.
  intros [_ Hd] Hi. rewrite <- Hd. symmetry. now apply mvmul_nth.
Qed.

(** The first [n] equations of a solved system, added up. *)
Lemma solves_rows_sum (K : matrix R) (d x : vec R) (n : nat) :
  solves K d x -> n <= nrows K ->
  sumn (ncols K) (fun k => sumn n (fun i => entry K i k) [*] vnth x k)
  = sumn n (vnth d).
Proof.
  intros Hsol Hn.
  rewrite <- (sumn_ext n
                (fun i => sumn (ncols K) (fun k => entry K i k [*] vnth x k))
                (vnth d)).
  - rewrite (sumn_swap n (ncols K) (fun i k => entry K i k [*] vnth x k)).
    apply sumn_ext. intros k _. now rewrite sumn_mul_r.
  - intros i Hi. apply solves_row; [exact Hsol | lia].
Qed.

(** The system of [csr_SpringRank], entry by entry. *)
Lemma csr_SpringRank_system_entries (A : matrix R) :
  ncols A = nrows A ->
  exists operator : matrix R,
    csr_SpringRank_system A
    = Ok (operator,
          map (fun i => k_out_at A i [-] k_in_at A i) (seq 0 (nrows A))
              ++ [rO]) /\
    nrows operator = nrows A + 1 /\ ncols operator = nrows A + 1 /\
    forall i j,
      entry operator i j =
        if (i =? 0) && (j =? nrows A) then rI
        else if (i =? nrows A) && (j =? 0) then rI
        else if (i <? nrows A) && (j <? nrows A)
             then entry (laplacian A) i j
             else rO.
Proof.
  intro Hsq. set (N := nrows A).
  unfold csr_SpringRank_system.
  rewrite vadd_ok by now rewrite row_sums_length, col_sums_length.
  cbn [bind].
  rewrite msub_ok; cbn [nrows ncols diag mminus mplus];
    try (rewrite (degrees_sum_length radd A Hsq); lia).
  cbn [bind].
  rewrite msub_ok; cbn [nrows ncols transpose diag mminus mplus];
    try (rewrite (degrees_sum_length radd A Hsq); lia).
  cbn [bind]. unfold setitem, resize. cbn [nrows ncols mminus mplus diag].
  fold N.
  replace ((N <? N + 1) && (0 <? N + 1)) with true
    by (symmetry; apply andb_true_intro; split; apply Nat.ltb_lt; lia).
  cbn [bind nrows ncols].
  replace ((0 <? N + 1) && (N <? N + 1)) with true
    by (symmetry; apply andb_true_intro; split; apply Nat.ltb_lt; lia).
  cbn [bind].
  rewrite vsub_ok by now rewrite row_sums_length, col_sums_length.
  cbn [bind]. rewrite (degrees_zip rsub A Hsq). fold N.
  eexists. split; [reflexivity|]. cbn [nrows ncols entry mminus mplus diag].
  split; [reflexivity|]. split; [reflexivity|].
  intros i j.
  rewrite (degrees_sum_length radd A Hsq). fold N.
  destruct ((i =? 0) && (j =? N)); [reflexivity|].
  destruct ((i =? N) && (j =? 0)); [reflexivity|].
  destruct ((i <? N) && (j <? N)) eqn:Hij; [|reflexivity].
  apply andb_prop in Hij. destruct Hij as [Hi Hj].
  apply Nat.ltb_lt in Hi.
  unfold laplacian. cbn [entry diag transpose mminus mplus].
  rewrite (degrees_zip radd A Hsq). fold N.
  destruct (i =? j) eqn:E; [|reflexivity].
  rewrite vnth_map_seq by exact Hi. ring.
Qed.

(** X5: when the solver returns an exact solution [x] of the system of
    [csr_SpringRank], the constraint row pins the rank of node [0] at
    zero, the multiplier (the last entry of [x], which is dropped) is
    zero, and the returned ranks solve the SpringRank equations
    [L @ ranks = k_out - k_in]. *)
Theorem csr_SpringRank_exact_solution
        (bicgstab : matrix R -> vec R -> result (vec R * Z))
        (A operator : matrix R) (b x : vec R) (info : Z) :
  ncols A = nrows A ->
  csr_SpringRank_system A = Ok (operator, b) ->
  bicgstab operator b = Ok (x, info) ->
  solves operator b x ->
  csr_SpringRank bicgstab A = Ok (firstn (nrows A) x) /\
  vnth x 0 = rO /\
  vnth x (nrows A) = rO /\
  mvmul (laplacian A) (firstn (nrows A) x)
  = map (fun i => k_out_at A i [-] k_in_at A i) (seq 0 (nrows A)).
Proof.
  intros Hsq Hsys Hrun Hsol.
  destruct (csr_SpringRank_system_entries A Hsq)
    as (op & Hsys' & Hr & Hc & He).
  rewrite Hsys in Hsys'. injection Hsys' as Hop Hb. subst op.
  set (N := nrows A) in *.
  set (d := fun i => k_out_at A i [-] k_in_at A i) in *.
  assert (Hlen : length x = N + 1) by (destruct Hsol as [Hl _]; congruence).
  assert (HbN : vnth b N = rO).
  { rewrite Hb. unfold vnth.
    rewrite app_nth2; rewrite length_map, length_seq; [|lia].
    now rewrite Nat.sub_diag. }
  assert (Hbi : forall i, i < N -> vnth b i = d i).
  { intros i Hi. rewrite Hb. unfold vnth.
    rewrite app_nth1 by (rewrite length_map, length_seq; lia).
    exact (vnth_map_seq d N i Hi). }
  assert (Hx0 : vnth x 0 = rO).
  { pose proof (solves_row operator b x N Hsol ltac:(lia)) as H.
    rewrite Hc, HbN in H. rewrite <- H. symmetry.
    rewrite (sumn_ext (N + 1) _ (fun k => if k =? 0 then vnth x k else rO)).
    - apply (sumn_delta (N + 1) 0 (vnth x)). lia.
    - intros k Hk. rewrite He.
      destruct (k =? 0) eqn:Ek.
      + apply Nat.eqb_eq in Ek. subst k. rewrite Nat.eqb_refl.
        rewrite andb_true_r.
        destruct ((N =? 0) && (0 =? N)); ring.
      + replace ((N =? 0) && (k =? N)) with false.
        * rewrite andb_false_r. rewrite Nat.ltb_irrefl. cbn [andb]. ring.
        * symmetry. apply andb_false_iff.
          destruct (Nat.eq_dec N 0) as [HN0 | HN0].
          -- right. apply Nat.eqb_neq. apply Nat.eqb_neq in Ek. lia.
          -- left. now apply Nat.eqb_neq. }
  assert (HxN : vnth x N = rO).
  { destruct (Nat.eq_dec N 0) as [HN0 | HN0]; [now rewrite HN0|].
    pose proof (solves_rows_sum operator b x N Hsol ltac:(lia)) as H.
    rewrite Hc in H. replace (N + 1) with (S N) in H by lia.
    cbn [sumn] in H.
    rewrite (sumn_ext N _ (fun _ => rO)) in H.
    2:{ intros k Hk.
        rewrite (sumn_ext N _ (fun i => entry (laplacian A) i k)).
        - unfold N. rewrite (laplacian_col_sum A k Hsq Hk). ring.
        - intros i Hi. rewrite He.
          replace (k =? N) with false by (symmetry; apply Nat.eqb_neq; lia).
          replace (i =? N) with false by (symmetry; apply Nat.eqb_neq; lia).
          rewrite andb_false_r. cbn [andb].
          replace (i <? N) with true by (symmetry; apply Nat.ltb_lt; lia).
          now replace (k <? N) with true by (symmetry; apply Nat.ltb_lt; lia). }
    rewrite sumn_zero in H.
    rewrite (sumn_ext N (fun i => entry operator i N)
                      (fun i => if i =? 0 then rI else rO)) in H.
    2:{ intros i Hi. rewrite He. rewrite Nat.eqb_refl, andb_true_r.
        destruct (i =? 0); [reflexivity|].
        replace (i =? N) with false by (symmetry; apply Nat.eqb_neq; lia).
        cbn [andb]. now rewrite Nat.ltb_irrefl, andb_false_r. }
    rewrite (sumn_delta N 0 (fun _ => rI)) in H by lia.
    rewrite (sumn_ext N (vnth b) d Hbi) in H.
    unfold d, N in H. rewrite (degrees_sum_zero A Hsq) in H.
    fold N in H. rewrite <- H. ring. }
  split; [|split; [exact Hx0 | split; [exact HxN|]]].
  - unfold csr_SpringRank. rewrite Hsys. cbn [bind]. rewrite Hrun.
    cbn [bind fst]. rewrite removelast_firstn_len, Hlen.
    now replace (Init.Nat.pred (N + 1)) with N by lia.
  - unfold mvmul. cbn [nrows ncols laplacian]. fold N.
    apply map_ext_in. intros i Hi. apply in_seq in Hi.
    pose proof (solves_row operator b x i Hsol ltac:(lia)) as H.
    rewrite Hc, Hbi in H by lia. replace (N + 1) with (S N) in H by lia.
    cbn [sumn] in H. rewrite HxN in H. fold (d i). rewrite <- H.
    rewrite (sumn_ext N
               (fun k => entry (laplacian A) i k [*] vnth (firstn N x) k)
               (fun k => entry operator i k [*] vnth x k)).
    + ring.
    + intros k Hk. rewrite He.
      replace (k =? N) with false by (symmetry; apply Nat.eqb_neq; lia).
      replace (i =? N) with false by (symmetry; apply Nat.eqb_neq; lia).
      rewrite andb_false_r. cbn [andb].
      replace (i <? N) with true by (symmetry; apply Nat.ltb_lt; lia).
      replace (k <? N) with true by (symmetry; apply Nat.ltb_lt; lia).
      cbn [andb]. unfold vnth. rewrite nth_firstn.
      now replace (k <? N) with true by (symmetry; apply Nat.ltb_lt; lia).
Qed.

(** The system of the regularized branch of [SpringRank], entry by
    entry. *)
Lemma SpringRank_regularized_system_entries (A : matrix R) (alpha : R) :
  ncols A = nrows A ->
  exists operator : matrix R,
    SpringRank_regularized_system A alpha
    = Ok (operator,
          map (fun i => alpha [+] (k_out_at A i [-] k_in_at A i))
              (seq 0 (nrows A))) /\
    nrows operator = nrows A /\ ncols operator = nrows A /\
    forall i j, i < nrows A ->
      entry operator i j
      = (if i =? j then alpha else rO) [+] entry (laplacian A) i j.
Proof.
  intro Hsq. set (N := nrows A).
  unfold SpringRank_regularized_system.
  rewrite madd_ok by (cbn [nrows ncols transpose]; lia).
  cbn [bind].
  rewrite vadd_ok by now rewrite row_sums_length, col_sums_length.
  cbn [bind].
  rewrite vsub_ok by now rewrite row_sums_length, col_sums_length.
  cbn [bind].
  rewrite madd_ok;
    cbn [nrows ncols diag scale eye mminus mplus];
    try (rewrite (degrees_sum_length radd A Hsq); lia).
  cbn [bind].
  rewrite msub_ok by (cbn [nrows ncols mplus scale eye transpose]; lia).
  cbn [bind].
  rewrite (degrees_zip rsub A Hsq), map_map. fold N.
  eexists. split; [reflexivity|].
  cbn [nrows ncols entry fst snd mminus mplus scale eye].
  split; [reflexivity|]. split; [reflexivity|].
  intros i j Hi. unfold laplacian.
  cbn [entry diag eye scale transpose mminus mplus].
  rewrite (degrees_zip radd A Hsq). fold N.
  destruct (i =? j) eqn:E.
  - rewrite vnth_map_seq by exact Hi. ring.
  - ring.
Qed.

(** X6: every exact solution [x] of the system of the regularized branch
    of [SpringRank] satisfies [alpha * sum(x) = alpha * N]: since the
    right-hand side is shifted by [alpha], the ranks have mean one, not
    zero, as soon as [alpha] can be cancelled. *)
Theorem SpringRank_regularized_solution_sum
        (A operator : matrix R) (alpha : R) (B x : vec R) :
  ncols A = nrows A ->
  SpringRank_regularized_system A alpha = Ok (operator, B) ->
  solves operator B x ->
  alpha [*] vsum (nrows A) x = alpha [*] sumn (nrows A) (fun _ => rI).
Proof.
  intros Hsq Hsys Hsol.
  destruct (SpringRank_regularized_system_entries A alpha Hsq)
    as (op & Hsys' & Hr & Hc & He).
  rewrite Hsys in Hsys'. injection Hsys' as Hop HB. subst op.
  set (N := nrows A) in *.
  pose proof (solves_rows_sum operator B x N Hsol ltac:(lia)) as H.
  rewrite Hc in H.
  rewrite (sumn_ext N _ (fun k => alpha [*] vnth x k)) in H.
  2:{ intros k Hk.
      rewrite (sumn_ext N (fun i => entry operator i k)
                 (fun i => (if i =? k then alpha else rO)
                           [+] entry (laplacian A) i k))
        by (intros i Hi; now apply He).
      rewrite sumn_add. unfold N.
      rewrite (laplacian_col_sum A k Hsq Hk).
      rewrite (sumn_delta (nrows A) k (fun _ => alpha) Hk). ring. }
  rewrite sumn_mul_l in H. unfold vsum. fold N. rewrite H.
  rewrite (sumn_ext N (vnth B)
             (fun i => alpha [*] rI [+] (k_out_at A i [-] k_in_at A i))).
  2:{ intros i Hi. rewrite HB.
      rewrite (vnth_map_seq
                 (fun i => alpha [+] (k_out_at A i [-] k_in_at A i)) N i Hi).
      ring. }
  rewrite sumn_add, sumn_mul_l. unfold N.
  rewrite (degrees_sum_zero A Hsq). ring.
Qed.

(** X7: on a square [A] the operators of both branches of [SpringRank]
    are symmetric: the augmented operator of [csr_SpringRank] (with its
    constraint row and column) and the operator [alpha*I + L]. *)
Theorem SpringRank_operators_symmetric (A : matrix R) (alpha : R) :
  ncols A = nrows A ->
  (exists operator b,
     csr_SpringRank_system A = Ok (operator, b) /\
     forall i j, entry operator i j = entry operator j i) /\
  (exists operator B,
     SpringRank_regularized_system A alpha = Ok (operator, B) /\
     forall i j, i < nrows A -> j < nrows A ->
       entry operator i j = entry operator j i).
Proof.
  intro Hsq. split.
  - destruct (csr_SpringRank_system_entries A Hsq)
      as (op & Hsys & Hr & Hc & He).
    exists op. eexists. split; [exact Hsys|].
    intros i j. rewrite !He. rewrite (laplacian_sym A j i).
    rewrite (andb_comm (j <? nrows A) (i <? nrows A)).
    rewrite (andb_comm (j =? 0) (i =? nrows A)).
    rewrite (andb_comm (j =? nrows A) (i =? 0)).
    destruct ((i =? 0) && (j =? nrows A));
      destruct ((i =? nrows A) && (j =? 0)); reflexivity.
  - destruct (SpringRank_regularized_system_entries A alpha Hsq)
      as (op & Hsys & Hr & Hc & He).
    exists op. eexists. split; [exact Hsys|].
    intros i j Hi Hj. rewrite (He i j Hi), (He j i Hj).
    rewrite (laplacian_sym A j i), (Nat.eqb_sym j i). reflexivity.
Qed.

(** *** Exact solutions of the grouped system *)



Lemma fold_left_app_concat {X : Type} (g : X -> vec R) (l : list X)
      (d0 : vec R) :
  fold_left (fun d kl => d ++ g kl) l d0 = d0 ++ concat (map g l).
Proof.
  revert d0. induction l as [|a l IH]; intro d0; cbn [fold_left map concat].
  - now rewrite app_nil_r.
  - now rewrite IH, app_assoc.
Qed.

(** The first [N] entries of the right-hand side are [k_out - k_in]. *)
Lemma groups_rhs_individual (A : matrix R) (G : dict (matrix R))
      (reg_coeff : dict R) (i : nat) :
  ncols A = nrows A -> i < nrows A ->
  vnth (groups_rhs A G reg_coeff) i = k_out_at A i [-] k_in_at A i.
Proof.
  intros Hsq Hi. unfold groups_rhs. cbv zeta.
  rewrite fold_left_app_concat. unfold vnth.
  rewrite app_nth1 by (rewrite (degrees_sum_length rsub A Hsq); exact Hi).
  rewrite (degrees_zip rsub A Hsq).
  exact (vnth_map_seq (fun i => k_out_at A i [-] k_in_at A i)
                      (nrows A) i Hi).
Qed.



(** *** The grouped mode without groups *)

(** X9: with no group type and [reg_coeff = {"individual": alpha}],
    [SpringRank_groups] hands the solver the operator [alpha*I + L] of the
    regularized branch of [SpringRank], but the right-hand side
    [k_out - k_in]: the right-hand side of [SpringRank] is that vector
    with [alpha] added to every entry. *)
Theorem SpringRank_groups_without_groups (A : matrix R) (alpha : R) :
  ncols A = nrows A ->
  exists (K K' : matrix R) (d : vec R),
    SpringRank_groups_system A [] [(individual, alpha)] = Ok (K, d) /\
    SpringRank_regularized_system A alpha
    = Ok (K', map (fun v => alpha [+] v) d) /\
    nrows K = nrows A /\ ncols K = nrows A /\
    nrows K' = nrows A /\ ncols K' = nrows A /\
    (forall i j, i < nrows A -> j < nrows A ->
       entry K i j = entry K' i j) /\
    d = map (fun i => k_out_at A i [-] k_in_at A i) (seq 0 (nrows A)).
Proof.
  intro Hsq.
  destruct (SpringRank_regularized_system_entries A alpha Hsq)
    as (K' & Hreg & Hr' & Hc' & He').
  destruct (laplacian_of_shape A Hsq) as [HLr HLc].
  assert (Hfind : dict_find [(individual, alpha)] individual = Some alpha).
  { cbn [dict_find]. now rewrite String.eqb_refl. }
  pose proof (SpringRank_groups_system_closed A [] [(individual, alpha)]
                alpha Hsq (NoDup_nil _)
                (fun kv (H : In kv []) => False_ind _ H) Hfind) as Hsys.
  rewrite Hsys.
  2:{ intros kl [<- | []] Hne. now contradiction Hne. }
  unfold groups_operator, groups_rhs, nonind. cbv zeta.
  cbn [filter fst]. rewrite String.eqb_refl.
  cbn [negb map fold_left blocks_of].
  rewrite (degrees_zip rsub A Hsq).
  eexists. exists K'. eexists. split; [reflexivity|].
  split; [rewrite map_map; exact Hreg|].
  cbn [nrows ncols mplus]. rewrite HLr, HLc.
  repeat (split; [assumption || reflexivity|]).
  split; [|reflexivity].
  intros i j Hi Hj. rewrite (He' i j Hi).
  cbn [entry mplus scale eye]. rewrite (laplacian_of_entry A i j Hsq Hi).
  destruct (i =? j); ring.
Qed.

(** *** The right-hand side of the grouped system *)

Lemma concat_nth_block {X : Type} (bs : list (list X)) (a : nat)
      (v : list X) (i : nat) (d : X) :
  nth_error bs a = Some v -> i < length v ->
  nth (list_sum (firstn a (map (@length X) bs)) + i) (concat bs) d
  = nth i v d.
Proof.
  revert a. induction bs as [|b bs IH]; intros a Ha Hi.
  - destruct a; discriminate.
  - destruct a as [|a].
    + injection Ha as ->. simpl. now rewrite app_nth1.
    + cbn [nth_error] in Ha. simpl.
      rewrite app_nth2 by lia.
      replace (length b + list_sum (firstn a (map (@length X) bs)) + i
               - length b)
        with (list_sum (firstn a (map (@length X) bs)) + i) by lia.
      now apply IH.
Qed.

Lemma mvmul_length (K : matrix R) (v : vec R) : length (mvmul K v) = nrows K.
Proof. unfold mvmul. now rewrite length_map, length_seq. Qed.

(** X10: when the keys of [reg_coeff] other than ["individual"] are the
    group types of [G] in the same order, the right-hand side [d_hat] has
    [N + sum of M_t] entries: [k_out - k_in] first, then
    [G_t^T @ (k_out - k_in)] for every group type, at the offset of the
    block of that group type in the operator. *)
Theorem SpringRank_groups_rhs_blocks (A : matrix R) (G : dict (matrix R))
        (reg_coeff : dict R) (lambda_0 : R) :
  ncols A = nrows A ->
  NoDup (keys G) ->
  (forall kv, In kv G -> nrows (snd kv) = nrows A) ->
  dict_find reg_coeff individual = Some lambda_0 ->
  keys (filter nonind reg_coeff) = keys G ->
  exists (K : matrix R) (d_hat : vec R),
    SpringRank_groups_system A G reg_coeff = Ok (K, d_hat) /\
    length d_hat = system_size (nrows A) G /\
    (forall i, i < nrows A ->
       vnth d_hat i = k_out_at A i [-] k_in_at A i) /\
    (forall a t G_t i,
       nth_error G a = Some (t, G_t) -> i < ncols G_t ->
       vnth d_hat (group_offset (nrows A) G a + i)
       = sumn (nrows A)
              (fun k => entry G_t k i
                        [*] (k_out_at A k [-] k_in_at A k))).
Proof.
  intros Hsq HndG Hrows Hind Horder.
  rewrite (SpringRank_groups_system_closed A G reg_coeff lambda_0
             Hsq HndG Hrows Hind (nonind_keys_in_G G reg_coeff Horder)).
  eexists. eexists. split; [reflexivity|].
  set (N := nrows A).
  set (k_diff := vzip rsub (row_sums A) (col_sums A)).
  set (g := fun kl : string * R =>
              mvmul (transpose (G_at G (fst kl))) k_diff).
  set (F := filter nonind reg_coeff) in *.
  assert (Hd : groups_rhs A G reg_coeff = k_diff ++ concat (map g F)).
  { unfold groups_rhs. cbv zeta. fold k_diff. fold F.
    exact (fold_left_app_concat g F k_diff). }
  assert (Hkd : length k_diff = N)
    by apply (degrees_sum_length rsub A Hsq).
  assert (Hlens : map (@length R) (map g F) = group_sizes G).
  { rewrite map_map. unfold g.
    rewrite (map_ext _ (fun kl => ncols (G_at G (fst kl))))
      by (intro kl; now rewrite mvmul_length).
    rewrite <- (map_map fst (fun t => ncols (G_at G t))).
    fold (keys F). rewrite Horder. unfold keys, group_sizes.
    rewrite map_map. apply map_ext_in. intros [t G_t] Hin. cbn [fst snd].
    now rewrite (G_at_In G t G_t HndG Hin). }
  split; [|split].
  - rewrite Hd, length_app, Hkd, length_concat, Hlens. reflexivity.
  - intros i Hi. now apply groups_rhs_individual.
  - intros a t G_t i Ha Hi. rewrite Hd. unfold group_offset, vnth.
    rewrite app_nth2 by (rewrite Hkd; fold N; lia).
    rewrite Hkd. fold N.
    replace (N + list_sum (firstn a (group_sizes G)) + i - N)
      with (list_sum (firstn a (group_sizes G)) + i) by lia.
    rewrite <- Hlens.
    assert (HinG : In (t, G_t) G) by (eapply nth_error_In; exact Ha).
    assert (Hkey : nth_error (keys F) a = Some t).
    { rewrite Horder. unfold keys.
      now rewrite (map_nth_error fst a G Ha). }
    unfold keys in Hkey. rewrite nth_error_map in Hkey.
    destruct (nth_error F a) as [kl|] eqn:HF; [|discriminate].
    cbn [option_map] in Hkey. injection Hkey as Hkl.
    assert (Hg : g kl = mvmul (transpose G_t) k_diff).
    { unfold g. now rewrite Hkl, (G_at_In G t G_t HndG HinG). }
    rewrite (concat_nth_block (map g F) a (g kl) i rO).
    + rewrite Hg. fold (vnth (mvmul (transpose G_t) k_diff) i).
      rewrite mvmul_nth by (cbn [nrows transpose]; exact Hi).
      cbn [ncols transpose entry].
      pose proof (Hrows _ HinG) as HGr. cbn [snd] in HGr. rewrite HGr.
      apply sumn_ext. intros k Hk. f_equal. unfold k_diff.
      rewrite (degrees_zip rsub A Hsq).
      exact (vnth_map_seq (fun i => k_out_at A i [-] k_in_at A i)
                          (nrows A) k Hk).
    + exact (map_nth_error g a F HF).
    + rewrite Hg, mvmul_length. cbn [nrows transpose]. exact Hi.
Qed.

(** *** The scores as slices of the solution *)

Lemma firstn_add_skipn {X : Type} (a b : nat) (x : list X) :
  firstn a x ++ firstn b (skipn a x) = firstn (a + b) x.
Proof.
  revert x. induction a as [|a IH]; intro x; [reflexivity|].
  destruct x as [|y x]; cbn [firstn skipn Nat.add app].
  - now rewrite firstn_nil.
  - now rewrite IH.
Qed.

Lemma slice_from (x : vec R) (a n : nat) :
  slice x a (a + n) = firstn n (skipn a x).
Proof. unfold slice. now replace (a + n - a) with n by lia. Qed.

Lemma group_sizes_app (l1 l2 : dict (matrix R)) :
  group_sizes (l1 ++ l2) = group_sizes l1 ++ group_sizes l2.
Proof. unfold group_sizes. apply map_app. Qed.

Lemma scores_loop_slices (G : dict (matrix R)) (x : vec R) (N : nat) :
  NoDup (keys G) -> ~ In individual (keys G) ->
  forall l2 l1 ranks scores prev ranks' scores' prev',
    G = l1 ++ l2 ->
    keys scores = individual :: keys l1 ->
    prev = N + list_sum (group_sizes l1) ->
    concat (map snd scores) = firstn prev x ->
    dict_find scores individual = Some (firstn N x) ->
    (forall a t G_t,
       nth_error l1 a = Some (t, G_t) ->
       dict_find scores t
       = Some (slice x (group_offset N l1 a)
                     (group_offset N l1 a + ncols G_t))) ->
    foldM (scores_step G x) (map (fun kv => (fst kv, ncols (snd kv))) l2)
          (ranks, scores, prev) = Ok (ranks', scores', prev') ->
    concat (map snd scores') = firstn (system_size N G) x /\
    dict_find scores' individual = Some (firstn N x) /\
    (forall a t G_t,
       nth_error G a = Some (t, G_t) ->
       dict_find scores' t
       = Some (slice x (group_offset N G a)
                     (group_offset N G a + ncols G_t))).
Proof.
  intros Hnd Hind.
  induction l2 as [|[t G_t] l2 IH];
    intros l1 ranks scores prev ranks' scores' prev' HG Hk Hprev Hcat Hi Hbl
           Hrun.
  - simpl in Hrun. inversion Hrun; subst. rewrite app_nil_r in *.
    now repeat split.
  - simpl in Hrun. cbn [fst snd] in Hrun.
    assert (HinG : In (t, G_t) G).
    { rewrite HG. apply in_or_app. right. now left. }
    assert (Ht_ind : t <> individual).
    { intro Heq. apply Hind. subst t. unfold keys. apply in_map_iff.
      now exists (individual, G_t). }
    assert (Ht_l1 : ~ In t (keys l1)).
    { rewrite HG in Hnd. rewrite keys_app in Hnd. simpl in Hnd.
      apply NoDup_remove_2 in Hnd. intro H. apply Hnd.
      apply in_or_app. now left. }
    unfold dict_get at 1 in Hrun.
    rewrite (dict_find_In G t G_t Hnd HinG) in Hrun. cbn [bind] in Hrun.
    unfold dict_get at 1 in Hrun.
    rewrite dict_find_set_same in Hrun. cbn [bind] in Hrun.
    set (sl := slice x prev (prev + ncols G_t)) in *.
    destruct (matvec G_t sl) as [p|e] eqn:Ep; [|discriminate].
    cbn [bind] in Hrun.
    destruct (vadd ranks p) as [ranks1|e] eqn:Er; [|discriminate].
    cbn [bind] in Hrun.
    assert (Hfresh : ~ In t (keys scores)).
    { rewrite Hk. simpl. intros [H|H]; [now apply Ht_ind | now apply Ht_l1]. }
    assert (Hlen1 : length (group_sizes l1) = length l1)
      by (unfold group_sizes; apply length_map).
    apply (IH (l1 ++ [(t, G_t)]) ranks1 (dict_set scores t sl)
              (prev + ncols G_t) ranks' scores' prev').
    + rewrite HG, <- app_assoc. reflexivity.
    + rewrite (dict_set_fresh scores t sl Hfresh), !keys_app, Hk.
      reflexivity.
    + rewrite group_sizes_app, list_sum_app, Hprev. cbn. lia.
    + rewrite (dict_set_fresh scores t sl Hfresh), map_app, concat_app, Hcat.
      cbn [map concat snd]. rewrite app_nil_r. unfold sl.
      rewrite slice_from. apply firstn_add_skipn.
    + rewrite dict_find_set_other by exact Ht_ind. exact Hi.
    + intros a t' G' Ha. unfold group_offset.
      rewrite group_sizes_app.
      destruct (Nat.lt_ge_cases a (length l1)) as [Hlt | Hge].
      * rewrite nth_error_app1 in Ha by exact Hlt.
        rewrite firstn_app.
        replace (a - length (group_sizes l1)) with 0 by lia.
        cbn [firstn]. rewrite app_nil_r.
        rewrite dict_find_set_other.
        -- exact (Hbl a t' G' Ha).
        -- intro Heq. apply Ht_l1. subst t'. unfold keys.
           apply in_map_iff. exists (t, G'). split; [reflexivity|].
           eapply nth_error_In. exact Ha.
      * rewrite nth_error_app2 in Ha by exact Hge.
        destruct (a - length l1) as [|k] eqn:Ek;
          [|destruct k; discriminate].
        cbn [nth_error] in Ha. injection Ha as <- <-.
        assert (a = length l1) by lia. subst a.
        rewrite firstn_app, <- Hlen1, firstn_all, Nat.sub_diag.
        cbn [firstn]. rewrite app_nil_r, <- Hprev.
        apply dict_find_set_same.
    + exact Hrun.
Qed.

(** X11: the scores returned by [SpringRank_groups] cut the solution [x]
    of the solver into consecutive slices: [x[:N]] for ["individual"],
    then for every group type [t] of [G], in the order of [G], the next
    [M_t] entries; put end to end they are [x[:N + sum of M_t]], and
    entries of [x] beyond that are ignored. *)
Theorem SpringRank_groups_scores_partition
        (bicgstab : matrix R -> vec R -> result (vec R * Z))
        (spsolve : matrix R -> vec R -> result (vec R))
        (lsqr : matrix R -> vec R -> result (vec R * Z))
        (A : matrix R) (G : dict (matrix R)) (reg_coeff : dict R)
        (solver : string) (ranks : vec R) (scores : dict (vec R)) :
  NoDup (keys G) ->
  ~ In individual (keys G) ->
  SpringRank_groups bicgstab spsolve lsqr A G reg_coeff solver
  = Ok (ranks, scores) ->
  exists (K : matrix R) (d_hat x : vec R),
    SpringRank_groups_system A G reg_coeff = Ok (K, d_hat) /\
    solve bicgstab spsolve lsqr solver K d_hat = Ok x /\
    concat (map snd scores) = firstn (system_size (nrows A) G) x /\
    dict_find scores individual = Some (firstn (nrows A) x) /\
    (forall a t G_t,
       nth_error G a = Some (t, G_t) ->
       dict_find scores t
       = Some (slice x (group_offset (nrows A) G a)
                     (group_offset (nrows A) G a + ncols G_t))).
Proof.
  intros Hnd Hind Hrun. unfold SpringRank_groups in Hrun.
  destruct (SpringRank_groups_system A G reg_coeff) as [[K d_hat]|e];
    [|discriminate].
  cbn [bind fst snd] in Hrun.
  destruct (solve bicgstab spsolve lsqr solver K d_hat) as [x|e] eqn:Ex;
    [|discriminate].
  cbn [bind] in Hrun. exists K, d_hat, x.
  split; [reflexivity|]. split; [exact Ex|].
  unfold SpringRank_groups_scores in Hrun.
  cbn [dict_set] in Hrun. unfold dict_get at 1 in Hrun.
  cbn [dict_find] in Hrun. rewrite String.eqb_refl in Hrun.
  cbn [bind] in Hrun.
  rewrite (dict_collect_map ncols G Hnd) in Hrun.
  match type of Hrun with
  | bind ?loop _ = _ => destruct loop as [[[ranks' scores'] prev']|e] eqn:Eloop
  end; [|discriminate].
  cbn [bind] in Hrun. inversion Hrun; subst ranks' scores'.
  assert (Hsl : slice x 0 (nrows A) = firstn (nrows A) x).
  { unfold slice. now rewrite Nat.sub_0_r. }
  rewrite Hsl in Eloop.
  apply (scores_loop_slices G x (nrows A) Hnd Hind G []
           (firstn (nrows A) x) [(individual, firstn (nrows A) x)]
           (nrows A) ranks scores prev'); try reflexivity.
  - cbn. lia.
  - cbn [map concat snd]. now rewrite app_nil_r.
  - intros a t G_t Ha. destruct a; discriminate.
  - exact Eloop.
Qed.

(** *** Self-loops *)

Lemma matrix_ext (A B : matrix R) :
  nrows A = nrows B -> ncols A = ncols B ->
  (forall i j, entry A i j = entry B i j) -> A = B.
Proof.
  destruct A as [ra ca ea], B as [rb cb eb]. cbn [nrows ncols entry].
  intros -> -> He. f_equal.
  apply functional_extensionality. intro i.
  apply functional_extensionality. intro j. apply He.
Qed.

Lemma sumn_without (n i : nat) (f : nat -> R) :
  i < n ->
  sumn n (fun j => if j =? i then rO else f j) = sumn n f [-] f i.
Proof.
  intro Hi.
  rewrite <- (sumn_delta n i f Hi), <- sumn_sub.
  apply sumn_ext. intros j _. destruct (j =? i); ring.
Qed.

Lemma without_self_loops_row_sums (A : matrix R) :
  ncols A = nrows A ->
  row_sums (without_self_loops A)
  = map (fun i => k_out_at A i [-] entry A i i) (seq 0 (nrows A)).
Proof.
  intro Hsq. unfold row_sums. cbn [nrows ncols without_self_loops entry].
  apply map_ext_in. intros i Hi. apply in_seq in Hi.
  replace (i <? nrows A) with true by (symmetry; apply Nat.ltb_lt; lia).
  rewrite (sumn_ext (ncols A) _
             (fun j => if j =? i then rO else entry A i j)).
  - unfold k_out_at.
    apply (sumn_without (ncols A) i (fun j => entry A i j)). lia.
  - intros j _. rewrite andb_true_r. now rewrite (Nat.eqb_sym i j).
Qed.

Lemma without_self_loops_col_sums (A : matrix R) :
  ncols A = nrows A ->
  col_sums (without_self_loops A)
  = map (fun j => k_in_at A j [-] entry A j j) (seq 0 (nrows A)).
Proof.
  intro Hsq. unfold col_sums. cbn [nrows ncols without_self_loops entry].
  rewrite Hsq. apply map_ext_in. intros j Hj. apply in_seq in Hj.
  rewrite (sumn_ext (nrows A) _
             (fun i => if i =? j then rO else entry A i j)).
  - unfold k_in_at.
    apply (sumn_without (nrows A) j (fun i => entry A i j)). lia.
  - intros i Hi.
    replace (i <? nrows A) with true by (symmetry; apply Nat.ltb_lt; lia).
    now rewrite andb_true_r.
Qed.

(** The difference of the degrees does not see the self-loops. *)
Lemma without_self_loops_k_diff (A : matrix R) :
  ncols A = nrows A ->
  vzip rsub (row_sums (without_self_loops A))
       (col_sums (without_self_loops A))
  = vzip rsub (row_sums A) (col_sums A).
Proof.
  intro Hsq.
  rewrite (without_self_loops_row_sums A Hsq).
  rewrite (without_self_loops_col_sums A Hsq).
  rewrite vzip_map_seq, (degrees_zip rsub A Hsq).
  apply map_ext. intro i. ring.
Qed.

(** The diagonal of [diag(k_out + k_in) - A - A^T] does not see them
    either, at any index. *)
Lemma without_self_loops_diagonal (A : matrix R) (i : nat) :
  ncols A = nrows A ->
  vnth (vzip radd (row_sums (without_self_loops A))
             (col_sums (without_self_loops A))) i
  [+] (entry A i i [+] entry A i i)
  = vnth (vzip radd (row_sums A) (col_sums A)) i
    [+] (entry (without_self_loops A) i i
         [+] entry (without_self_loops A) i i).
Proof.
  intro Hsq.
  rewrite (without_self_loops_row_sums A Hsq).
  rewrite (without_self_loops_col_sums A Hsq).
  rewrite vzip_map_seq, (degrees_zip radd A Hsq).
  cbn [entry without_self_loops]. rewrite Nat.eqb_refl. cbn [andb].
  destruct (Nat.lt_ge_cases i (nrows A)) as [Hlt | Hge].
  - replace (i <? nrows A) with true by (symmetry; apply Nat.ltb_lt; lia).
    rewrite !vnth_map_seq by exact Hlt. ring.
  - replace (i <? nrows A) with false by (symmetry; apply Nat.ltb_ge; lia).
    unfold vnth.
    rewrite !nth_overflow by (rewrite length_map, length_seq; exact Hge).
    reflexivity.
Qed.

Lemma without_self_loops_off_diagonal (A : matrix R) (i j : nat) :
  i <> j -> entry (without_self_loops A) i j = entry A i j.
Proof.
  intro Hne. cbn [entry without_self_loops].
  now replace (i =? j) with false by (symmetry; apply Nat.eqb_neq; lia).
Qed.

Ltac self_loop_entries A Hsq i j :=
  destruct (Nat.eq_dec i j) as [<- | Hne];
  [ rewrite !Nat.eqb_refl;
    pose proof (without_self_loops_diagonal A i Hsq) as Hd;
    match type of Hd with
    | ?x [+] ?a = ?y [+] ?b =>
        replace x with (y [+] b [-] a) by (rewrite <- Hd; ring)
    end; ring
  | rewrite (without_self_loops_off_diagonal A i j Hne);
    rewrite (without_self_loops_off_diagonal A j i (not_eq_sym Hne));
    replace (i =? j) with false by (symmetry; apply Nat.eqb_neq; lia);
    reflexivity ].

Ltac loop_shapes Hsq :=
  cbn [nrows ncols diag mminus mplus scale eye transpose without_self_loops];
  rewrite ?vzip_length;
  rewrite ?row_sums_length, ?col_sums_length;
  cbn [nrows ncols without_self_loops]; lia.

Lemma without_self_loops_laplacian (A : matrix R) :
  ncols A = nrows A ->
  laplacian_of (without_self_loops A) = laplacian_of A.
Proof.
  intro Hsq. apply matrix_ext.
  - unfold laplacian_of. loop_shapes Hsq.
  - unfold laplacian_of. loop_shapes Hsq.
  - intros i j. unfold laplacian_of.
    cbn [entry mminus mplus diag transpose].
    self_loop_entries A Hsq i j.
Qed.

Lemma without_self_loops_csr_system (A : matrix R) :
  ncols A = nrows A ->
  csr_SpringRank_system (without_self_loops A) = csr_SpringRank_system A.
Proof.
  intro Hsq.
  assert (HM : mminus (mminus (diag (vzip radd
                                       (row_sums (without_self_loops A))
                                       (col_sums (without_self_loops A))))
                              (without_self_loops A))
                      (transpose (without_self_loops A))
               = mminus (mminus (diag (vzip radd (row_sums A) (col_sums A)))
                                A)
                        (transpose A)).
  { apply matrix_ext.
    - loop_shapes Hsq.
    - loop_shapes Hsq.
    - intros i j. cbn [entry mminus mplus diag transpose].
      self_loop_entries A Hsq i j. }
  unfold csr_SpringRank_system.
  rewrite !vadd_ok by loop_shapes Hsq.
  cbn [bind].
  rewrite !msub_ok by loop_shapes Hsq.
  cbn [bind].
  rewrite !msub_ok by loop_shapes Hsq.
  cbn [bind].
  rewrite !vsub_ok by loop_shapes Hsq.
  rewrite (without_self_loops_k_diff A Hsq), HM.
  reflexivity.
Qed.

Lemma without_self_loops_regularized_system (A : matrix R) (alpha : R) :
  ncols A = nrows A ->
  SpringRank_regularized_system (without_self_loops A) alpha
  = SpringRank_regularized_system A alpha.
Proof.
  intro Hsq.
  assert (HM : mminus (mplus (scale alpha (eye (nrows A)))
                             (diag (vzip radd
                                      (row_sums (without_self_loops A))
                                      (col_sums (without_self_loops A)))))
                      (mplus (without_self_loops A)
                             (transpose (without_self_loops A)))
               = mminus (mplus (scale alpha (eye (nrows A)))
                               (diag (vzip radd (row_sums A) (col_sums A))))
                        (mplus A (transpose A))).
  { apply matrix_ext.
    - loop_shapes Hsq.
    - loop_shapes Hsq.
    - intros i j. cbn [entry mminus mplus diag transpose scale eye].
      self_loop_entries A Hsq i j. }
  unfold SpringRank_regularized_system.
  rewrite !madd_ok by loop_shapes Hsq.
  cbn [bind].
  rewrite !vadd_ok by loop_shapes Hsq.
  cbn [bind].
  rewrite !vsub_ok by loop_shapes Hsq.
  cbn [bind].
  rewrite !madd_ok by loop_shapes Hsq.
  cbn [bind].
  rewrite !msub_ok by loop_shapes Hsq.
  cbn [bind].
  rewrite (without_self_loops_k_diff A Hsq).
  change (nrows (without_self_loops A)) with (nrows A).
  rewrite HM. reflexivity.
Qed.

(** X12: [SpringRank] does not see self-loops: on a square [A], both
    branches hand the solver the same system for [A] and for [A] with a
    zero diagonal, so the ranks are the same whatever the solver does. *)
Theorem SpringRank_ignores_self_loops
        (bicgstab : matrix R -> vec R -> result (vec R * Z))
        (A : matrix R) (alpha : R) :
  ncols A = nrows A ->
  csr_SpringRank_system (without_self_loops A) = csr_SpringRank_system A /\
  SpringRank_regularized_system (without_self_loops A) alpha
  = SpringRank_regularized_system A alpha /\
  SpringRank bicgstab (without_self_loops A) alpha
  = SpringRank bicgstab A alpha.
Proof.
  intro Hsq.
  pose proof (without_self_loops_csr_system A Hsq) as Hcsr.
  pose proof (without_self_loops_regularized_system A alpha Hsq) as Hreg.
  split; [exact Hcsr|]. split; [exact Hreg|].
  unfold SpringRank, csr_SpringRank. now rewrite Hcsr, Hreg.
Qed.

(** X13: [SpringRank_groups] does not see self-loops either: the call on
    [A] with a zero diagonal assembles the same system and returns what
    the call on [A] returns. *)
Theorem SpringRank_groups_ignores_self_loops
        (bicgstab : matrix R -> vec R -> result (vec R * Z))
        (spsolve : matrix R -> vec R -> result (vec R))
        (lsqr : matrix R -> vec R -> result (vec R * Z))
        (A : matrix R) (G : dict (matrix R)) (reg_coeff : dict R)
        (solver : string) :
  SpringRank_groups_system (without_self_loops A) G reg_coeff
  = SpringRank_groups_system A G reg_coeff /\
  SpringRank_groups bicgstab spsolve lsqr (without_self_loops A) G
                    reg_coeff solver
  = SpringRank_groups bicgstab spsolve lsqr A G reg_coeff solver.
Proof.
  assert (Hsys : SpringRank_groups_system (without_self_loops A) G reg_coeff
                 = SpringRank_groups_system A G reg_coeff).
  { cbv beta zeta delta [SpringRank_groups_system].
    change (nrows (without_self_loops A)) with (nrows A).
    change (ncols (without_self_loops A)) with (ncols A).
    destruct (nrows A =? ncols A) eqn:E; [|reflexivity].
    apply Nat.eqb_eq in E. assert (Hsq : ncols A = nrows A) by lia.
    cbn [assert bind].
    rewrite !vadd_ok by loop_shapes Hsq.
    cbn [bind].
    rewrite !madd_ok by loop_shapes Hsq.
    cbn [bind].
    rewrite !msub_ok by loop_shapes Hsq.
    cbn [bind].
    fold (laplacian_of (without_self_loops A)). fold (laplacian_of A).
    rewrite (without_self_loops_laplacian A Hsq).
    rewrite !vsub_ok by loop_shapes Hsq.
    rewrite (without_self_loops_k_diff A Hsq).
    reflexivity. }
  split; [exact Hsys|].
  unfold SpringRank_groups. rewrite Hsys. reflexivity.
Qed.

(** *** Reversed edges *)

Lemma vzip_radd_comm (u v : vec R) : vzip radd u v = vzip radd v u.
Proof.
  revert v. induction u as [|a u IH]; intros [|b v]; cbn [vzip];
    try reflexivity.
  rewrite IH. f_equal. ring.
Qed.

Lemma vzip_rsub_opp (u v : vec R) :
  vzip rsub v u = map ropp (vzip rsub u v).
Proof.
  revert v. induction u as [|a u IH]; intros [|b v]; cbn [vzip map];
    try reflexivity.
  rewrite IH. f_equal. ring.
Qed.

Lemma vnth_map_opp (v : vec R) (k : nat) :
  vnth (map ropp v) k = ropp (vnth v k).
Proof.
  unfold vnth. revert k. induction v as [|a v IH]; intros [|k]; cbn [map nth];
    try reflexivity; try ring.
  apply IH.
Qed.

Lemma mvmul_opp (M : matrix R) (v : vec R) :
  mvmul M (map ropp v) = map ropp (mvmul M v).
Proof.
  unfold mvmul. rewrite map_map. apply map_ext. intro i.
  rewrite (sumn_ext (ncols M) _
             (fun k => ropp rI [*] (entry M i k [*] vnth v k)))
    by (intros k _; rewrite vnth_map_opp; ring).
  rewrite sumn_mul_l. ring.
Qed.

Lemma transpose_laplacian_of (A : matrix R) :
  laplacian_of (transpose A) = laplacian_of A.
Proof.
  unfold laplacian_of.
  change (row_sums (transpose A)) with (col_sums A).
  change (col_sums (transpose A)) with (row_sums A).
  rewrite (vzip_radd_comm (col_sums A) (row_sums A)).
  apply matrix_ext; try reflexivity.
  intros i j. cbn [entry mminus mplus diag transpose]. ring.
Qed.

(** X14: reversing every edge of a square [A] leaves the operator of
    [csr_SpringRank] unchanged and negates its right-hand side, so the
    exact ranks of the reversed network are the opposite ranks. *)
Theorem csr_SpringRank_reversed_edges
        (A operator : matrix R) (b : vec R) :
  ncols A = nrows A ->
  csr_SpringRank_system A = Ok (operator, b) ->
  csr_SpringRank_system (transpose A) = Ok (operator, map ropp b).
Proof.
  intros Hsq Hsys.
  destruct (csr_SpringRank_system_entries A Hsq)
    as (op & Hsys1 & Hr & Hc & He).
  rewrite Hsys in Hsys1. injection Hsys1 as Hop Hb. subst op.
  assert (Hsq' : ncols (transpose A) = nrows (transpose A))
    by (cbn [nrows ncols transpose]; lia).
  destruct (csr_SpringRank_system_entries (transpose A) Hsq')
    as (op' & Hsys' & Hr' & Hc' & He').
  rewrite Hsys'. cbn [nrows transpose] in *. rewrite Hsq in *.
  f_equal. f_equal.
  - apply matrix_ext; [congruence | congruence |].
    intros i j. rewrite He, He'.
    destruct ((i =? 0) && (j =? nrows A)); [reflexivity|].
    destruct ((i =? nrows A) && (j =? 0)); [reflexivity|].
    destruct ((i <? nrows A) && (j <? nrows A)); [|reflexivity].
    unfold laplacian, k_in_at, k_out_at.
    cbn [entry nrows ncols transpose]. destruct (i =? j); ring.
  - rewrite Hb, map_app, map_map. cbn [map]. f_equal.
    + apply map_ext. intro i. unfold k_in_at, k_out_at.
      cbn [entry nrows ncols transpose]. ring.
    + f_equal. ring.
Qed.

(** X15: reversing every edge leaves the operator of the grouped system
    unchanged and negates its right-hand side. *)
Theorem SpringRank_groups_reversed_edges
        (A : matrix R) (G : dict (matrix R)) (reg_coeff : dict R)
        (lambda_0 : R) (K : matrix R) (d_hat : vec R) :
  ncols A = nrows A ->
  NoDup (keys G) ->
  (forall kv, In kv G -> nrows (snd kv) = nrows A) ->
  dict_find reg_coeff individual = Some lambda_0 ->
  (forall kl, In kl reg_coeff -> fst kl <> individual ->
              In (fst kl) (keys G)) ->
  SpringRank_groups_system A G reg_coeff = Ok (K, d_hat) ->
  SpringRank_groups_system (transpose A) G reg_coeff
  = Ok (K, map ropp d_hat).
Proof.
  intros Hsq HndG Hrows Hind Hkeys Hsys.
  rewrite (SpringRank_groups_system_closed A G reg_coeff lambda_0
             Hsq HndG Hrows Hind Hkeys) in Hsys.
  injection Hsys as HK Hd. subst K d_hat.
  rewrite (SpringRank_groups_system_closed (transpose A) G reg_coeff
             lambda_0).
  - f_equal. f_equal.
    + unfold groups_operator. cbv zeta.
      rewrite transpose_laplacian_of.
      cbn [nrows transpose]. now rewrite Hsq.
    + unfold groups_rhs. cbv zeta.
      change (row_sums (transpose A)) with (col_sums A).
      change (col_sums (transpose A)) with (row_sums A).
      rewrite (vzip_rsub_opp (row_sums A) (col_sums A)).
      rewrite !fold_left_app_concat, map_app. f_equal.
      rewrite concat_map, map_map. f_equal.
      apply map_ext. intro kl. apply mvmul_opp.
  - cbn [nrows ncols transpose]. lia.
  - exact HndG.
  - intros kv Hin. cbn [nrows transpose]. rewrite Hsq. now apply Hrows.
  - exact Hind.
  - exact Hkeys.
Qed.

End RankEngineProperties.

(** ** Integer arrays: concrete runs of the rank engine *)

Section IntegerRuns.

Open Scope string_scope.
Open Scope Z_scope.

Ltac distinct_keys :=
  repeat constructor; simpl; intuition discriminate.

Ltac rows_match :=
  simpl; intros kv Hkv;
  repeat (destruct Hkv as [<- | Hkv]; [reflexivity|]); contradiction.

(** A run of the unconstrained mode (C6). *)
Lemma csr_SpringRank_lagrange_system_witness :
  ncols A_edge = nrows A_edge /\
  exists operator : matrix Z,
    csr_SpringRank_system A_edge
    = Ok (operator, [1; -1; 0]) /\
    nrows operator = 3%nat /\
    entry operator 2 0 = 1 /\ entry operator 0 2 = 1 /\
    entry operator 2 2 = 0 /\
    SpringRank bicgstab_converged A_edge 0 = Ok [1; -1].
Proof.
  split; [reflexivity|].
  destruct (csr_SpringRank_lagrange_system
              (ops := Z_scalars) Zth Z.eqb_eq
              bicgstab_converged A_edge eq_refl)
    as (operator & Hsys & Hr & Hc & Hblock & Hborder & Hrun & Hcut).
  exists operator. split; [exact Hsys|]. split; [exact Hr|].
  split; [apply (Hborder 2%nat 0%nat); simpl; lia|].
  split; [apply (Hborder 0%nat 2%nat); simpl; lia|].
  split; [apply (Hborder 2%nat 2%nat); simpl; lia|].
  apply (Hcut [1; -1; 0] 0); reflexivity.
Defined.

(** A run of the regularized mode (C1): the right-hand side is
    [alpha + (k_out - k_in)]. *)
Lemma SpringRank_regularized_rhs_shifted_witness :
  ncols A_edge = nrows A_edge /\ 1 <> 0 /\
  exists operator : matrix Z,
    SpringRank_regularized_system A_edge 1
    = Ok (operator, [2; 0]) /\
    SpringRank bicgstab_converged A_edge 1 = Ok [2; 0].
Proof.
  split; [reflexivity|]. split; [discriminate|].
  destruct (SpringRank_regularized_rhs_shifted
              (ops := Z_scalars) Zth Z.eqb_eq
              bicgstab_converged A_edge 1 eq_refl ltac:(discriminate))
    as (operator & Hsys & Hr & Hc & Hentry & Hrun).
  exists operator. split; [exact Hsys|]. reflexivity.
Defined.

(** C1 as stated fails: on the edge [0 -> 1] with [alpha = 1] the solver is
    given the right-hand side [[2; 0]], while [k_out - k_in = [1; -1]]. *)
Lemma SpringRank_regularized_rhs_counterexample :
  ncols A_edge = nrows A_edge /\ 0 < 1 /\
  vsub (row_sums A_edge) (col_sums A_edge)
  = Ok [1; -1] /\
  exists operator B,
    SpringRank_regularized_system A_edge 1
    = Ok (operator, B) /\
    B = [2; 0] /\ B <> [1; -1].
Proof.
  split; [reflexivity|]. split; [reflexivity|]. split; [reflexivity|].
  eexists. eexists. split; [reflexivity|]. split; [reflexivity|].
  discriminate.
Qed.

(** Two runs that stop at the same iterate, one converged and one not (C2). *)
Lemma bicgstab_info_discarded_witness :
  same_iterate bicgstab_converged bicgstab_stalled /\
  bicgstab_stalled A_edge [1; -1] = Ok ([1; -1], 1) /\
  SpringRank bicgstab_converged A_edge 1
  = SpringRank bicgstab_stalled A_edge 1.
Proof.
  assert (H : same_iterate bicgstab_converged bicgstab_stalled)
    by (intros K d; reflexivity).
  split; [exact H|]. split; [reflexivity|].
  exact (proj1 (proj2 (bicgstab_info_discarded
                         (ops := Z_scalars)
                         bicgstab_converged bicgstab_stalled
                         spsolve_run lsqr_run A_edge 1 G_two [] "bicgstab"
                         H))).
Defined.

(** C2 as stated fails: nothing the caller can compute from the result of
    [SpringRank] tells a solve that ran out of iterations from one that
    converged. *)
Lemma nonconvergence_signal_counterexample :
  ~ exists detect : result (list Z) -> bool,
      forall (bicgstab : matrix Z -> list Z -> result (list Z * Z))
             (operator : matrix Z) (b : list Z),
        csr_SpringRank_system A_edge = Ok (operator, b) ->
        (detect (SpringRank bicgstab A_edge 0) = true <->
         exists x info, bicgstab operator b = Ok (x, info) /\ info <> 0).
Proof.
  intros [detect H].
  destruct (csr_SpringRank_system A_edge)
    as [[operator b]|e] eqn:Hsys; [|discriminate].
  pose proof (H bicgstab_converged operator b eq_refl) as Hconv.
  pose proof (H bicgstab_stalled operator b eq_refl) as Hstall.
  assert (Hsame : SpringRank bicgstab_converged A_edge 0
                  = SpringRank bicgstab_stalled A_edge 0) by reflexivity.
  rewrite Hsame in Hconv.
  assert (Hdet : detect (SpringRank bicgstab_stalled A_edge 0) = true).
  { apply Hstall. exists b, 1. split; [reflexivity | discriminate]. }
  apply Hconv in Hdet. destruct Hdet as (x & info & Hrun & Hinfo).
  unfold bicgstab_converged in Hrun. inversion Hrun; subst. now apply Hinfo.
Qed.

(** A [reg_coeff] without ["individual"], and one without the key ["b"] of
    [G] (C4). *)
Lemma SpringRank_groups_reg_coeff_keys_witness :
  (dict_find reg_without_individual individual = None /\
   SpringRank_groups bicgstab_converged spsolve_run lsqr_run
                       A_edge G_two reg_without_individual "lsqr"
   = Err (KeyError individual)) /\
  (dict_find reg_without_b individual = Some 1 /\
   exists K d_hat,
     SpringRank_groups_system A_edge G_two reg_without_b
     = Ok (K, d_hat) /\
     nrows K = 4%nat /\ ncols K = 5%nat).
Proof.
  split.
  - split; [reflexivity|].
    destruct (proj1 (SpringRank_groups_reg_coeff_keys
                       (ops := Z_scalars)
                       bicgstab_converged spsolve_run lsqr_run
                       A_edge G_two reg_without_individual "lsqr") eq_refl)
      as (e & Hsys & Hrun & He).
    rewrite Hrun. f_equal.
    apply He; [reflexivity | rows_match].
  - split; [reflexivity|].
    destruct (proj2 (SpringRank_groups_reg_coeff_keys
                       (ops := Z_scalars)
                       bicgstab_converged spsolve_run lsqr_run
                       A_edge G_two reg_without_b "lsqr")
                    1 eq_refl eq_refl)
      as (K & d_hat & Hsys & Hr & Hc & Hrun).
    + unfold G_two. distinct_keys.
    + rows_match.
    + simpl. intros kl [<- | [<- | []]] Hne; simpl in *;
        [contradiction | now left].
    + exists K, d_hat. split; [exact Hsys|]. split; [exact Hr | exact Hc].
Defined.

(** C4 as stated fails: [reg_coeff] lacks the key ["b"] of [G], yet no
    error is raised; a 4-by-5 system is assembled, [lsqr] is called on it
    and the call returns ranks and scores. *)
Lemma SpringRank_groups_missing_key_counterexample :
  In "b" (keys G_two) /\
  ~ In "b" (keys reg_without_b) /\
  (exists K d_hat,
     SpringRank_groups_system A_edge G_two reg_without_b
     = Ok (K, d_hat) /\ nrows K = 4%nat /\ ncols K = 5%nat) /\
  SpringRank_groups bicgstab_converged spsolve_run lsqr_run
                      A_edge G_two reg_without_b "lsqr"
  = Ok ([0; 0], [("individual", [0; 0]); ("a", [0; 0]); ("b", [0])]).
Proof.
  split; [simpl; auto|]. split; [simpl; intuition discriminate|].
  split; [|reflexivity].
  eexists. eexists. split; [reflexivity|]. split; reflexivity.
Qed.

(** [reg_coeff] in the order of [G] (C5): the operator is symmetric. *)
Lemma SpringRank_groups_operator_blocks_witness :
  ncols A_edge = nrows A_edge /\
  dict_find reg_ordered individual = Some 1 /\
  keys (filter nonind reg_ordered) = keys G_two /\
  exists K d_hat,
    SpringRank_groups_system A_edge G_two reg_ordered = Ok (K, d_hat) /\
    nrows K = 5%nat /\ ncols K = 5%nat /\
    (forall i j, (i < 5)%nat -> (j < 5)%nat -> entry K i j = entry K j i).
Proof.
  split; [reflexivity|]. split; [reflexivity|]. split; [reflexivity|].
  destruct (SpringRank_groups_operator_blocks
              (ops := Z_scalars) Zth
              A_edge G_two reg_ordered 1 eq_refl)
    as (K & d_hat & Hsys & Hr & Hc & Hsym & _).
  - unfold G_two. distinct_keys.
  - unfold reg_ordered. distinct_keys.
  - rows_match.
  - reflexivity.
  - reflexivity.
  - exists K, d_hat. split; [exact Hsys|]. split; [exact Hr|].
    split; [exact Hc | exact Hsym].
Defined.

(** C5 as stated fails: with the same keys in another order, here
    [individual, b, a] against [a, b] in [G], the rows of [b] come before
    the rows of [a] while the columns of [a] come before the columns of
    [b], and the operator is not symmetric. *)
Lemma SpringRank_groups_operator_order_counterexample :
  ncols A_edge = nrows A_edge /\
  (forall t, In t (individual :: keys G_two) -> In t (keys reg_swapped)) /\
  exists K d_hat,
    SpringRank_groups_system A_edge G_two reg_swapped = Ok (K, d_hat) /\
    nrows K = 5%nat /\ ncols K = 5%nat /\
    entry K 0 2 = 1 /\ entry K 2 0 = 0 /\
    entry K 2 2 = 0 /\ entry K 2 4 = 1.
Proof.
  split; [reflexivity|]. split.
  - simpl. intuition.
  - eexists. eexists. split; [reflexivity|]. repeat split.
Qed.



(** *** Errors of the grouped mode *)

Lemma SpringRank_groups_rejects_nonsquare_witness :
  ncols A_row <> nrows A_row /\
  SpringRank_groups bicgstab_converged spsolve_run lsqr_run
                    A_row G_two reg_ordered "bicgstab"
  = Err AssertionError.
Proof.
  split; [discriminate|].
  apply (SpringRank_groups_rejects_nonsquare (ops := Z_scalars)).
  discriminate.
Defined.

Lemma SpringRank_groups_rejects_group_rows_witness :
  In ("a", Zrows 1 1 [[1]]) G_short /\
  SpringRank_groups bicgstab_converged spsolve_run lsqr_run
                    A_edge G_short reg_without_individual "bicgstab"
  = Err ValueError.
Proof.
  split; [now left|].
  apply (SpringRank_groups_rejects_group_rows
           (ops := Z_scalars) bicgstab_converged spsolve_run lsqr_run
           A_edge G_short reg_without_individual "bicgstab"
           ("a", Zrows 1 1 [[1]])).
  - reflexivity.
  - now left.
  - discriminate.
Defined.

Lemma SpringRank_groups_unknown_group_type_witness :
  ~ In "c" (keys G_two) /\
  SpringRank_groups bicgstab_converged spsolve_run lsqr_run
                    A_edge G_two reg_unknown "bicgstab"
  = Err (KeyError "c").
Proof.
  split; [simpl; intuition discriminate|].
  apply (SpringRank_groups_unknown_group_type
           (ops := Z_scalars) bicgstab_converged spsolve_run lsqr_run
           A_edge G_two "bicgstab"
           [("individual", 1); ("a", 1)] [] "c" 1 1).
  - reflexivity.
  - distinct_keys.
  - rows_match.
  - reflexivity.
  - intros kl [<- | [<- | []]] Hne; [now contradiction Hne | now left].
  - discriminate.
  - simpl. intuition discriminate.
Defined.

Lemma SpringRank_groups_solver_fallback_witness :
  "cg" <> "spsolve" /\ "cg" <> "lsqr" /\
  SpringRank_groups bicgstab_converged spsolve_run lsqr_run
                    A_edge G_two reg_ordered "cg"
  = SpringRank_groups bicgstab_converged spsolve_run lsqr_run
                      A_edge G_two reg_ordered "bicgstab".
Proof.
  split; [discriminate|]. split; [discriminate|].
  apply (SpringRank_groups_solver_fallback (ops := Z_scalars));
    discriminate.
Defined.

(** *** Exact solutions *)

(** The system of the edge [0 -> 1] has the solution [[0; -1; 0]]: node
    [0] at zero, node [1] one below it, multiplier zero. *)
Lemma csr_SpringRank_exact_solution_witness :
  exists operator : matrix Z,
    csr_SpringRank_system A_edge = Ok (operator, [1; -1; 0]) /\
    solves operator [1; -1; 0] [0; -1; 0] /\
    csr_SpringRank bicgstab_exact A_edge = Ok [0; -1] /\
    mvmul (laplacian A_edge) [0; -1] = [1; -1].
Proof.
  destruct (csr_SpringRank_system_entries
              (ops := Z_scalars) Zth A_edge eq_refl)
    as (operator & Hsys & Hr & Hc & He).
  exists operator. split; [exact Hsys|].
  assert (Hsol : solves operator [1; -1; 0] [0; -1; 0]).
  { split; [now rewrite Hc|]. unfold mvmul. rewrite Hr, Hc.
    cbn [seq map Nat.add nrows A_edge Zrows of_rows sumn].
    rewrite !He. reflexivity. }
  split; [exact Hsol|].
  destruct (csr_SpringRank_exact_solution
              (ops := Z_scalars) Zth bicgstab_exact A_edge operator
              [1; -1; 0] [0; -1; 0] 0 eq_refl Hsys eq_refl Hsol)
    as (Hrun & _ & _ & HL).
  split; [exact Hrun | exact HL].
Defined.

(** Two nodes with an edge each way and [alpha = 1]: the solution is
    [[1; 1]], of sum two. *)
Lemma SpringRank_regularized_solution_sum_witness :
  exists operator : matrix Z,
    SpringRank_regularized_system A_mutual 1 = Ok (operator, [1; 1]) /\
    solves operator [1; 1] [1; 1] /\
    1 * vsum 2 [1; 1] = 1 * 2.
Proof.
  destruct (SpringRank_regularized_system_entries
              (ops := Z_scalars) Zth A_mutual 1 eq_refl)
    as (operator & Hsys & Hr & Hc & He).
  exists operator. split; [exact Hsys|].
  assert (Hsol : solves operator [1; 1] [1; 1]).
  { split; [now rewrite Hc|]. unfold mvmul. rewrite Hr, Hc.
    cbn [seq map Nat.add nrows A_mutual Zrows of_rows sumn].
    rewrite !He by (cbn; lia). reflexivity. }
  split; [exact Hsol|].
  exact (SpringRank_regularized_solution_sum
           (ops := Z_scalars) Zth A_mutual operator 1 [1; 1] [1; 1]
           eq_refl Hsys Hsol).
Defined.

Lemma SpringRank_operators_symmetric_witness :
  ncols A_edge = nrows A_edge /\
  (exists operator b,
     csr_SpringRank_system A_edge = Ok (operator, b) /\
     entry operator 0 1 = entry operator 1 0 /\
     entry operator 0 2 = entry operator 2 0) /\
  (exists operator B,
     SpringRank_regularized_system A_edge 1 = Ok (operator, B) /\
     entry operator 0 1 = entry operator 1 0).
Proof.
  split; [reflexivity|].
  destruct (SpringRank_operators_symmetric
              (ops := Z_scalars) Zth A_edge 1 eq_refl)
    as [(op & b & Hsys & Hsym) (op' & B & Hsys' & Hsym')].
  split.
  - exists op, b. split; [exact Hsys|]. split; apply Hsym.
  - exists op', B. split; [exact Hsys'|]. apply Hsym'; cbn; lia.
Defined.

Ltac known_keys :=
  simpl; intros kl Hkl Hne;
  repeat (destruct Hkl as [<- | Hkl];
          [first [now contradiction Hne | simpl; tauto]|]);
  contradiction.


Lemma SpringRank_groups_without_groups_witness :
  ncols A_edge = nrows A_edge /\
  exists (K K' : matrix Z),
    SpringRank_groups_system A_edge [] [(individual, 1)]
    = Ok (K, [1; -1]) /\
    SpringRank_regularized_system A_edge 1 = Ok (K', [2; 0]) /\
    entry K 0 1 = entry K' 0 1.
Proof.
  split; [reflexivity|].
  destruct (SpringRank_groups_without_groups
              (ops := Z_scalars) Zth A_edge 1 eq_refl)
    as (K & K' & d & Hsys & Hreg & _ & _ & _ & _ & Hentry & Hd).
  cbv in Hd. subst d. exists K, K'.
  split; [exact Hsys|]. split; [exact Hreg|].
  apply Hentry; cbn; lia.
Defined.

Lemma SpringRank_groups_rhs_blocks_witness :
  keys (filter nonind reg_ordered) = keys G_two /\
  exists (K : matrix Z) (d_hat : list Z),
    SpringRank_groups_system A_edge G_two reg_ordered = Ok (K, d_hat) /\
    length d_hat = 5%nat /\
    vnth d_hat 0 = 1 /\ vnth d_hat 2 = 1 /\ vnth d_hat 4 = 0.
Proof.
  split; [reflexivity|].
  destruct (SpringRank_groups_rhs_blocks
              (ops := Z_scalars) A_edge G_two reg_ordered 1 eq_refl
              ltac:(unfold G_two; distinct_keys) ltac:(rows_match)
              eq_refl eq_refl)
    as (K & d_hat & Hsys & Hlen & Hind & Hblocks).
  exists K, d_hat. split; [exact Hsys|]. split; [exact Hlen|].
  split; [apply (Hind 0%nat); cbn; lia|].
  split.
  - apply (Hblocks 0%nat "a" G_own 0%nat); [reflexivity | cbn; lia].
  - apply (Hblocks 1%nat "b" G_all 0%nat); [reflexivity | cbn; lia].
Defined.

Lemma SpringRank_groups_scores_partition_witness :
  NoDup (keys G_two) /\ ~ In individual (keys G_two) /\
  SpringRank_groups bicgstab_converged spsolve_run lsqr_run
                    A_edge G_two reg_ordered "bicgstab"
  = Ok ([2; -2], [("individual", [1; -1]); ("a", [1; -1]); ("b", [0])]) /\
  exists (K : matrix Z) (d_hat x : list Z),
    solve bicgstab_converged spsolve_run lsqr_run "bicgstab" K d_hat
    = Ok x /\
    [1; -1; 1; -1; 0] = firstn 5 x.
Proof.
  assert (Hnd : NoDup (keys G_two)) by (unfold G_two; distinct_keys).
  assert (Hind : ~ In individual (keys G_two))
    by (simpl; intuition discriminate).
  split; [exact Hnd|]. split; [exact Hind|]. split; [reflexivity|].
  destruct (SpringRank_groups_scores_partition
              (ops := Z_scalars)
              bicgstab_converged spsolve_run lsqr_run
              A_edge G_two reg_ordered "bicgstab"
              [2; -2] [("individual", [1; -1]); ("a", [1; -1]); ("b", [0])]
              Hnd Hind eq_refl)
    as (K & d_hat & x & _ & Hx & Hcat & _).
  exists K, d_hat, x. split; [exact Hx | exact Hcat].
Defined.

(** *** Self-loops and reversed edges *)

Lemma SpringRank_ignores_self_loops_witness :
  ncols A_loop = nrows A_loop /\
  entry A_loop 0 0 = 5 /\
  SpringRank bicgstab_converged (without_self_loops A_loop) 1
  = SpringRank bicgstab_converged A_loop 1.
Proof.
  split; [reflexivity|]. split; [reflexivity|].
  apply (SpringRank_ignores_self_loops
           (ops := Z_scalars) Zth bicgstab_converged A_loop 1 eq_refl).
Defined.

Lemma SpringRank_groups_ignores_self_loops_witness :
  SpringRank_groups bicgstab_converged spsolve_run lsqr_run
                    (without_self_loops A_loop) G_two reg_ordered "bicgstab"
  = SpringRank_groups bicgstab_converged spsolve_run lsqr_run
                      A_loop G_two reg_ordered "bicgstab".
Proof.
  apply (SpringRank_groups_ignores_self_loops
           (ops := Z_scalars) Zth bicgstab_converged spsolve_run lsqr_run
           A_loop G_two reg_ordered "bicgstab").
Defined.

Lemma csr_SpringRank_reversed_edges_witness :
  exists operator : matrix Z,
    csr_SpringRank_system A_edge = Ok (operator, [1; -1; 0]) /\
    csr_SpringRank_system (transpose A_edge) = Ok (operator, [-1; 1; 0]).
Proof.
  destruct (csr_SpringRank_system_entries
              (ops := Z_scalars) Zth A_edge eq_refl)
    as (operator & Hsys & _).
  exists operator. split; [exact Hsys|].
  exact (csr_SpringRank_reversed_edges
           (ops := Z_scalars) Zth A_edge operator [1; -1; 0] eq_refl Hsys).
Defined.

Lemma SpringRank_groups_reversed_edges_witness :
  exists K : matrix Z,
    SpringRank_groups_system A_edge G_two reg_ordered
    = Ok (K, [1; -1; 1; -1; 0]) /\
    SpringRank_groups_system (transpose A_edge) G_two reg_ordered
    = Ok (K, [-1; 1; -1; 1; 0]).
Proof.
  assert (Hnd : NoDup (keys G_two)) by (unfold G_two; distinct_keys).
  assert (Hrows : forall kv, In kv G_two -> nrows (snd kv) = nrows A_edge)
    by rows_match.
  assert (Hkeys : forall kl : string * Z,
             In kl reg_ordered -> fst kl <> individual ->
             In (fst kl) (keys G_two)) by known_keys.
  pose proof (SpringRank_groups_system_closed
                (ops := Z_scalars) A_edge G_two reg_ordered 1
                eq_refl Hnd Hrows eq_refl Hkeys) as Hsys.
  eexists. split; [exact Hsys|].
  exact (SpringRank_groups_reversed_edges
           (ops := Z_scalars) Zth A_edge G_two reg_ordered 1 _
           [1; -1; 1; -1; 0] eq_refl Hnd Hrows eq_refl Hkeys Hsys).
Defined.

End IntegerRuns.

(** ** The samplers *)

Section SamplerProperties.

Open Scope R_scope.

Context {RandomState : Type} {source : RandomSource RandomState}.

(** ** What the samplers compute *)


(** *** The expected number of edges *)

Lemma fold_left_Rsum {X : Type} (f : X -> R) (l : list X) (a : R) :
  fold_left (fun Z x => Z + f x) l a = a + Rsum (map f l).
Proof.
  revert a. induction l as [|x l IH]; intro a; simpl; [lra|].
  rewrite IH. lra.
Qed.

Lemma partition_sum_Rsum (w : nat * nat -> R) (N : nat) :
  partition_sum w N = Rsum (map w (pairs N)).
Proof. unfold partition_sum. rewrite fold_left_Rsum. lra. Qed.

Lemma Rsum_scale {X : Type} (c : R) (f : X -> R) (l : list X) :
  Rsum (map (fun x => c * f x) l) = c * Rsum (map f l).
Proof. induction l as [|x l IH]; simpl; [lra|]. rewrite IH. lra. Qed.

Lemma Rsum_filter_split {X : Type} (p : X -> bool) (f : X -> R)
      (l : list X) :
  Rsum (map f l)
  = Rsum (map f (filter p l)) + Rsum (map f (filter (fun x => negb (p x)) l)).
Proof.
  induction l as [|x l IH]; simpl; [lra|].
  destruct (p x); simpl; rewrite IH; lra.
Qed.

Lemma Rsum_const {X : Type} (f : X -> R) (v : R) (l : list X) :
  (forall x, In x l -> f x = v) -> Rsum (map f l) = INR (length l) * v.
Proof.
  induction l as [|x l IH]; intro H.
  - simpl. lra.
  - cbn [map Rsum fold_right length]. fold (Rsum (map f l)).
    rewrite IH by (intros y Hy; apply H; now right).
    rewrite (H x (or_introl eq_refl)), S_INR. lra.
Qed.

Lemma Rsum_pos {X : Type} (f : X -> R) (l : list X) :
  l <> [] -> (forall x, In x l -> 0 < f x) -> 0 < Rsum (map f l).
Proof.
  induction l as [|x l IH]; intros Hne Hpos; [contradiction|].
  simpl. pose proof (Hpos x (or_introl eq_refl)) as Hx.
  destruct l as [|y l].
  - simpl. lra.
  - assert (0 < Rsum (map f (y :: l))).
    { apply IH; [discriminate|]. intros z Hz. apply Hpos. now right. }
    simpl in *. lra.
Qed.

(** The diagonal pairs among [pairs N]. *)
Lemma filter_diag_row (x a n : nat) :
  filter (fun ij : nat * nat => (fst ij =? snd ij)%nat)
         (map (fun y => (x, y)) (seq a n))
  = if ((a <=? x) && (x <? a + n))%nat then [(x, x)] else [].
Proof.
  revert a. induction n as [|n IH]; intro a; simpl.
  - destruct (Nat.leb_spec a x), (Nat.ltb_spec x (a + 0)); cbn [andb];
      try reflexivity; lia.
  - rewrite IH.
    destruct (Nat.eqb_spec x a) as [Heq | Hne];
      destruct (Nat.leb_spec (S a) x), (Nat.ltb_spec x (S a + n)),
               (Nat.leb_spec a x), (Nat.ltb_spec x (a + S n));
      cbn [andb]; try subst x; try reflexivity; lia.
Qed.

Lemma filter_diag_pairs (N : nat) :
  filter (fun ij : nat * nat => (fst ij =? snd ij)%nat) (pairs N)
  = map (fun i => (i, i)) (seq 0 N).
Proof.
  unfold pairs.
  assert (Hgen : forall l, (forall x, In x l -> (x < N)%nat) ->
                           filter (fun ij : nat * nat => (fst ij =? snd ij)%nat)
                                  (list_prod l (seq 0 N))
                           = map (fun i => (i, i)) l).
  { induction l as [|x l IH]; intro Hl; simpl; [reflexivity|].
    rewrite filter_app, filter_diag_row, IH
      by (intros y Hy; apply Hl; now right).
    pose proof (Hl x (or_introl eq_refl)) as Hx.
    replace ((0 <=? x) && (x <? 0 + N))%nat with true
      by (symmetry; apply andb_true_intro; split;
          [apply Nat.leb_le | apply Nat.ltb_lt]; lia).
    reflexivity. }
  apply Hgen. intros x Hx. apply in_seq in Hx. lia.
Qed.

Lemma sampled_pairs_all (N : nat) : sampled_pairs N true = pairs N.
Proof.
  unfold sampled_pairs. cbn [negb]. induction (pairs N) as [|ij l IH];
    simpl; [reflexivity|].
  rewrite andb_false_r. cbn [negb]. now rewrite IH.
Qed.

Lemma sampled_pairs_off_diagonal (N : nat) :
  sampled_pairs N false
  = filter (fun ij => negb (fst ij =? snd ij)%nat) (pairs N).
Proof.
  unfold sampled_pairs. apply filter_ext. intro ij. cbn [negb].
  now rewrite andb_true_r.
Qed.

(** The edge loops draw once for every sampled pair, with mean
    [c * w[i, j]]. *)
Lemma planted_edge_loop_draws (c : R) (w : nat * nat -> R) (N : nat)
      (st : matrix R * RandomState) :
  foldM (planted_edge_step c w) (pairs N) st
  = foldM (planted_edge_step c w) (sampled_pairs N false) st.
Proof.
  rewrite sampled_pairs_off_diagonal. apply foldM_skip.
  intros a ij H. unfold planted_edge_step.
  apply negb_false_iff in H. now rewrite H.
Qed.

Lemma groups_edge_loop_draws (allow_self_loops : bool) (c : R)
      (w : nat * nat -> R) (N : nat) (st : DiGraph * RandomState) :
  foldM (groups_edge_step allow_self_loops c w) (pairs N) st
  = foldM (groups_edge_step allow_self_loops c w)
          (sampled_pairs N allow_self_loops) st.
Proof.
  unfold sampled_pairs. apply foldM_skip.
  intros a ij H. unfold groups_edge_step.
  apply negb_false_iff in H. now rewrite H.
Qed.

Lemma expected_edges_all (c : R) (w : nat * nat -> R) (N : nat) :
  Rsum (poisson_means c w N true) = c * partition_sum w N.
Proof.
  unfold poisson_means. rewrite sampled_pairs_all, Rsum_scale.
  now rewrite partition_sum_Rsum.
Qed.

Lemma expected_edges_off_diagonal (c : R) (w : nat * nat -> R) (N : nat)
      (v : R) :
  (forall i, w (i, i) = v) ->
  Rsum (poisson_means c w N false)
  = c * partition_sum w N - c * (INR N * v).
Proof.
  intro Hdiag. unfold poisson_means.
  rewrite sampled_pairs_off_diagonal, Rsum_scale, partition_sum_Rsum.
  rewrite (Rsum_filter_split (fun ij => negb (fst ij =? snd ij)%nat)
                             w (pairs N)).
  assert (Hd : Rsum (map w (filter (fun x : nat * nat =>
                                      negb (negb (fst x =? snd x)%nat))
                                   (pairs N)))
               = INR N * v).
  { rewrite (filter_ext _ (fun ij : nat * nat => (fst ij =? snd ij)%nat))
      by (intro ij; apply negb_involutive).
    rewrite filter_diag_pairs.
    rewrite (Rsum_const w v).
    - now rewrite length_map, length_seq.
    - intros x Hx. apply in_map_iff in Hx. destruct Hx as (i & <- & _).
      apply Hdiag. }
  rewrite Hd. lra.
Qed.

Lemma partition_sum_pos (w : nat * nat -> R) (N : nat) :
  (1 <= N)%nat -> (forall ij, 0 < w ij) -> 0 < partition_sum w N.
Proof.
  intros HN Hw. rewrite partition_sum_Rsum. apply Rsum_pos.
  - intro Hnil.
    assert (Hin : In (0%nat, 0%nat) (pairs N))
      by (unfold pairs; apply in_prod; apply in_seq; lia).
    rewrite Hnil in Hin. contradiction.
  - intros ij _. apply Hw.
Qed.

Lemma normalizer_ok (K : R) (N : nat) (Z : R) :
  (1 <= N)%nat -> normalizer K N Z = Ok (K * INR N / Z).
Proof.
  intro HN. unfold normalizer.
  now replace (N =? 0)%nat with false by (symmetry; apply Nat.eqb_neq; lia).
Qed.

(** The weights of the two samplers are the weights
    [exp(-beta * 0.5 * (rank_i - rank_j - l1)^2)], with [l1 = 1] in the
    ungrouped sampler. *)
Lemma scaled_energy_formula (beta : R) (ranks : list R) (i j : nat) :
  scaled_energy beta ranks (i, j)
  = exp (- beta * 0.5 * (rank_at ranks i - rank_at ranks j - 1) ^ 2).
Proof. unfold scaled_energy. cbn [fst snd]. f_equal. ring. Qed.

Lemma scaled_exp_energy_formula (beta l1 : R) (ranks : list R) (i j : nat) :
  scaled_exp_energy beta l1 ranks (i, j)
  = exp (- beta * 0.5 * (rank_at ranks i - rank_at ranks j - l1) ^ 2).
Proof. unfold scaled_exp_energy. cbn [fst snd]. f_equal. ring. Qed.

(** With the normalizer of the code, the means of the draws add up to
    [K*N] minus the share of the diagonal when the diagonal is skipped. *)
Lemma expected_edges_deficit (K : R) (N : nat) (w : nat * nat -> R)
      (v : R) :
  (1 <= N)%nat -> 0 < K ->
  (forall ij, 0 < w ij) -> (forall i, w (i, i) = v) ->
  let c := K * INR N / partition_sum w N in
  Rsum (poisson_means c w N true) = K * INR N /\
  Rsum (poisson_means c w N false) = K * INR N - c * (INR N * v) /\
  Rsum (poisson_means c w N false) < K * INR N.
Proof.
  intros HN HK Hw Hdiag c.
  pose proof (partition_sum_pos w N HN Hw) as HZ.
  assert (HNpos : 0 < INR N) by (apply lt_0_INR; lia).
  assert (Hc : c * partition_sum w N = K * INR N).
  { unfold c. field. lra. }
  assert (Hcpos : 0 < c).
  { unfold c. apply Rdiv_lt_0_compat; [|exact HZ].
    now apply Rmult_lt_0_compat. }
  assert (Hv : 0 < v) by (rewrite <- (Hdiag 0%nat); apply Hw).
  split; [|split].
  - now rewrite expected_edges_all.
  - now rewrite (expected_edges_off_diagonal c w N v Hdiag), Hc.
  - rewrite (expected_edges_off_diagonal c w N v Hdiag), Hc.
    assert (0 < c * (INR N * v)).
    { apply Rmult_lt_0_compat; [exact Hcpos|].
      now apply Rmult_lt_0_compat. }
    lra.
Qed.

Lemma scaled_energy_pos (beta : R) (ranks : list R) (ij : nat * nat) :
  0 < scaled_energy beta ranks ij.
Proof. unfold scaled_energy. apply exp_pos. Qed.

Lemma scaled_exp_energy_pos (beta l1 : R) (ranks : list R)
      (ij : nat * nat) :
  0 < scaled_exp_energy beta l1 ranks ij.
Proof. unfold scaled_exp_energy. apply exp_pos. Qed.

(** With the normalizer of either sampler, for [N >= 1] and [K > 0]: the
    means over the off-diagonal pairs add up to less than [K*N], the means
    over all pairs to [K*N]. *)
Lemma expected_edges_of_samplers (N : nat) (beta K l1 : R)
      (ranks : list R) :
  (1 <= N)%nat -> 0 < K ->
  (exists c,
     normalizer K N (partition_sum (scaled_energy beta ranks) N) = Ok c /\
     Rsum (poisson_means c (scaled_energy beta ranks) N false)
     = K * INR N - c * (INR N * exp (- beta * 0.5)) /\
     Rsum (poisson_means c (scaled_energy beta ranks) N false)
     < K * INR N) /\
  (exists c,
     normalizer K N (partition_sum (scaled_exp_energy beta l1 ranks) N)
     = Ok c /\
     Rsum (poisson_means c (scaled_exp_energy beta l1 ranks) N false)
     = K * INR N - c * (INR N * exp (- beta * (0.5 * l1 ^ 2))) /\
     Rsum (poisson_means c (scaled_exp_energy beta l1 ranks) N false)
     < K * INR N /\
     Rsum (poisson_means c (scaled_exp_energy beta l1 ranks) N true)
     = K * INR N).
Proof.
  intros HN HK. split.
  - eexists. split; [now apply normalizer_ok|].
    destruct (expected_edges_deficit K N (scaled_energy beta ranks)
                (exp (- beta * 0.5)) HN HK (scaled_energy_pos beta ranks))
      as (_ & Heq & Hlt).
    + intro i. unfold scaled_energy. cbn [fst snd]. f_equal. ring.
    + split; [exact Heq | exact Hlt].
  - eexists. split; [now apply normalizer_ok|].
    destruct (expected_edges_deficit K N (scaled_exp_energy beta l1 ranks)
                (exp (- beta * (0.5 * l1 ^ 2))) HN HK
                (scaled_exp_energy_pos beta l1 ranks))
      as (Hall & Heq & Hlt).
    + intro i. unfold scaled_exp_energy. cbn [fst snd]. f_equal. ring.
    + split; [exact Heq|]. split; [exact Hlt | exact Hall].
Qed.

(** *** No check of [beta] and [alpha] *)

(** The scale of the score draws is defined and positive as soon as the
    product [alpha * beta] is, whatever the signs of the two factors. *)
Lemma inv_sqrt_pos (x : R) : 0 < x -> 0 < 1 / sqrt x.
Proof.
  intro Hx. apply Rdiv_lt_0_compat; [lra|]. now apply sqrt_lt_R0.
Qed.

Lemma setitem_in_range (A : matrix R) (i j : nat) (x : R) :
  (i < nrows A)%nat -> (j < ncols A)%nat ->
  exists A', setitem A i j x = Ok A' /\
             nrows A' = nrows A /\ ncols A' = ncols A.
Proof.
  intros Hi Hj. unfold setitem.
  replace ((i <? nrows A)%nat && (j <? ncols A)%nat) with true
    by (symmetry; apply andb_true_intro; split; now apply Nat.ltb_lt).
  eexists. split; [reflexivity|]. now split.
Qed.

Lemma pairs_in_range (N : nat) (ij : nat * nat) :
  In ij (pairs N) -> (fst ij < N)%nat /\ (snd ij < N)%nat.
Proof.
  destruct ij as [i j]. unfold pairs. intro H. apply in_prod_iff in H.
  destruct H as [Hi Hj]. apply in_seq in Hi. apply in_seq in Hj.
  cbn [fst snd]. lia.
Qed.

Lemma assignment_matrix_ok (N n_i : nat) (groups_i : list nat) :
  length groups_i = N ->
  Forall (fun v => (v < n_i)%nat) groups_i ->
  exists G_i, assignment_matrix N n_i groups_i = Ok G_i /\
              nrows G_i = N /\ ncols G_i = n_i.
Proof.
  intros Hlen Hrange. unfold assignment_matrix.
  apply (foldM_total
           (fun G_i jg => setitem G_i (fst jg) (snd jg) 1)
           (fun G_i => nrows G_i = N /\ ncols G_i = n_i)).
  - now split.
  - intros G_i [j g_j] Hin [Hr Hc]. cbn [fst snd].
    pose proof (in_combine_l _ _ _ _ Hin) as Hj. apply in_seq in Hj.
    pose proof (in_combine_r _ _ _ _ Hin) as Hg.
    rewrite Forall_forall in Hrange. specialize (Hrange g_j Hg).
    destruct (setitem_in_range G_i j g_j 1) as (G' & HG' & Hr' & Hc');
      [lia | lia |].
    exists G'. split; [exact HG'|]. split; congruence.
Qed.

(** The edge loops raise only what a Poisson draw raises: the indices of
    the entries they set are inside the array. *)
Lemma planted_edge_loop_errors (c : R) (w : nat * nat -> R) (N : nat)
      (l : list (nat * nat)) :
  (forall ij, In ij l -> (fst ij < N)%nat /\ (snd ij < N)%nat) ->
  forall (A : matrix R) (s : RandomState) (e : exn),
    nrows A = N -> ncols A = N ->
    foldM (planted_edge_step c w) l (A, s) = Err e ->
    exists lam s', poisson lam s' = Err e.
Proof.
  induction l as [|ij l IH]; intros Hrange A s e Hr Hc Hrun.
  - discriminate.
  - assert (Hrange' : forall ij', In ij' l ->
                                  (fst ij' < N)%nat /\ (snd ij' < N)%nat)
      by (intros ij' Hin; apply Hrange; now right).
    cbn [foldM] in Hrun. unfold planted_edge_step at 1 in Hrun.
    cbn [fst snd] in Hrun.
    destruct (fst ij =? snd ij)%nat.
    + cbn [bind] in Hrun. exact (IH Hrange' A s e Hr Hc Hrun).
    + destruct (poisson (c * w ij) s) as [[a s1]|e'] eqn:Ep.
      * cbn [bind fst snd] in Hrun.
        destruct (Hrange ij (or_introl eq_refl)) as [Hi Hj].
        destruct (setitem_in_range A (fst ij) (snd ij) (INR a))
          as (A' & HA' & Hr' & Hc'); [lia | lia |].
        rewrite HA' in Hrun. cbn [bind] in Hrun.
        apply (IH Hrange' A' s1 e); [congruence | congruence | exact Hrun].
      * cbn [bind] in Hrun. inversion Hrun; subst. eauto.
Qed.

Lemma groups_edge_loop_errors (allow_self_loops : bool) (c : R)
      (w : nat * nat -> R) (l : list (nat * nat)) :
  forall (A : DiGraph) (s : RandomState) (e : exn),
    foldM (groups_edge_step allow_self_loops c w) l (A, s) = Err e ->
    exists lam s', poisson lam s' = Err e.
Proof.
  induction l as [|ij l IH]; intros A s e Hrun.
  - discriminate.
  - cbn [foldM] in Hrun. unfold groups_edge_step at 1 in Hrun.
    cbn [fst snd] in Hrun.
    destruct ((fst ij =? snd ij)%nat && negb allow_self_loops).
    + cbn [bind] in Hrun. exact (IH A s e Hrun).
    + destruct (poisson (c * w ij) s) as [[a s1]|e'] eqn:Ep.
      * cbn [bind fst snd] in Hrun.
        destruct (0 <? a)%nat; cbn [bind] in Hrun; exact (IH _ s1 e Hrun).
      * cbn [bind] in Hrun. inversion Hrun; subst. eauto.
Qed.

(** One pass of the loop over the group types either keeps the length of
    the ranks or raises what a draw raises or the [KeyError] of the group
    type: the shapes of [G_i], of the scores and of the ranks fit. *)
Lemma groups_step_outcome (N : nat) (num_groups : dict nat) (beta : R)
      (alpha l0 : dict R) (st : groups_state) (t : string) :
  normal_length_contract -> randint_range_contract ->
  In t (keys num_groups) ->
  length (st_ranks st) = N ->
  match groups_step N num_groups beta alpha l0 st t with
  | Ok st' => length (st_ranks st') = N
  | Err e => raised_by_draw e \/ missing_key [t] alpha l0 e
  end.
Proof.
  intros Hnormal Hrandint Hin Hlen. unfold groups_step.
  destruct (dict_find_keys num_groups t Hin) as [n_i Hn].
  unfold dict_get at 1. rewrite Hn. cbn [bind].
  destruct (randint 0 n_i N (st_global st)) as [[vs g']|e] eqn:Hvs;
    cbn [bind fst snd].
  2:{ left. right. left. eauto. }
  destruct (Hrandint _ _ _ _ _ _ Hvs) as [Hvlen Hvrange].
  destruct (assignment_matrix_ok N n_i vs Hvlen) as (G_i & HG & Hr & Hc).
  { eapply Forall_impl; [|exact Hvrange]. intros v Hv. cbn beta in Hv. lia. }
  rewrite HG. cbn [bind].
  unfold dict_get at 1.
  destruct (dict_find alpha t) as [a|] eqn:Ha; cbn [bind].
  2:{ right. exists t. split; [now left|]. split; [reflexivity | now left]. }
  unfold dict_get at 1.
  destruct (dict_find l0 t) as [m|] eqn:Hm; cbn [bind].
  2:{ right. exists t. split; [now left|]. split; [reflexivity | now right]. }
  destruct (normal m (1 / sqrt (a * beta)) n_i (st_prng st))
    as [[xs p']|e] eqn:Hxs; cbn [bind fst snd].
  2:{ left. left. eauto. }
  pose proof (Hnormal _ _ _ _ _ _ Hxs) as Hxlen.
  unfold dict_get at 1. rewrite dict_find_set_same. cbn [bind].
  rewrite matvec_ok by congruence. cbn [bind].
  rewrite vadd_ok
    by (unfold mvmul; rewrite length_map, length_seq; congruence).
  cbn [bind st_ranks].
  rewrite vzip_length; [exact Hlen|].
  unfold mvmul. rewrite length_map, length_seq. congruence.
Qed.

Lemma groups_loop_outcome (N : nat) (num_groups : dict nat) (beta : R)
      (alpha l0 : dict R) (l : list string) :
  normal_length_contract -> randint_range_contract ->
  (forall t, In t l -> In t (keys num_groups)) ->
  forall st, length (st_ranks st) = N ->
    match foldM (groups_step N num_groups beta alpha l0) l st with
    | Ok st' => length (st_ranks st') = N
    | Err e => raised_by_draw e \/ missing_key l alpha l0 e
    end.
Proof.
  intros Hnormal Hrandint.
  induction l as [|t l IH]; intros Hkeys st Hlen; cbn [foldM].
  - exact Hlen.
  - pose proof (groups_step_outcome N num_groups beta alpha l0 st t
                  Hnormal Hrandint (Hkeys t (or_introl eq_refl)) Hlen)
      as Hstep.
    destruct (groups_step N num_groups beta alpha l0 st t) as [st1|e];
      cbn [bind].
    + specialize (IH (fun t' H => Hkeys t' (or_intror H)) st1 Hstep).
      destruct (foldM (groups_step N num_groups beta alpha l0) l st1)
        as [st'|e]; [exact IH|].
      destruct IH as [Hd | (t' & Hin & He & Hmiss)]; [now left|].
      right. exists t'. split; [now right | now split].
    + destruct Hstep as [Hd | (t' & Hin & He & Hmiss)]; [now left|].
      right. exists t'. split; [|now split].
      destruct Hin as [<- | []]. now left.
Qed.

(** C8 (as the code has it): neither sampler looks at the signs of [beta]
    and [alpha], and neither has an error of its own for them.  Whatever
    [beta] and [alpha] are, an exception of [SpringRank_planted_network] is
    one that a draw of the generator raises, or the [ZeroDivisionError] of
    [K*N / Z] when [N = 0]; an exception of
    [SpringRank_planted_network_groups] is one of these or the [KeyError]
    of a key that [alpha] or [l0] lacks. *)
Theorem planted_samplers_raise_no_sign_error
        (N : nat) (num_groups : dict nat) (beta alpha_1 l0_1 : R)
        (alpha : dict R) (K : R) (prng : RandomState) (l0 : dict R)
        (l1 : R) (allow_self_loops return_ranks : bool)
        (np_random : RandomState) :
  normal_length_contract -> randint_range_contract ->
  (forall e,
     SpringRank_planted_network N beta alpha_1 K l0_1 return_ranks np_random
     = Err e ->
     raised_by_draw e \/ (N = 0%nat /\ e = ZeroDivisionError)) /\
  (forall e,
     SpringRank_planted_network_groups N num_groups beta alpha K prng l0 l1
       allow_self_loops return_ranks np_random
     = Err e ->
     raised_by_draw e \/ (N = 0%nat /\ e = ZeroDivisionError) \/
     missing_key (individual :: keys num_groups) alpha l0 e).
Proof.
  intros Hnormal Hrandint. split; intros e Hrun.
  - unfold SpringRank_planted_network in Hrun.
    destruct (normal l0_1 (1 / sqrt (alpha_1 * beta)) N np_random)
      as [[ranks g1]|e0] eqn:Hdraw; cbn [bind fst snd] in Hrun.
    2:{ inversion Hrun; subst. left. left. eauto. }
    unfold normalizer in Hrun.
    destruct (N =? 0)%nat eqn:EN; cbn [bind] in Hrun.
    { inversion Hrun; subst. right. apply Nat.eqb_eq in EN. now split. }
    match type of Hrun with
    | bind ?loop _ = _ => destruct loop as [Ag|e0] eqn:Eloop
    end; cbn [bind] in Hrun.
    + destruct return_ranks; discriminate.
    + inversion Hrun; subst. left. right. right.
      exact (planted_edge_loop_errors _ _ N (pairs N) (pairs_in_range N)
               (zeros N N) g1 e eq_refl eq_refl Eloop).
  - unfold SpringRank_planted_network_groups in Hrun.
    unfold dict_get at 1 in Hrun.
    destruct (dict_find alpha individual) as [a0|] eqn:Ha0;
      cbn [bind] in Hrun.
    2:{ inversion Hrun; subst. right. right. exists individual.
        split; [now left|]. split; [reflexivity | now left]. }
    unfold dict_get at 1 in Hrun.
    destruct (dict_find l0 individual) as [m0|] eqn:Hm0;
      cbn [bind] in Hrun.
    2:{ inversion Hrun; subst. right. right. exists individual.
        split; [now left|]. split; [reflexivity | now right]. }
    destruct (normal m0 (1 / sqrt (a0 * beta)) N prng)
      as [[ind p1]|e0] eqn:Hdraw; cbn [bind fst snd dict_set] in Hrun.
    2:{ inversion Hrun; subst. left. left. eauto. }
    pose proof (Hnormal _ _ _ _ _ _ Hdraw) as Hlen.
    unfold dict_get at 1 in Hrun. cbn [dict_find] in Hrun.
    rewrite String.eqb_refl in Hrun. cbn [bind] in Hrun.
    pose proof (groups_loop_outcome N num_groups beta alpha l0
                  (keys num_groups) Hnormal Hrandint (fun t H => H)
                  (mkGroupsState [(individual, ind)] [] ind p1 np_random)
                  Hlen) as Hloop.
    match type of Hrun with
    | bind ?loop _ = _ => destruct loop as [st|e0]
    end; cbn [bind] in Hrun.
    2:{ inversion Hrun; subst.
        destruct Hloop as [Hd | (t & Hin & He & Hmiss)]; [now left|].
        right. right. exists t. split; [now right | now split]. }
    unfold normalizer in Hrun.
    destruct (N =? 0)%nat eqn:EN; cbn [bind] in Hrun.
    { inversion Hrun; subst. right. left. apply Nat.eqb_eq in EN.
      now split. }
    match type of Hrun with
    | bind ?loop _ = _ => destruct loop as [Ag|e0] eqn:Eloop
    end; cbn [bind] in Hrun.
    + destruct return_ranks; discriminate.
    + inversion Hrun; subst. left. right. right.
      exact (groups_edge_loop_errors _ _ _ _ _ _ e Eloop).
Qed.

(** *** The loop over the group types *)

(** The loop over the group types returns when the mappings hold every
    group type, with a positive number of groups and a scale that is
    defined. *)
Lemma groups_loop_total (N : nat) (num_groups : dict nat) (beta : R)
      (alpha l0 : dict R) (l : list string) (st0 : groups_state) :
  normal_contract -> randint_contract ->
  (forall t, In t l ->
     exists n a m,
       dict_find num_groups t = Some n /\ (0 < n)%nat /\
       dict_find alpha t = Some a /\ 0 < a * beta /\
       dict_find l0 t = Some m) ->
  length (st_ranks st0) = N ->
  exists st,
    foldM (groups_step N num_groups beta alpha l0) l st0 = Ok st /\
    length (st_ranks st) = N.
Proof.
  intros Hnormal Hrandint Hkeys Hlen.
  apply (foldM_total (groups_step N num_groups beta alpha l0)
           (fun st => length (st_ranks st) = N)); [exact Hlen|].
  intros st t Hin Hinv. unfold groups_step.
  destruct (Hkeys t Hin) as (n_i & a & m & Hn & Hpos & Ha & Hab & Hm).
  unfold dict_get at 1. rewrite Hn. cbn [bind].
  destruct (Hrandint n_i N (st_global st) Hpos)
    as (vs & g' & Hvs & Hvlen & Hvrange).
  rewrite Hvs. cbn [bind fst snd].
  destruct (assignment_matrix_ok N n_i vs Hvlen Hvrange)
    as (G_i & HG & Hr & Hc).
  rewrite HG. cbn [bind].
  unfold dict_get at 1. rewrite Ha. cbn [bind].
  unfold dict_get at 1. rewrite Hm. cbn [bind].
  destruct (Hnormal m (1 / sqrt (a * beta)) n_i (st_prng st)
                    (Rlt_le _ _ (inv_sqrt_pos _ Hab)))
    as (xs & p' & Hxs & Hxlen).
  rewrite Hxs. cbn [bind fst snd].
  unfold dict_get at 1. rewrite dict_find_set_same. cbn [bind].
  rewrite matvec_ok by congruence. cbn [bind].
  rewrite vadd_ok
    by (unfold mvmul; rewrite length_map, length_seq; congruence).
  cbn [bind]. eexists. split; [reflexivity|]. cbn [st_ranks].
  rewrite vzip_length; [exact Hinv|].
  unfold mvmul. rewrite length_map, length_seq. congruence.
Qed.

(** *** The networks that are returned *)

Lemma foldM_preserves {X Y : Type} (f : X -> Y -> result X) (P : X -> Prop)
      (l : list Y) (a a' : X) :
  P a ->
  (forall a b a', In b l -> P a -> f a b = Ok a' -> P a') ->
  foldM f l a = Ok a' -> P a'.
Proof.
  revert a. induction l as [|b l IH]; intros a Ha Hstep Hrun.
  - cbn [foldM] in Hrun. inversion Hrun; subst. exact Ha.
  - cbn [foldM] in Hrun. destruct (f a b) as [a1|e] eqn:E; [|discriminate].
    cbn [bind] in Hrun. apply (IH a1).
    + apply (Hstep a b a1); [now left | exact Ha | exact E].
    + intros a0 b0 a0' Hin. apply Hstep. now right.
    + exact Hrun.
Qed.

Lemma setitem_Ok (A A' : matrix R) (i j : nat) (x : R) :
  setitem A i j x = Ok A' ->
  (i < nrows A)%nat /\ (j < ncols A)%nat /\
  nrows A' = nrows A /\ ncols A' = ncols A /\
  forall i' j',
    entry A' i' j'
    = if ((i' =? i) && (j' =? j))%nat then x else entry A i' j'.
Proof.
  unfold setitem.
  destruct ((i <? nrows A)%nat && (j <? ncols A)%nat) eqn:E; [|discriminate].
  intro H. inversion H; subst A'. clear H.
  apply andb_prop in E. destruct E as [Hi Hj].
  apply Nat.ltb_lt in Hi. apply Nat.ltb_lt in Hj.
  cbn [nrows ncols entry]. repeat split; auto.
Qed.

(** X17: the matrix returned by [SpringRank_planted_network] is [N] by
    [N], its diagonal is zero (no self-loop is ever drawn) and every
    entry is a count. *)
Theorem planted_network_adjacency
        (N : nat) (beta alpha K l0 : R) (return_ranks : bool)
        (g g' : RandomState) (out : planted_output) :
  SpringRank_planted_network N beta alpha K l0 return_ranks g
  = Ok (out, g') ->
  nrows (network_of out) = N /\ ncols (network_of out) = N /\
  (forall i, entry (network_of out) i i = 0) /\
  (forall i j, exists k : nat, entry (network_of out) i j = INR k).
Proof.
  unfold SpringRank_planted_network. intro Hrun.
  destruct (normal l0 (1 / sqrt (alpha * beta)) N g) as [rg|e];
    [|discriminate].
  cbn [bind] in Hrun.
  destruct (normalizer K N (partition_sum (scaled_energy beta (fst rg)) N))
    as [c|e]; [|discriminate].
  cbn [bind] in Hrun.
  match type of Hrun with
  | bind ?loop _ = _ => destruct loop as [Ag|e] eqn:Eloop
  end; [|discriminate].
  cbn [bind] in Hrun.
  assert (Hinv : nrows (fst Ag) = N /\ ncols (fst Ag) = N /\
                 (forall i, entry (fst Ag) i i = 0) /\
                 (forall i j, exists k : nat, entry (fst Ag) i j = INR k)).
  { apply (foldM_preserves
             (planted_edge_step c (scaled_energy beta (fst rg)))
             (fun st : matrix R * RandomState =>
                nrows (fst st) = N /\ ncols (fst st) = N /\
                (forall i, entry (fst st) i i = 0) /\
                (forall i j, exists k : nat, entry (fst st) i j = INR k))
             (pairs N) (zeros N N, snd rg) Ag);
      [cbn; repeat split; auto; intros; now exists 0%nat | | exact Eloop].
    intros [A s] ij [A1 s1] _ (Hr & Hc & Hd & Hk) Hstep.
    unfold planted_edge_step in Hstep. cbn [fst snd] in *.
    destruct (fst ij =? snd ij)%nat eqn:Eij.
    - inversion Hstep; subst. now repeat split.
    - destruct (poisson (c * scaled_energy beta (fst rg) ij) s)
        as [ag|e]; [|discriminate].
      cbn [bind] in Hstep.
      destruct (setitem A (fst ij) (snd ij) (INR (fst ag))) as [A2|e] eqn:Es;
        [|discriminate].
      cbn [bind] in Hstep. inversion Hstep; subst A1 s1. clear Hstep.
      destruct (setitem_Ok _ _ _ _ _ Es) as (_ & _ & Hr' & Hc' & He).
      split; [congruence|]. split; [congruence|]. split.
      + intro i. rewrite He.
        destruct ((i =? fst ij)%nat && (i =? snd ij)%nat) eqn:E;
          [|apply Hd].
        apply andb_prop in E. destruct E as [E1 E2].
        apply Nat.eqb_eq in E1. apply Nat.eqb_eq in E2.
        apply Nat.eqb_neq in Eij. congruence.
      + intros i j. rewrite He.
        destruct ((i =? fst ij)%nat && (j =? snd ij)%nat);
          [now exists (fst ag) | apply Hk]. }
  destruct return_ranks; inversion Hrun; subst; exact Hinv.
Qed.

Lemma add_node_loop (f : nat -> R) (l : list nat) (A : DiGraph) :
  nodes (fold_left (fun A i => add_node A i (f i)) l A)
  = nodes A ++ map (fun i => (i, f i)) l /\
  edges (fold_left (fun A i => add_node A i (f i)) l A) = edges A.
Proof.
  revert A. induction l as [|i l IH]; intro A; cbn [fold_left map].
  - now rewrite app_nil_r.
  - destruct (IH (add_node A i (f i))) as [-> ->].
    cbn [nodes edges add_node]. now rewrite <- app_assoc.
Qed.

(** The edge loop adds edges between nodes, of positive weight, at most
    one for every pair it visits, and leaves the nodes alone. *)
Lemma groups_edge_loop_edges (allow_self_loops : bool) (c : R)
      (w : nat * nat -> R) (N : nat) (l : list (nat * nat)) :
  (forall ij, In ij l -> (fst ij < N)%nat /\ (snd ij < N)%nat) ->
  forall (A A' : DiGraph) (s s' : RandomState),
    foldM (groups_edge_step allow_self_loops c w) l (A, s) = Ok (A', s') ->
    nodes A' = nodes A /\
    exists new,
      edges A' = edges A ++ new /\
      Forall (edge_ok N allow_self_loops) new /\
      Forall (fun e => In (fst e) l) new /\
      (NoDup l -> NoDup (map fst new)).
Proof.
  induction l as [|ij l IH]; intros Hrange A A' s s' Hrun.
  - cbn [foldM] in Hrun. inversion Hrun; subst. split; [reflexivity|].
    exists []. rewrite app_nil_r. repeat split; constructor.
  - cbn [foldM] in Hrun.
    assert (Hrange' : forall ij', In ij' l ->
                                  (fst ij' < N)%nat /\ (snd ij' < N)%nat)
      by (intros ij' Hin; apply Hrange; now right).
    assert (Hweaken : forall new : list (nat * nat * nat),
               Forall (fun e => In (fst e) l) new ->
               Forall (fun e => In (fst e) (ij :: l)) new).
    { intros new Hall. eapply Forall_impl; [|exact Hall].
      intros e He. now right. }
    unfold groups_edge_step at 1 in Hrun. cbn [fst snd] in Hrun.
    destruct ((fst ij =? snd ij)%nat && negb allow_self_loops) eqn:Eskip.
    + cbn [bind] in Hrun.
      destruct (IH Hrange' A A' s s' Hrun)
        as (Hn & new & He & Hok & Hin & Hnd).
      split; [exact Hn|]. exists new. repeat split; auto.
      intro Hd. apply Hnd. now inversion Hd.
    + destruct (poisson (c * w ij) s) as [[a s1]|e]; [|discriminate].
      cbn [bind fst snd] in Hrun.
      destruct (0 <? a)%nat eqn:Ea; cbn [bind] in Hrun.
      * destruct (IH Hrange' _ A' s1 s' Hrun)
          as (Hn & new & He & Hok & Hin & Hnd).
        cbn [nodes edges add_edge] in Hn, He.
        split; [exact Hn|]. exists ((fst ij, snd ij, a) :: new).
        split; [now rewrite He, <- app_assoc|].
        split; [|split].
        -- constructor; [|exact Hok].
           destruct (Hrange ij (or_introl eq_refl)) as [Hi Hj].
           unfold edge_ok. cbn [fst snd]. apply Nat.ltb_lt in Ea.
           repeat split; auto.
           intros Hasl Heq. subst allow_self_loops.
           rewrite Heq, Nat.eqb_refl in Eskip. discriminate.
        -- constructor; [|now apply Hweaken].
           cbn [fst]. left. now destruct ij.
        -- intro Hd. inversion Hd as [|x xs Hnotin Hd']; subst.
           cbn [map fst]. constructor; [|now apply Hnd].
           intro Hmem. apply Hnotin. apply in_map_iff in Hmem.
           destruct Hmem as (e & Hfst & He').
           rewrite Forall_forall in Hin. specialize (Hin e He').
           rewrite Hfst in Hin. now destruct ij.
      * destruct (IH Hrange' A A' s1 s' Hrun)
          as (Hn & new & He & Hok & Hin & Hnd).
        split; [exact Hn|]. exists new. repeat split; auto.
        intro Hd. apply Hnd. now inversion Hd.
Qed.

Lemma NoDup_pairs (N : nat) : NoDup (pairs N).
Proof.
  unfold pairs.
  assert (Hgen : forall l l' : list nat,
             NoDup l -> NoDup l' -> NoDup (list_prod l l')).
  { induction l as [|a l IH]; intros l' Hl Hl'; cbn [list_prod].
    - constructor.
    - inversion Hl as [|x xs Hnotin Hl0]; subst.
      apply NoDup_app.
      + clear - Hl'. induction Hl' as [|b l' Hb _ IH']; cbn [map].
        * constructor.
        * constructor; [|exact IH'].
          intro Hin. apply in_map_iff in Hin.
          destruct Hin as (b' & Heq & Hb'). inversion Heq; subst.
          contradiction.
      + now apply IH.
      + intros [x y] Hin1 Hin2. apply in_map_iff in Hin1.
        destruct Hin1 as (b & Heq & _). inversion Heq; subst.
        apply in_prod_iff in Hin2. destruct Hin2 as [Hx _].
        contradiction. }
  apply Hgen; apply seq_NoDup.
Qed.

(** X18: the graph returned by [SpringRank_planted_network_groups] has
    the nodes [0 .. N-1] in order, each with its rank as [score]; every
    edge joins two of these nodes and has a positive weight, no pair of
    nodes has two edges, and there is no self-loop unless
    [allow_self_loops] is set. *)
Theorem planted_groups_graph
        (N : nat) (num_groups : dict nat) (beta : R) (alpha : dict R)
        (K : R) (prng : RandomState) (l0 : dict R) (l1 : R)
        (allow_self_loops return_ranks : bool)
        (np_random prng' np_random' : RandomState)
        (out : planted_groups_output) :
  SpringRank_planted_network_groups N num_groups beta alpha K prng l0 l1
    allow_self_loops return_ranks np_random
  = Ok (out, prng', np_random') ->
  map fst (nodes (graph_of out)) = seq 0 N /\
  (forall A G scores ranks,
     out = GroupsWithRanks A G scores ranks ->
     nodes A = map (fun i => (i, rank_at ranks i)) (seq 0 N)) /\
  Forall (edge_ok N allow_self_loops) (edges (graph_of out)) /\
  NoDup (map fst (edges (graph_of out))).
Proof.
  unfold SpringRank_planted_network_groups. intro Hrun.
  destruct (dict_get alpha individual) as [alpha_i|e]; [|discriminate].
  cbn [bind] in Hrun.
  destruct (dict_get l0 individual) as [l0_i|e]; [|discriminate].
  cbn [bind] in Hrun.
  destruct (normal l0_i (1 / sqrt (alpha_i * beta)) N prng) as [sp|e];
    [|discriminate].
  cbn [bind] in Hrun.
  destruct (dict_get (dict_set [] individual (fst sp)) individual)
    as [ranks0|e]; [|discriminate].
  cbn [bind] in Hrun.
  match type of Hrun with
  | bind ?loop _ = _ => destruct loop as [st|e]
  end; [|discriminate].
  cbn [bind] in Hrun.
  destruct (normalizer K N
              (partition_sum (scaled_exp_energy beta l1 (st_ranks st)) N))
    as [c|e]; [|discriminate].
  cbn [bind] in Hrun.
  match type of Hrun with
  | bind ?loop _ = _ => destruct loop as [[A s]|e] eqn:Eloop
  end; [|discriminate].
  cbn [bind fst snd] in Hrun.
  destruct (add_node_loop (rank_at (st_ranks st)) (seq 0 N)
                          (mkDiGraph [] [])) as [Hnodes Hedges].
  cbn [nodes edges app] in Hnodes, Hedges.
  destruct (groups_edge_loop_edges allow_self_loops c
              (scaled_exp_energy beta l1 (st_ranks st)) N (pairs N)
              (pairs_in_range N) _ A _ s Eloop)
    as (Hn & new & He & Hok & _ & Hnd).
  rewrite Hnodes in Hn. rewrite Hedges in He. cbn [app] in He.
  assert (Hfst : map fst (nodes A) = seq 0 N).
  { rewrite Hn, map_map. cbn [fst]. apply map_id. }
  assert (Hout : graph_of out = A /\
                 forall A0 G0 scores0 ranks1,
                   out = GroupsWithRanks A0 G0 scores0 ranks1 ->
                   A0 = A /\ ranks1 = st_ranks st).
  { destruct return_ranks; inversion Hrun; subst out; cbn [graph_of];
      (split; [reflexivity|]); intros A0 G0 scores0 ranks1 Heq;
      inversion Heq; now subst. }
  destruct Hout as [Hgraph Hwith]. rewrite Hgraph.
  split; [exact Hfst|]. split; [|split].
  - intros A0 G0 scores0 ranks1 Heq.
    destruct (Hwith _ _ _ _ Heq) as [-> ->]. exact Hn.
  - rewrite He. exact Hok.
  - rewrite He. apply Hnd. apply NoDup_pairs.
Qed.

(** *** The group assignments *)

Lemma In_dict_set {V : Type} (d : dict V) (k k' : string) (v v' : V) :
  In (k', v') (dict_set d k v) -> (k' = k /\ v' = v) \/ In (k', v') d.
Proof.
  induction d as [|[k0 v0] d IH]; cbn [dict_set].
  - intros [H | []]. inversion H. now left.
  - destruct (String.eqb k0 k) eqn:E.
    + apply String.eqb_eq in E. subst k0.
      intros [H | H]; [inversion H; now left | right; now right].
    + intros [H | H]; [right; now left|].
      destruct (IH H) as [Hl | Hr]; [now left | right; now right].
Qed.

(** The loop of [assignment_matrix], started at row [start]. *)
Lemma assignment_loop (gs : list nat) :
  forall (start : nat) (G0 G' : matrix R),
    foldM (fun G_i jg => setitem G_i (fst jg) (snd jg) 1)
          (combine (seq start (length gs)) gs) G0 = Ok G' ->
    nrows G' = nrows G0 /\ ncols G' = ncols G0 /\
    forall i j,
      entry G' i j
      = if ((start <=? i) && (i <? start + length gs)
            && (j =? nth (i - start) gs 0))%nat
        then 1 else entry G0 i j.
Proof.
  induction gs as [|g gs IH]; intros start G0 G' Hrun.
  - cbn in Hrun. inversion Hrun; subst. split; [reflexivity|].
    split; [reflexivity|]. intros i j. cbn [length].
    destruct (start <=? i)%nat eqn:E1; [|reflexivity].
    apply Nat.leb_le in E1.
    now replace (i <? start + 0)%nat with false
      by (symmetry; apply Nat.ltb_ge; lia).
  - cbn [length seq combine foldM fst snd] in Hrun.
    destruct (setitem G0 start g 1) as [G1|e] eqn:Es; [|discriminate].
    cbn [bind] in Hrun.
    destruct (setitem_Ok _ _ _ _ _ Es) as (_ & _ & Hr1 & Hc1 & He1).
    destruct (IH (S start) G1 G' Hrun) as (Hr & Hc & He).
    split; [congruence|]. split; [congruence|].
    intros i j. rewrite He, He1. cbn [length].
    destruct (lt_eq_lt_dec i start) as [[Hlt | Heq] | Hgt].
    + replace (S start <=? i)%nat with false
        by (symmetry; apply Nat.leb_gt; lia).
      replace (start <=? i)%nat with false
        by (symmetry; apply Nat.leb_gt; lia).
      replace (i =? start)%nat with false
        by (symmetry; apply Nat.eqb_neq; lia).
      reflexivity.
    + subst i.
      replace (S start <=? start)%nat with false
        by (symmetry; apply Nat.leb_gt; lia).
      rewrite Nat.leb_refl, Nat.eqb_refl, Nat.sub_diag.
      replace (start <? start + S (length gs))%nat with true
        by (symmetry; apply Nat.ltb_lt; lia).
      reflexivity.
    + replace (S start <=? i)%nat with true
        by (symmetry; apply Nat.leb_le; lia).
      replace (start <=? i)%nat with true
        by (symmetry; apply Nat.leb_le; lia).
      replace (i =? start)%nat with false
        by (symmetry; apply Nat.eqb_neq; lia).
      replace (i - start)%nat with (S (i - S start)) by lia.
      replace (start + S (length gs))%nat with (S start + length gs)%nat
        by lia.
      cbn [nth andb].
      destruct ((i <? S start + length gs)%nat
                && (j =? nth (i - S start) gs 0)%nat); reflexivity.
Qed.

(** X19: every group matrix returned by
    [SpringRank_planted_network_groups] is a one-hot assignment: for the
    group type [t] it is [N] by [num_groups[t]], and every row holds a
    single one and zeros elsewhere. *)
Theorem planted_groups_assignment
        (N : nat) (num_groups : dict nat) (beta : R) (alpha : dict R)
        (K : R) (prng : RandomState) (l0 : dict R) (l1 : R)
        (allow_self_loops return_ranks : bool)
        (np_random prng' np_random' : RandomState)
        (out : planted_groups_output) :
  randint_range_contract ->
  SpringRank_planted_network_groups N num_groups beta alpha K prng l0 l1
    allow_self_loops return_ranks np_random
  = Ok (out, prng', np_random') ->
  forall t G_t,
    In (t, G_t) (groups_of out) ->
    exists n,
      dict_find num_groups t = Some n /\
      nrows G_t = N /\ ncols G_t = n /\
      forall i, (i < N)%nat -> exists g, one_hot_row G_t i g.
Proof.
  intros Hrandint. unfold SpringRank_planted_network_groups. intro Hrun.
  destruct (dict_get alpha individual) as [alpha_i|e]; [|discriminate].
  cbn [bind] in Hrun.
  destruct (dict_get l0 individual) as [l0_i|e]; [|discriminate].
  cbn [bind] in Hrun.
  destruct (normal l0_i (1 / sqrt (alpha_i * beta)) N prng) as [sp|e];
    [|discriminate].
  cbn [bind] in Hrun.
  destruct (dict_get (dict_set [] individual (fst sp)) individual)
    as [ranks0|e]; [|discriminate].
  cbn [bind] in Hrun.
  match type of Hrun with
  | bind ?loop _ = _ => destruct loop as [st|e] eqn:Egroups
  end; [|discriminate].
  cbn [bind] in Hrun.
  destruct (normalizer K N
              (partition_sum (scaled_exp_energy beta l1 (st_ranks st)) N))
    as [c|e]; [|discriminate].
  cbn [bind] in Hrun.
  match type of Hrun with
  | bind ?loop _ = _ => destruct loop as [Ag|e]
  end; [|discriminate].
  cbn [bind] in Hrun.
  assert (HG : groups_of out = st_G st)
    by (destruct return_ranks; inversion Hrun; reflexivity).
  rewrite HG. clear Hrun HG.
  apply (foldM_preserves
           (groups_step N num_groups beta alpha l0)
           (fun st =>
              forall t G_t,
                In (t, G_t) (st_G st) ->
                exists n,
                  dict_find num_groups t = Some n /\
                  nrows G_t = N /\ ncols G_t = n /\
                  forall i, (i < N)%nat -> exists g, one_hot_row G_t i g)
           (keys num_groups)
           (mkGroupsState (dict_set [] individual (fst sp)) [] ranks0
                          (snd sp) np_random) st);
    [intros t G_t [] | | exact Egroups].
  intros st0 t st1 _ Hinv Hstep t' G' Hin.
  unfold groups_step in Hstep.
  destruct (dict_find num_groups t) as [n_i|] eqn:Hn;
    unfold dict_get at 1 in Hstep; rewrite Hn in Hstep; [|discriminate].
  cbn [bind] in Hstep.
  destruct (randint 0 n_i N (st_global st0)) as [[vs g1]|e] eqn:Hvs;
    [|discriminate].
  cbn [bind fst snd] in Hstep.
  destruct (assignment_matrix N n_i vs) as [G_i|e] eqn:HGi; [|discriminate].
  cbn [bind] in Hstep.
  destruct (dict_get alpha t) as [a|e]; [|discriminate].
  cbn [bind] in Hstep.
  destruct (dict_get l0 t) as [m|e]; [|discriminate].
  cbn [bind] in Hstep.
  destruct (normal m (1 / sqrt (a * beta)) n_i (st_prng st0)) as [xs|e];
    [|discriminate].
  cbn [bind] in Hstep.
  match type of Hstep with
  | bind ?r _ = _ => destruct r as [s_t|e]
  end; [|discriminate].
  cbn [bind] in Hstep.
  destruct (matvec G_i s_t) as [p|e]; [|discriminate].
  cbn [bind] in Hstep.
  match type of Hstep with
  | bind ?r _ = _ => destruct r as [ranks1|e]
  end; [|discriminate].
  cbn [bind] in Hstep. inversion Hstep; subst st1. clear Hstep.
  cbn [st_G] in Hin.
  destruct (In_dict_set _ _ _ _ _ Hin) as [[-> ->] | Hold];
    [|now apply Hinv].
  destruct (Hrandint 0%nat n_i N (st_global st0) vs g1 Hvs)
    as [Hlen Hrange].
  unfold assignment_matrix in HGi.
  destruct (assignment_loop vs 0%nat (zeros N n_i) G_i HGi)
    as (Hr & Hc & He).
  cbn [nrows ncols zeros] in Hr, Hc.
  exists n_i. split; [exact Hn|]. split; [exact Hr|]. split; [exact Hc|].
  intros i Hi. exists (nth i vs 0%nat). split.
  - rewrite Hc. rewrite Forall_forall in Hrange.
    apply (Hrange (nth i vs 0%nat)). apply nth_In. lia.
  - intro j. rewrite He. cbn [entry zeros Nat.add].
    rewrite Nat.sub_0_r, Hlen.
    replace (i <? N)%nat with true by (symmetry; apply Nat.ltb_lt; lia).
    reflexivity.
Qed.

(** *** Ranks and scores of the grouped sampler *)

Lemma groups_loop_recombine (N : nat) (num_groups : dict nat) (beta : R)
      (alpha l0 : dict R) (ind : list R) :
  forall (l2 l1 : list string) (st st' : groups_state),
    NoDup (l1 ++ l2) -> ~ In individual (l1 ++ l2) ->
    keys (st_G st) = l1 ->
    keys (st_scores st) = individual :: l1 ->
    dict_find (st_scores st) individual = Some ind ->
    foldM (recombine_step (st_scores st)) (st_G st) ind
    = Ok (st_ranks st) ->
    foldM (groups_step N num_groups beta alpha l0) l2 st = Ok st' ->
    keys (st_G st') = l1 ++ l2 /\
    keys (st_scores st') = individual :: l1 ++ l2 /\
    dict_find (st_scores st') individual = Some ind /\
    foldM (recombine_step (st_scores st')) (st_G st') ind
    = Ok (st_ranks st').
Proof.
  induction l2 as [|t l2 IH]; intros l1 st st' Hnd Hind HkG Hks Hi Hr Hrun.
  - cbn [foldM] in Hrun. inversion Hrun; subst st'.
    rewrite app_nil_r. now repeat split.
  - cbn [foldM] in Hrun.
    destruct (groups_step N num_groups beta alpha l0 st t) as [st1|e] eqn:Es;
      [|discriminate].
    cbn [bind] in Hrun. unfold groups_step in Es.
    destruct (dict_get num_groups t) as [n_i|e]; [|discriminate].
    cbn [bind] in Es.
    destruct (randint 0 n_i N (st_global st)) as [gg|e]; [|discriminate].
    cbn [bind] in Es.
    destruct (assignment_matrix N n_i (fst gg)) as [G_i|e]; [|discriminate].
    cbn [bind] in Es.
    destruct (dict_get alpha t) as [a|e]; [|discriminate].
    cbn [bind] in Es.
    destruct (dict_get l0 t) as [m|e]; [|discriminate].
    cbn [bind] in Es.
    destruct (normal m (1 / sqrt (a * beta)) n_i (st_prng st)) as [sp|e];
      [|discriminate].
    cbn [bind] in Es.
    unfold dict_get at 1 in Es. rewrite dict_find_set_same in Es.
    cbn [bind] in Es.
    destruct (matvec G_i (fst sp)) as [p|e] eqn:Ep; [|discriminate].
    cbn [bind] in Es.
    destruct (vadd (st_ranks st) p) as [ranks1|e] eqn:Er; [|discriminate].
    cbn [bind] in Es. inversion Es; subst st1. clear Es.
    assert (Ht_ind : t <> individual).
    { intro Heq. apply Hind. subst t. apply in_or_app. right. now left. }
    assert (Ht_l1 : ~ In t l1).
    { apply NoDup_remove_2 in Hnd. intro H. apply Hnd.
      apply in_or_app. now left. }
    assert (HfreshG : ~ In t (keys (st_G st))) by now rewrite HkG.
    assert (HfreshS : ~ In t (keys (st_scores st))).
    { rewrite Hks. intros [H | H]; [now apply Ht_ind | now apply Ht_l1]. }
    replace (l1 ++ t :: l2) with ((l1 ++ [t]) ++ l2) in *
      by (now rewrite <- app_assoc).
    refine (IH (l1 ++ [t]) _ st' Hnd Hind _ _ _ _ Hrun);
      cbn [st_G st_scores st_ranks].
    + rewrite (dict_set_fresh _ t G_i HfreshG), keys_app, HkG. reflexivity.
    + rewrite (dict_set_fresh _ t (fst sp) HfreshS), keys_app, Hks.
      reflexivity.
    + rewrite dict_find_set_other by exact Ht_ind. exact Hi.
    + rewrite (dict_set_fresh _ t G_i HfreshG), foldM_app.
      rewrite (foldM_ext_in
                 (recombine_step (dict_set (st_scores st) t (fst sp)))
                 (recombine_step (st_scores st))).
      * rewrite Hr. cbn [bind foldM]. unfold recombine_step. cbn [fst snd].
        unfold dict_get. rewrite dict_find_set_same. cbn [bind].
        rewrite Ep. cbn [bind]. rewrite Er. reflexivity.
      * intros acc kv Hin. unfold recombine_step, dict_get.
        rewrite dict_find_set_other; [reflexivity|].
        intro Heq. apply HfreshG. subst t. unfold keys. now apply in_map.
Qed.

(** X20: the ranks returned by [SpringRank_planted_network_groups] are
    the individual scores plus [G_t @ scores[t]] for every group type,
    the returned [G] has the keys of [num_groups] and the returned
    scores have these keys after ["individual"], as long as
    ["individual"] is not itself the name of a group type. *)
Theorem planted_groups_ranks_decomposition
        (N : nat) (num_groups : dict nat) (beta : R) (alpha : dict R)
        (K : R) (prng : RandomState) (l0 : dict R) (l1 : R)
        (allow_self_loops : bool)
        (np_random prng' np_random' : RandomState)
        (A : DiGraph) (G : dict (matrix R)) (scores : dict (list R))
        (ranks : list R) :
  NoDup (keys num_groups) ->
  ~ In individual (keys num_groups) ->
  SpringRank_planted_network_groups N num_groups beta alpha K prng l0 l1
    allow_self_loops true np_random
  = Ok (GroupsWithRanks A G scores ranks, prng', np_random') ->
  keys G = keys num_groups /\
  keys scores = individual :: keys num_groups /\
  recombine G scores = Ok ranks.
Proof.
  intros Hnd Hind. unfold SpringRank_planted_network_groups. intro Hrun.
  destruct (dict_get alpha individual) as [alpha_i|e]; [|discriminate].
  cbn [bind] in Hrun.
  destruct (dict_get l0 individual) as [l0_i|e]; [|discriminate].
  cbn [bind] in Hrun.
  destruct (normal l0_i (1 / sqrt (alpha_i * beta)) N prng) as [sp|e];
    [|discriminate].
  cbn [bind dict_set] in Hrun.
  unfold dict_get at 1 in Hrun. cbn [dict_find] in Hrun.
  rewrite String.eqb_refl in Hrun. cbn [bind] in Hrun.
  match type of Hrun with
  | bind ?loop _ = _ => destruct loop as [st|e] eqn:Egroups
  end; [|discriminate].
  cbn [bind] in Hrun.
  destruct (normalizer K N
              (partition_sum (scaled_exp_energy beta l1 (st_ranks st)) N))
    as [c|e]; [|discriminate].
  cbn [bind] in Hrun.
  match type of Hrun with
  | bind ?loop _ = _ => destruct loop as [Ag|e]
  end; [|discriminate].
  cbn [bind] in Hrun. inversion Hrun; subst. clear Hrun.
  destruct (groups_loop_recombine N num_groups beta alpha l0 (fst sp)
              (keys num_groups) []
              (mkGroupsState [(individual, fst sp)] [] (fst sp) (snd sp)
                             np_random)
              st Hnd Hind eq_refl eq_refl
              (dict_find_set_same [] individual (fst sp))
              eq_refl Egroups)
    as (HkG & Hks & Hi & Hsum).
  cbn [app] in HkG, Hks.
  split; [exact HkG|]. split; [exact Hks|].
  unfold recombine, dict_get, vec. rewrite Hi. exact Hsum.
Qed.

(** *** Missing keys *)

(** X21: when [alpha] or [l0] lacks the key ["individual"],
    [SpringRank_planted_network_groups] raises [KeyError] for it before
    anything is drawn; when they lack a group type of [num_groups], it
    raises [KeyError] for the first such group type. *)
Theorem planted_groups_missing_key
        (N : nat) (num_groups : dict nat) (beta : R) (alpha : dict R)
        (K : R) (prng : RandomState) (l0 : dict R) (l1 : R)
        (allow_self_loops return_ranks : bool) (np_random : RandomState) :
  (dict_find alpha individual = None \/ dict_find l0 individual = None ->
   SpringRank_planted_network_groups N num_groups beta alpha K prng l0 l1
     allow_self_loops return_ranks np_random
   = Err (KeyError individual)) /\
  (forall (pre post : list string) (t : string),
     normal_contract -> randint_contract ->
     keys num_groups = pre ++ t :: post ->
     (forall t', In t' (individual :: pre) ->
                 exists a l, dict_find alpha t' = Some a /\
                             dict_find l0 t' = Some l) ->
     (forall t' a, dict_find alpha t' = Some a -> 0 < a * beta) ->
     (forall t' n, dict_find num_groups t' = Some n -> (0 < n)%nat) ->
     dict_find alpha t = None \/ dict_find l0 t = None ->
     SpringRank_planted_network_groups N num_groups beta alpha K prng l0 l1
       allow_self_loops return_ranks np_random
     = Err (KeyError t)).
Proof.
  split.
  - intros Hmiss. unfold SpringRank_planted_network_groups, dict_get.
    destruct (dict_find alpha individual) as [a|]; [|reflexivity].
    destruct Hmiss as [Hmiss | Hmiss]; [discriminate|].
    rewrite Hmiss. reflexivity.
  - intros pre post t Hnormal Hrandint Hsplit Hkeys Hsigns Hsizes Hmiss.
    unfold SpringRank_planted_network_groups.
    destruct (Hkeys individual (or_introl eq_refl)) as (a0 & m0 & Ha0 & Hm0).
    unfold dict_get at 1. rewrite Ha0. cbn [bind].
    unfold dict_get at 1. rewrite Hm0. cbn [bind].
    destruct (Hnormal m0 (1 / sqrt (a0 * beta)) N prng
                      (Rlt_le _ _ (inv_sqrt_pos _ (Hsigns _ _ Ha0))))
      as (ind & p1 & Hdraw & Hlen).
    rewrite Hdraw. cbn [bind fst snd dict_set].
    unfold dict_get at 1. cbn [dict_find]. rewrite String.eqb_refl.
    cbn [bind]. rewrite Hsplit, foldM_app.
    assert (Hin_keys : forall t', In t' (pre ++ t :: post) ->
                                  exists n, dict_find num_groups t' = Some n).
    { intros t' Hin. apply dict_find_keys. now rewrite Hsplit. }
    destruct (groups_loop_total N num_groups beta alpha l0 pre
                (mkGroupsState [(individual, ind)] [] ind p1 np_random)
                Hnormal Hrandint) as (st & Hst & _).
    + intros t' Hin.
      destruct (Hin_keys t' (in_or_app _ _ _ (or_introl Hin))) as [n Hn].
      destruct (Hkeys t' (or_intror Hin)) as (a & m & Ha & Hm).
      exists n, a, m. repeat split; eauto.
    + exact Hlen.
    + rewrite Hst. cbn [bind foldM]. unfold groups_step.
      destruct (Hin_keys t (in_elt t pre post)) as [n Hn].
      unfold dict_get at 1. rewrite Hn. cbn [bind].
      destruct (Hrandint n N (st_global st) (Hsizes t n Hn))
        as (vs & g' & Hvs & Hvlen & Hvrange).
      rewrite Hvs. cbn [bind fst snd].
      destruct (assignment_matrix_ok N n vs Hvlen Hvrange)
        as (G_i & HG & _).
      rewrite HG. cbn [bind]. unfold dict_get.
      destruct (dict_find alpha t) as [a|]; [|reflexivity].
      destruct Hmiss as [Hmiss | Hmiss]; [discriminate|].
      rewrite Hmiss. reflexivity.
Qed.

(** *** The weights of the edges *)

Lemma exp_le_iff (a b : R) : exp a <= exp b <-> a <= b.
Proof.
  split; intro H.
  - destruct (Rle_or_lt a b) as [Hle | Hlt]; [exact Hle|].
    apply exp_increasing in Hlt. lra.
  - destruct H as [Hlt | ->]; [|lra].
    apply exp_increasing in Hlt. lra.
Qed.

(** X22: for [beta > 0] the weight of the pair [(i, j)], to which the
    mean of the Poisson draw of [A[i, j]] is proportional, is at most
    one, and it is one exactly when [i] is ranked the rest length above
    [j] ([l1] in the grouped sampler, one in the ungrouped sampler). *)
Theorem planted_weight_peak (beta l1 : R) (ranks : list R) (i j : nat) :
  0 < beta ->
  (scaled_exp_energy beta l1 ranks (i, j) <= 1 /\
   (scaled_exp_energy beta l1 ranks (i, j) = 1 <->
    rank_at ranks i - rank_at ranks j = l1)) /\
  (scaled_energy beta ranks (i, j) <= 1 /\
   (scaled_energy beta ranks (i, j) = 1 <->
    rank_at ranks i - rank_at ranks j = 1)).
Proof.
  intro Hb.
  assert (Hgen : forall l d : R,
             exp (- beta * (0.5 * (d - l) ^ 2)) <= 1 /\
             (exp (- beta * (0.5 * (d - l) ^ 2)) = 1 <-> d = l)).
  { intros l d. rewrite <- exp_0.
    assert (Hs : 0 <= (d - l) ^ 2) by apply pow2_ge_0.
    split.
    - apply exp_le_iff. nra.
    - split.
      + intro H. apply exp_inv in H.
        destruct (Req_dec d l) as [Heq | Hne]; [exact Heq|].
        exfalso.
        assert (Hpos : 0 < (d - l) ^ 2)
          by (destruct (Rdichotomy _ _ Hne); nra).
        nra.
      + intros ->. f_equal. ring. }
  split.
  - unfold scaled_exp_energy. cbn [fst snd]. apply Hgen.
  - unfold scaled_energy. cbn [fst snd].
    replace (0.5 * (rank_at ranks i - rank_at ranks j - 1)
             * (rank_at ranks i - rank_at ranks j - 1))
      with (0.5 * (rank_at ranks i - rank_at ranks j - 1) ^ 2) by ring.
    apply Hgen.
Qed.

(** X23: for [beta > 0] and a positive rest length, the weight of the
    edge from [i] to [j] is at least the weight of the edge from [j] to
    [i] exactly when [i] is ranked at least as high as [j]: edges tend to
    point down the hierarchy. *)
Theorem planted_weight_direction (beta l1 : R) (ranks : list R)
        (i j : nat) :
  0 < beta -> 0 < l1 ->
  (scaled_exp_energy beta l1 ranks (j, i)
   <= scaled_exp_energy beta l1 ranks (i, j)
   <-> rank_at ranks j <= rank_at ranks i) /\
  (scaled_energy beta ranks (j, i) <= scaled_energy beta ranks (i, j)
   <-> rank_at ranks j <= rank_at ranks i).
Proof.
  intros Hb Hl.
  assert (HP : 0 < beta * l1) by now apply Rmult_lt_0_compat.
  assert (Hgen : forall l d e_ij e_ji : R,
             e_ij - e_ji = 2 * (beta * l1) * d ->
             (exp e_ji <= exp e_ij <-> 0 <= d)).
  { intros l d e_ij e_ji Hdiff. rewrite exp_le_iff.
    split; intro H; nra. }
  split.
  - unfold scaled_exp_energy. cbn [fst snd].
    rewrite (Hgen l1 (rank_at ranks i - rank_at ranks j));
      [lra | replace 0.5 with (/ 2) by lra; field].
  - unfold scaled_energy. cbn [fst snd].
    assert (Hgen1 : forall d e_ij e_ji : R,
               e_ij - e_ji = 2 * beta * d ->
               (exp e_ji <= exp e_ij <-> 0 <= d)).
    { intros d e_ij e_ji Hdiff. rewrite exp_le_iff.
      split; intro H; nra. }
    rewrite (Hgen1 (rank_at ranks i - rank_at ranks j));
      [lra | replace 0.5 with (/ 2) by lra; field].
Qed.

(** *** The number of Poisson draws *)

Lemma off_diagonal_count (N : nat) :
  length (sampled_pairs N false) = (N * (N - 1))%nat /\
  length (sampled_pairs N true) = (N * N)%nat.
Proof.
  assert (Hall : length (pairs N) = (N * N)%nat)
    by (unfold pairs; now rewrite length_prod, length_seq).
  split.
  - rewrite sampled_pairs_off_diagonal.
    pose proof (filter_length (fun ij : nat * nat => (fst ij =? snd ij)%nat)
                              (pairs N)) as H.
    rewrite filter_diag_pairs, length_map, length_seq, Hall in H.
    rewrite Nat.mul_sub_distr_l. lia.
  - now rewrite sampled_pairs_all.
Qed.

Lemma counting_planted_edge_loop (c : R) (w : nat * nat -> R)
      (l : list (nat * nat)) :
  forall (A A' : matrix R) (st st' : RandomState * nat),
    foldM (planted_edge_step (source := counting_source source) c w) l
          (A, st) = Ok (A', st') ->
    snd st'
    = (snd st
       + length (filter (fun ij => negb (fst ij =? snd ij)%nat) l))%nat.
Proof.
  induction l as [|ij l IH]; intros A A' st st' Hrun.
  - cbn in Hrun. inversion Hrun; subst. cbn. lia.
  - cbn [foldM] in Hrun. unfold planted_edge_step at 1 in Hrun.
    cbn [fst snd filter] in *.
    destruct (fst ij =? snd ij)%nat; cbn [negb].
    + cbn [bind] in Hrun. now apply (IH A A').
    + cbn [poisson counting_source] in Hrun.
      destruct (poisson (c * w ij) (fst st)) as [[a s1]|e]; [|discriminate].
      cbn [bind fst snd] in Hrun.
      destruct (setitem A (fst ij) (snd ij) (INR a)) as [A1|e];
        [|discriminate].
      cbn [bind] in Hrun.
      rewrite (IH A1 A' _ st' Hrun). cbn [snd length]. lia.
Qed.

Lemma counting_groups_edge_loop (allow_self_loops : bool) (c : R)
      (w : nat * nat -> R) (l : list (nat * nat)) :
  forall (A A' : DiGraph) (st st' : RandomState * nat),
    foldM (groups_edge_step (source := counting_source source)
                            allow_self_loops c w) l (A, st)
    = Ok (A', st') ->
    snd st'
    = (snd st
       + length (filter
                   (fun ij => negb ((fst ij =? snd ij)%nat
                                    && negb allow_self_loops)) l))%nat.
Proof.
  induction l as [|ij l IH]; intros A A' st st' Hrun.
  - cbn in Hrun. inversion Hrun; subst. cbn. lia.
  - cbn [foldM] in Hrun. unfold groups_edge_step at 1 in Hrun.
    cbn [fst snd filter] in *.
    destruct ((fst ij =? snd ij)%nat && negb allow_self_loops); cbn [negb].
    + cbn [bind] in Hrun. now apply (IH A A').
    + cbn [poisson counting_source] in Hrun.
      destruct (poisson (c * w ij) (fst st)) as [[a s1]|e]; [|discriminate].
      cbn [bind fst snd] in Hrun.
      destruct (0 <? a)%nat; cbn [bind] in Hrun;
        rewrite (IH _ A' _ st' Hrun); cbn [snd length]; lia.
Qed.

(** X24: a call of [SpringRank_planted_network] that returns has made
    exactly [N * (N - 1)] Poisson draws, one for every ordered pair of
    distinct nodes. *)
Theorem planted_network_poisson_draws
        (N : nat) (beta alpha K l0 : R) (return_ranks : bool)
        (g g' : RandomState) (k k' : nat) (out : planted_output) :
  SpringRank_planted_network (source := counting_source source)
    N beta alpha K l0 return_ranks (g, k)
  = Ok (out, (g', k')) ->
  k' = (k + N * (N - 1))%nat.
Proof.
  unfold SpringRank_planted_network. intro Hrun.
  cbn [normal counting_source fst snd] in Hrun.
  destruct (normal l0 (1 / sqrt (alpha * beta)) N g) as [[ranks g1]|e];
    [|discriminate].
  cbn [bind fst snd] in Hrun.
  destruct (normalizer K N (partition_sum (scaled_energy beta ranks) N))
    as [c|e]; [|discriminate].
  cbn [bind] in Hrun.
  match type of Hrun with
  | bind ?loop _ = _ => destruct loop as [[A st]|e] eqn:Eloop
  end; [|discriminate].
  cbn [bind fst snd] in Hrun.
  apply counting_planted_edge_loop in Eloop. cbn [snd] in Eloop.
  assert (Hst : st = (g', k'))
    by (destruct return_ranks; now inversion Hrun).
  subst st. cbn [snd] in Eloop. rewrite Eloop.
  rewrite <- sampled_pairs_off_diagonal.
  now rewrite (proj1 (off_diagonal_count N)).
Qed.

(** X25: a call of [SpringRank_planted_network_groups] that returns has
    made exactly [N * (N - 1)] Poisson draws, or [N * N] with
    [allow_self_loops], all of them from the module-level generator: the
    generator [prng] is not used for any of them. *)
Theorem planted_groups_poisson_draws
        (N : nat) (num_groups : dict nat) (beta : R) (alpha : dict R)
        (K : R) (l0 : dict R) (l1 : R)
        (allow_self_loops return_ranks : bool)
        (prng prng' np_random np_random' : RandomState)
        (kp kp' k k' : nat) (out : planted_groups_output) :
  SpringRank_planted_network_groups (source := counting_source source)
    N num_groups beta alpha K (prng, kp) l0 l1
    allow_self_loops return_ranks (np_random, k)
  = Ok (out, (prng', kp'), (np_random', k')) ->
  kp' = kp /\
  k' = (k + if allow_self_loops then N * N else N * (N - 1))%nat.
Proof.
  unfold SpringRank_planted_network_groups. intro Hrun.
  destruct (dict_get alpha individual) as [alpha_i|e]; [|discriminate].
  cbn [bind] in Hrun.
  destruct (dict_get l0 individual) as [l0_i|e]; [|discriminate].
  cbn [bind] in Hrun.
  cbn [normal counting_source fst snd] in Hrun.
  destruct (normal l0_i (1 / sqrt (alpha_i * beta)) N prng)
    as [[ind p1]|e]; [|discriminate].
  cbn [bind fst snd] in Hrun.
  destruct (dict_get (dict_set [] individual ind) individual)
    as [ranks0|e]; [|discriminate].
  cbn [bind] in Hrun.
  match type of Hrun with
  | bind ?loop _ = _ => destruct loop as [st|e] eqn:Egroups
  end; [|discriminate].
  cbn [bind] in Hrun.
  destruct (normalizer K N
              (partition_sum (scaled_exp_energy beta l1 (st_ranks st)) N))
    as [c|e]; [|discriminate].
  cbn [bind] in Hrun.
  match type of Hrun with
  | bind ?loop _ = _ => destruct loop as [[A s]|e] eqn:Eloop
  end; [|discriminate].
  cbn [bind fst snd] in Hrun.
  assert (Hstates : st_prng st = (prng', kp') /\ s = (np_random', k'))
    by (destruct return_ranks; inversion Hrun; now split).
  destruct Hstates as [Hp Hs]. subst s. clear Hrun.
  assert (Hinv : snd (st_prng st) = kp /\ snd (st_global st) = k).
  { apply (foldM_preserves
             (groups_step (source := counting_source source)
                          N num_groups beta alpha l0)
             (fun st => snd (st_prng st) = kp /\ snd (st_global st) = k)
             (keys num_groups)
             (mkGroupsState (dict_set [] individual ind) [] ranks0
                            (p1, kp) (np_random, k)) st);
      [now split | | exact Egroups].
    intros st0 t st1 _ [Hkp Hk] Hstep. unfold groups_step in Hstep.
    destruct (dict_get num_groups t) as [n_i|e]; [|discriminate].
    cbn [bind] in Hstep.
    cbn [randint counting_source] in Hstep.
    destruct (randint 0 n_i N (fst (st_global st0))) as [[vs g1]|e];
      [|discriminate].
    cbn [bind fst snd] in Hstep.
    destruct (assignment_matrix N n_i vs) as [G_i|e]; [|discriminate].
    cbn [bind] in Hstep.
    destruct (dict_get alpha t) as [a|e]; [|discriminate].
    cbn [bind] in Hstep.
    destruct (dict_get l0 t) as [m|e]; [|discriminate].
    cbn [bind] in Hstep.
    cbn [normal counting_source] in Hstep.
    destruct (normal m (1 / sqrt (a * beta)) n_i (fst (st_prng st0)))
      as [[xs p']|e]; [|discriminate].
    cbn [bind fst snd] in Hstep.
    match type of Hstep with
    | bind ?r _ = _ => destruct r as [s_t|e]
    end; [|discriminate].
    cbn [bind] in Hstep.
    destruct (matvec G_i s_t) as [p|e]; [|discriminate].
    cbn [bind] in Hstep.
    match type of Hstep with
    | bind ?r _ = _ => destruct r as [ranks1|e]
    end; [|discriminate].
    cbn [bind] in Hstep. inversion Hstep; subst st1.
    cbn [st_prng st_global snd]. now split. }
  destruct Hinv as [Hkp Hk]. rewrite Hp in Hkp. cbn [snd] in Hkp.
  split; [exact Hkp|].
  apply counting_groups_edge_loop in Eloop. cbn [snd] in Eloop.
  rewrite Eloop, Hk. f_equal.
  fold (sampled_pairs N allow_self_loops).
  destruct allow_self_loops; apply off_diagonal_count.
Qed.

End SamplerProperties.

(** ** The means handed to [poisson] *)

Section ExpectedEdges.

Open Scope R_scope.

Lemma planted_edge_loop_means (c : R) (w : nat * nat -> R)
      (l : list (nat * nat)) (A : matrix R) (log : list R) :
  (forall ij, In ij l -> (fst ij < nrows A)%nat /\ (snd ij < ncols A)%nat) ->
  exists A',
    foldM (planted_edge_step (source := recording_source) c w) l (A, log)
    = Ok (A', log ++ map (fun ij => c * w ij)
                         (filter (fun ij => negb (fst ij =? snd ij)%nat) l)).
Proof.
  revert A log. induction l as [|ij l IH]; intros A log Hrange.
  - exists A. simpl. now rewrite app_nil_r.
  - cbn [foldM filter]. unfold planted_edge_step at 1.
    destruct (fst ij =? snd ij)%nat; cbn [negb bind fst snd].
    + apply IH. intros ij' Hin. apply Hrange. now right.
    + cbn [poisson recording_source]. unfold recording_poisson at 1.
      cbn [bind fst snd].
      destruct (Hrange ij (or_introl eq_refl)) as [Hi Hj].
      destruct (setitem_in_range A (fst ij) (snd ij) (INR 0) Hi Hj)
        as (A1 & HA1 & Hr & Hc).
      rewrite HA1. cbn [bind].
      destruct (IH A1 (log ++ [c * w ij])) as (A' & HA').
      { intros ij' Hin. rewrite Hr, Hc. apply Hrange. now right. }
      exists A'. rewrite HA'. cbn [map]. now rewrite <- app_assoc.
Qed.

Lemma groups_edge_loop_means (allow_self_loops : bool) (c : R)
      (w : nat * nat -> R) (l : list (nat * nat)) (A : DiGraph)
      (log : list R) :
  foldM (groups_edge_step (source := recording_source) allow_self_loops c w) l (A, log)
  = Ok (A, log ++ map (fun ij => c * w ij)
                      (filter (fun ij => negb ((fst ij =? snd ij)%nat
                                               && negb allow_self_loops))
                              l)).
Proof.
  revert log. induction l as [|ij l IH]; intro log.
  - simpl. now rewrite app_nil_r.
  - cbn [foldM filter]. unfold groups_edge_step at 1.
    destruct ((fst ij =? snd ij)%nat && negb allow_self_loops);
      cbn [negb bind fst snd].
    + apply IH.
    + cbn [poisson recording_source]. unfold recording_poisson at 1.
      cbn [bind fst snd].
      change (0 <? 0)%nat with false. cbv iota. cbn [bind].
      rewrite IH. cbn [map]. now rewrite <- app_assoc.
Qed.

(** C3 (what the code computes): the normalizer [c = K*N / Z] takes [Z]
    over all ordered pairs, the diagonal included, while the edge loop of
    the ungrouped sampler, and of the grouped sampler unless self loops
    are allowed, skips the diagonal.  For [N >= 1], [K > 0] and any ranks,
    the means that the edge loop hands to [poisson] add up to
    [K*N - c*N*exp(-beta*l1^2/2)], which is less than [K*N]; they add up
    to [K*N] only when the grouped sampler is asked for self loops. *)
Theorem planted_expected_edges_below_target (N : nat) (beta K l1 : R)
        (ranks : list R) :
  (1 <= N)%nat -> 0 < K ->
  (exists c A means,
     normalizer K N (partition_sum (scaled_energy beta ranks) N) = Ok c /\
     foldM (planted_edge_step (source := recording_source) c (scaled_energy beta ranks))
           (pairs N) (zeros N N, [])
     = Ok (A, means) /\
     Rsum means = K * INR N - c * (INR N * exp (- beta * 0.5)) /\
     Rsum means < K * INR N) /\
  (exists c means_off means_all,
     normalizer K N (partition_sum (scaled_exp_energy beta l1 ranks) N)
     = Ok c /\
     (forall A : DiGraph,
        foldM (groups_edge_step (source := recording_source) false c
                                (scaled_exp_energy beta l1 ranks))
              (pairs N) (A, [])
        = Ok (A, means_off) /\
        foldM (groups_edge_step (source := recording_source) true c
                                (scaled_exp_energy beta l1 ranks))
              (pairs N) (A, [])
        = Ok (A, means_all)) /\
     Rsum means_off
     = K * INR N - c * (INR N * exp (- beta * (0.5 * l1 ^ 2))) /\
     Rsum means_off < K * INR N /\
     Rsum means_all = K * INR N).
Proof.
  intros HN HK.
  destruct (expected_edges_of_samplers N beta K l1 ranks HN HK)
    as [(c1 & Hc1 & Heq1 & Hlt1) (c2 & Hc2 & Heq2 & Hlt2 & Hall2)].
  split.
  - destruct (planted_edge_loop_means c1 (scaled_energy beta ranks)
                (pairs N) (zeros N N) []) as (A & HA).
    { intros ij Hin. now apply pairs_in_range. }
    exists c1, A. eexists. split; [exact Hc1|]. split; [exact HA|].
    cbn [app]. rewrite <- sampled_pairs_off_diagonal.
    split; [exact Heq1 | exact Hlt1].
  - exists c2. eexists. eexists. split; [exact Hc2|]. split.
    + intro A. split; apply groups_edge_loop_means.
    + cbn [app]. split; [exact Heq2|]. split; [exact Hlt2 | exact Hall2].
Qed.

End ExpectedEdges.

(** ** Concrete runs of the samplers *)

Section SamplerRuns.

Open Scope string_scope.
Open Scope R_scope.

Lemma stream_normal_contract : normal_contract (source := stream_source).
Proof.
  intros loc scale n s _. cbn [normal stream_source]. unfold stream_normal.
  eexists. eexists. split; [reflexivity|].
  now rewrite length_map, length_seq.
Qed.

Lemma stream_randint_contract : randint_contract (source := stream_source).
Proof.
  intros high n s Hhigh. cbn [randint stream_source].
  unfold stream_randint.
  replace (high <=? 0)%nat with false by (symmetry; apply Nat.leb_gt; lia).
  eexists. eexists. split; [reflexivity|]. split.
  - now rewrite length_map, length_seq.
  - apply Forall_forall. intros v Hv. apply in_map_iff in Hv.
    destruct Hv as (k & <- & _). rewrite Nat.sub_0_r. cbn [Nat.add].
    apply Nat.mod_upper_bound. lia.
Qed.

Lemma stream_normal_length_contract :
  normal_length_contract (source := stream_source).
Proof.
  intros loc scale n s xs s'. cbn [normal stream_source].
  unfold stream_normal. intro H. inversion H; subst.
  now rewrite length_map, length_seq.
Qed.

Lemma stream_randint_range_contract :
  randint_range_contract (source := stream_source).
Proof.
  intros low high n s vs s'. cbn [randint stream_source].
  unfold stream_randint.
  destruct (high <=? low)%nat eqn:E; [discriminate|].
  apply Nat.leb_gt in E. intro H. inversion H; subst. split.
  - now rewrite length_map, length_seq.
  - apply Forall_forall. intros v Hv. apply in_map_iff in Hv.
    destruct Hv as (k & <- & _).
    pose proof (Nat.mod_upper_bound (s + k) (high - low)). lia.
Qed.

Ltac keys_present :=
  simpl; intros t Ht;
  repeat (destruct Ht as [<- | Ht]; [eexists; eexists; split; reflexivity|]);
  contradiction.

Lemma alpha_negative_signs (t : string) (a : R) :
  dict_find alpha_negative t = Some a -> 0 < a * -1.
Proof.
  unfold alpha_negative. cbn [dict_find].
  destruct (String.eqb "individual" t); [intro H; inversion H; lra|].
  destruct (String.eqb "g" t); intro H; [inversion H; lra | discriminate].
Qed.

Lemma one_group_type_sizes (t : string) (n : nat) :
  dict_find one_group_type t = Some n -> (0 < n)%nat.
Proof.
  unfold one_group_type. cbn [dict_find].
  destruct (String.eqb "g" t); intro H; [inversion H; lia | discriminate].
Qed.

(** With [beta = -1] and [alpha = {"individual": -1}] the grouped sampler
    draws the individual scores and raises for the group type that
    [alpha] lacks; that [KeyError] is the only exception it has (C8). *)
Lemma planted_samplers_raise_no_sign_error_witness :
  SpringRank_planted_network_groups
    (source := stream_source)
    2 one_group_type (-1) alpha_negative_without_g 1 0%nat l0_zeros 1
    false false 0%nat
  = Err (KeyError "g") /\
  (raised_by_draw (source := stream_source) (KeyError "g") \/
   (2%nat = 0%nat /\ KeyError "g" = ZeroDivisionError) \/
   missing_key (individual :: keys one_group_type)
               alpha_negative_without_g l0_zeros (KeyError "g")).
Proof.
  assert (Hrun : SpringRank_planted_network_groups
                   (source := stream_source)
                   2 one_group_type (-1) alpha_negative_without_g 1 0%nat
                   l0_zeros 1 false false 0%nat
                 = Err (KeyError "g"))
    by (cbn; reflexivity).
  split; [exact Hrun|].
  exact (proj2 (planted_samplers_raise_no_sign_error
                  (source := stream_source)
                  2 one_group_type (-1) (-1) 0 alpha_negative_without_g 1
                  0%nat l0_zeros 1 false false 0%nat
                  stream_normal_length_contract
                  stream_randint_range_contract)
               (KeyError "g") Hrun).
Defined.

(** C8 as stated fails: with [beta = -1] and [alpha = -1] both samplers
    draw their scores and return a network; no error is raised.  On two
    nodes the ungrouped sampler draws two scores and two edge counts and
    returns the network with the single edge [1 -> 0]. *)
Lemma planted_samplers_negative_parameters_counterexample :
  -1 <= 0 /\
  (forall t a, dict_find alpha_negative t = Some a -> a <= 0) /\
  (exists A,
     SpringRank_planted_network (source := stream_source)
       2 (-1) (-1) 1 0 false 0%nat = Ok (NetworkOnly A, 4%nat) /\
     entry A 0 1 = INR 0 /\ entry A 1 0 = INR 1) /\
  (exists out prng' g',
     SpringRank_planted_network_groups
       (source := stream_source)
       2 one_group_type (-1) alpha_negative 1 0%nat l0_zeros 1 false false
       0%nat = Ok (out, prng', g')).
Proof.
  split; [lra|]. split.
  - unfold alpha_negative. cbn [dict_find]. intros t a.
    destruct (String.eqb "individual" t); [intro H; inversion H; lra|].
    destruct (String.eqb "g" t); intro H; [inversion H; lra | discriminate].
  - split.
    + eexists. split; [cbn; reflexivity|]. split; reflexivity.
    + do 3 eexists. cbn. reflexivity.
Qed.

(** One node, [beta = 1], [K = 1] (C3): no pair is sampled, so the means of
    the draws add up to [0], not to [K*N = 1]. *)
Lemma planted_expected_edges_below_target_witness :
  (1 <= 1)%nat /\ 0 < 1 /\
  foldM (planted_edge_step (source := recording_source)
           (1 * INR 1 / partition_sum (scaled_energy 1 [0]) 1)
           (scaled_energy 1 [0]))
        (pairs 1) (zeros 1 1, [])
  = Ok (zeros 1 1, []) /\
  exists c A means,
    normalizer 1 1 (partition_sum (scaled_energy 1 [0]) 1) = Ok c /\
    foldM (planted_edge_step (source := recording_source) c (scaled_energy 1 [0]))
          (pairs 1) (zeros 1 1, [])
    = Ok (A, means) /\
    Rsum means < 1 * INR 1.
Proof.
  split; [lia|]. split; [lra|]. split; [reflexivity|].
  destruct (proj1 (planted_expected_edges_below_target
                     1 1 1 1 [0] (le_n 1) Rlt_0_1))
    as (c & A & means & Hc & Hrun & _ & Hlt).
  exists c, A, means. split; [exact Hc|]. split; [exact Hrun | exact Hlt].
Defined.

(** C9 (what the code does): two calls with equal arguments and a
    generator [prng] in the same state.  The group assignments are drawn
    from the module-level generator, which the first call leaves in
    another state: the scores agree, the group matrices and the ranks do
    not. *)
Theorem planted_groups_reads_module_generator :
  exists A1 G1 scores1 ranks1 prng1 g1 A2 G2 scores2 ranks2 prng2 g2,
    SpringRank_planted_network_groups
      (source := stream_source)
      1 one_group_type 1 alpha_ones 1 0%nat l0_zeros 1 false true 0%nat
    = Ok (GroupsWithRanks A1 G1 scores1 ranks1, prng1, g1) /\
    SpringRank_planted_network_groups
      (source := stream_source)
      1 one_group_type 1 alpha_ones 1 0%nat l0_zeros 1 false true g1
    = Ok (GroupsWithRanks A2 G2 scores2 ranks2, prng2, g2) /\
    g1 = 1%nat /\ prng1 = prng2 /\ scores1 = scores2 /\
    G1 <> G2 /\ ranks1 <> ranks2.
Proof.
  do 12 eexists.
  split; [cbn; reflexivity|]. split; [cbn; reflexivity|].
  split; [reflexivity|]. split; [reflexivity|]. split; [reflexivity|].
  split.
  - intro H.
    apply (f_equal (fun G : dict (matrix R) =>
                      match dict_find G "g" with
                      | Some G_i => entry G_i 0 0
                      | None => 0
                      end)) in H.
    cbn in H. lra.
  - intro H. inversion H as [Hr]. lra.
Qed.

(** *** Further runs of the samplers *)

Lemma alpha_ones_signs (t : string) (a : R) :
  dict_find alpha_ones t = Some a -> 0 < a * 1.
Proof.
  unfold alpha_ones. cbn [dict_find].
  destruct (String.eqb "individual" t); [intro H; inversion H; lra|].
  destruct (String.eqb "g" t); intro H; [inversion H; lra | discriminate].
Qed.

Lemma alpha_without_g_signs (t : string) (a : R) :
  dict_find alpha_without_g t = Some a -> 0 < a * 1.
Proof.
  unfold alpha_without_g. cbn [dict_find].
  destruct (String.eqb "individual" t); intro H;
    [inversion H; lra | discriminate].
Qed.

Lemma planted_network_adjacency_witness :
  exists out g',
    SpringRank_planted_network (source := stream_source)
      2 1 1 1 0 false 0%nat = Ok (out, g') /\
    nrows (network_of out) = 2%nat /\
    entry (network_of out) 0 0 = 0 /\ entry (network_of out) 1 1 = 0.
Proof.
  assert (Hrun : exists out g',
             SpringRank_planted_network (source := stream_source)
               2 1 1 1 0 false 0%nat = Ok (out, g'))
    by (eexists; eexists; cbn; reflexivity).
  destruct Hrun as (out & g' & Hrun). exists out, g'.
  split; [exact Hrun|].
  destruct (planted_network_adjacency
              (source := stream_source) 2 1 1 1 0 false 0%nat g' out Hrun)
    as (Hr & _ & Hd & _).
  split; [exact Hr|]. split; apply Hd.
Defined.

Lemma planted_groups_graph_witness :
  exists out prng' g',
    SpringRank_planted_network_groups (source := stream_source)
      2 one_group_type 1 alpha_ones 1 0%nat l0_zeros 1 false false 0%nat
    = Ok (out, prng', g') /\
    map fst (nodes (graph_of out)) = [0%nat; 1%nat] /\
    Forall (edge_ok 2 false) (edges (graph_of out)).
Proof.
  assert (Hrun : exists out prng' g',
             SpringRank_planted_network_groups (source := stream_source)
               2 one_group_type 1 alpha_ones 1 0%nat l0_zeros 1
               false false 0%nat
             = Ok (out, prng', g'))
    by (eexists; eexists; eexists; cbn; reflexivity).
  destruct Hrun as (out & prng' & g' & Hrun). exists out, prng', g'.
  split; [exact Hrun|].
  destruct (planted_groups_graph
              (source := stream_source)
              2 one_group_type 1 alpha_ones 1 0%nat l0_zeros 1 false false
              0%nat prng' g' out Hrun)
    as (Hnodes & _ & Hedges & _).
  split; [exact Hnodes | exact Hedges].
Defined.

Lemma planted_groups_assignment_witness :
  exists out prng' g' G_t,
    SpringRank_planted_network_groups (source := stream_source)
      2 one_group_type 1 alpha_ones 1 0%nat l0_zeros 1 false false 0%nat
    = Ok (out, prng', g') /\
    groups_of out = [("g", G_t)] /\
    nrows G_t = 2%nat /\ ncols G_t = 2%nat /\
    (exists g, one_hot_row G_t 0 g) /\ (exists g, one_hot_row G_t 1 g).
Proof.
  assert (Hrun : exists out prng' g' G_t,
             SpringRank_planted_network_groups (source := stream_source)
               2 one_group_type 1 alpha_ones 1 0%nat l0_zeros 1
               false false 0%nat
             = Ok (out, prng', g') /\
             groups_of out = [("g", G_t)])
    by (do 4 eexists; split; cbn; reflexivity).
  destruct Hrun as (out & prng' & g' & G_t & Hrun & HG).
  exists out, prng', g', G_t.
  split; [exact Hrun|]. split; [exact HG|].
  destruct (planted_groups_assignment
              (source := stream_source)
              2 one_group_type 1 alpha_ones 1 0%nat l0_zeros 1 false false
              0%nat prng' g' out stream_randint_range_contract Hrun
              "g" G_t ltac:(rewrite HG; now left))
    as (n & Hn & Hr & Hc & Hrows).
  cbn in Hn. injection Hn as <-.
  split; [exact Hr|]. split; [exact Hc|].
  split; apply Hrows; lia.
Defined.

Lemma planted_groups_ranks_decomposition_witness :
  NoDup (keys one_group_type) /\ ~ In individual (keys one_group_type) /\
  exists A G scores ranks prng' g',
    SpringRank_planted_network_groups (source := stream_source)
      2 one_group_type 1 alpha_ones 1 0%nat l0_zeros 1 false true 0%nat
    = Ok (GroupsWithRanks A G scores ranks, prng', g') /\
    keys scores = ["individual"; "g"] /\
    recombine G scores = Ok ranks.
Proof.
  assert (Hnd : NoDup (keys one_group_type))
    by (repeat constructor; simpl; tauto).
  assert (Hind : ~ In individual (keys one_group_type))
    by (simpl; intuition discriminate).
  split; [exact Hnd|]. split; [exact Hind|].
  assert (Hrun : exists A G scores ranks prng' g',
             SpringRank_planted_network_groups (source := stream_source)
               2 one_group_type 1 alpha_ones 1 0%nat l0_zeros 1
               false true 0%nat
             = Ok (GroupsWithRanks A G scores ranks, prng', g'))
    by (do 6 eexists; cbn; reflexivity).
  destruct Hrun as (A & G & scores & ranks & prng' & g' & Hrun).
  exists A, G, scores, ranks, prng', g'. split; [exact Hrun|].
  destruct (planted_groups_ranks_decomposition
              (source := stream_source)
              2 one_group_type 1 alpha_ones 1 0%nat l0_zeros 1 false
              0%nat prng' g' A G scores ranks Hnd Hind Hrun)
    as (_ & Hkeys & Hsum).
  split; [exact Hkeys | exact Hsum].
Defined.

Lemma planted_groups_missing_key_witness :
  dict_find alpha_without_individual individual = None /\
  SpringRank_planted_network_groups (source := stream_source)
    2 one_group_type 1 alpha_without_individual 1 0%nat l0_zeros 1
    false false 0%nat
  = Err (KeyError individual) /\
  dict_find alpha_without_g "g" = None /\
  SpringRank_planted_network_groups (source := stream_source)
    2 one_group_type 1 alpha_without_g 1 0%nat l0_zeros 1
    false false 0%nat
  = Err (KeyError "g").
Proof.
  split; [reflexivity|]. split.
  - apply (proj1 (planted_groups_missing_key
                    (source := stream_source)
                    2 one_group_type 1 alpha_without_individual 1 0%nat
                    l0_zeros 1 false false 0%nat)).
    now left.
  - split; [reflexivity|].
    apply (proj2 (planted_groups_missing_key
                    (source := stream_source)
                    2 one_group_type 1 alpha_without_g 1 0%nat
                    l0_zeros 1 false false 0%nat)
                 [] [] "g" stream_normal_contract stream_randint_contract).
    + reflexivity.
    + keys_present.
    + exact alpha_without_g_signs.
    + exact one_group_type_sizes.
    + now left.
Defined.

(** Node [0] one above node [1]: the weight of the edge [0 -> 1] is at
    its peak, and above the weight of the edge [1 -> 0]. *)
Lemma planted_weight_peak_witness :
  0 < 1 /\ scaled_exp_energy 1 1 [1; 0] (0%nat, 1%nat) = 1.
Proof.
  split; [lra|].
  apply (proj1 (planted_weight_peak 1 1 [1; 0] 0 1 Rlt_0_1)).
  cbn. lra.
Defined.

Lemma planted_weight_direction_witness :
  0 < 1 /\
  scaled_exp_energy 1 1 [1; 0] (1%nat, 0%nat)
  <= scaled_exp_energy 1 1 [1; 0] (0%nat, 1%nat).
Proof.
  split; [lra|].
  apply (proj1 (planted_weight_direction 1 1 [1; 0] 0 1 Rlt_0_1 Rlt_0_1)).
  cbn. lra.
Defined.

Lemma planted_network_poisson_draws_witness :
  exists out g' k',
    SpringRank_planted_network (source := counting_source stream_source)
      2 1 1 1 0 false (0%nat, 0%nat) = Ok (out, (g', k')) /\
    k' = 2%nat.
Proof.
  assert (Hrun : exists out g' k',
             SpringRank_planted_network
               (source := counting_source stream_source)
               2 1 1 1 0 false (0%nat, 0%nat) = Ok (out, (g', k')))
    by (do 3 eexists; cbn; reflexivity).
  destruct Hrun as (out & g' & k' & Hrun). exists out, g', k'.
  split; [exact Hrun|].
  exact (planted_network_poisson_draws
           (source := stream_source) 2 1 1 1 0 false 0%nat g' 0%nat k' out
           Hrun).
Defined.

Lemma planted_groups_poisson_draws_witness :
  exists out prng' kp' g' k',
    SpringRank_planted_network_groups
      (source := counting_source stream_source)
      2 one_group_type 1 alpha_ones 1 (0%nat, 0%nat) l0_zeros 1
      true false (0%nat, 0%nat)
    = Ok (out, (prng', kp'), (g', k')) /\
    kp' = 0%nat /\ k' = 4%nat.
Proof.
  assert (Hrun : exists out prng' kp' g' k',
             SpringRank_planted_network_groups
               (source := counting_source stream_source)
               2 one_group_type 1 alpha_ones 1 (0%nat, 0%nat) l0_zeros 1
               true false (0%nat, 0%nat)
             = Ok (out, (prng', kp'), (g', k')))
    by (do 5 eexists; cbn; reflexivity).
  destruct Hrun as (out & prng' & kp' & g' & k' & Hrun).
  exists out, prng', kp', g', k'. split; [exact Hrun|].
  exact (planted_groups_poisson_draws
           (source := stream_source)
           2 one_group_type 1 alpha_ones 1 l0_zeros 1 true false
           0%nat prng' 0%nat g' 0%nat kp' 0%nat k' out Hrun).
Defined.

End SamplerRuns.
